(** * faast.js, AWS provider: queue-based call correlation, drain, polling

    A shallow embedding of [src/aws/aws-cloudify.ts].  The source file holds
    two revisions of the provider:

    - the earlier one, with [resultCollector], [startResultCollectorIfNeeded],
      [enqueueCallRequest], [cloudifyWithResponse], [cancelWithoutCleanup],
      [deleteRole] and [cleanup] working on [State.callResultPromises];
    - the later one, with [pollAWSRequest], [collectGarbage] and [stop], which
      forwards the queue work to the [cloudqueue] module.

    Further parts follow the same sources: [waitForRoleReadiness] of the
    earlier revision, and [deleteResources], [cleanup] and the workers of
    [deleteGarbageFunctions] of the later one.

    Asynchronous functions are embedded as tasks with a program counter that
    names the [await] they are suspended at; a synchronous segment between two
    awaits is one atomic transition, as in the JavaScript event loop. *)

From Stdlib Require Import ZArith Lia List.
From stdpp Require Import base option list gmap strings fin_maps sorting.

(* ===================================================================== *)
(** ** [pollAWSRequest] (later revision) *)
(* ===================================================================== *)

Module PollRequest.

Local Open Scope Z_scope.

(** Settlement of the promise of one [aws.Request]. *)
Inductive Outcome (T E : Type) : Type :=
| Fulfilled (v : T)
| RejectedWith (e : E).
Arguments Fulfilled {T E} v.
Arguments RejectedWith {T E} e.

(** What the function does that can be seen from outside. *)
Inductive Event (E : Type) : Type :=
| EvInfo                   (* info(`Polling ${description}...`) *)
| EvRequest (k : nat)      (* the k-th call of [fn()] *)
| EvSleep (ms : Z)         (* await sleep(duration) *)
| EvWarn (e : E).          (* warn(err) *)
Arguments EvInfo {E}.
Arguments EvRequest {E} k.
Arguments EvSleep {E} ms.
Arguments EvWarn {E} e.

Inductive Completion (T E : Type) : Type :=
| Returned (v : T)
| Threw (e : E).
Arguments Returned {T E} v.
Arguments Threw {T E} e.

Section WithRequest.
Context {T E : Type}.
(** JavaScript truthiness of a result, for [if (result)]. *)
Variable truthy : T -> bool.
(** [fn k] is how the request made by the k-th call of [fn()] settles. *)
Variable fn : nat -> Outcome T E.

(** [quietly(arg) = arg.promise().catch(_ => {})]: a rejection becomes
    [undefined]. *)
Definition quietly (o : Outcome T E) : option T :=
  match o with
  | Fulfilled v => Some v
  | RejectedWith _ => None
  end.

(** [if (duration < 5000) duration += 1000]. *)
Definition next_duration (duration : Z) : Z :=
  if duration <? 5000 then duration + 1000 else duration.

(** The statements after the [for] loop:
    [try { return await fn().promise() } catch (err) { warn(err); throw err }]. *)
Definition final_attempt (k : nat) (tr : list (Event E))
  : Completion T E * list (Event E) :=
  match fn k with
  | Fulfilled v => (Returned v, tr ++ [EvRequest k])
  | RejectedWith err => (Threw err, tr ++ [EvRequest k; EvWarn err])
  end.

(** The [for (let i = 1; i < n; i++)] loop, by the number of iterations
    that remain; [k] counts the calls of [fn] made so far. *)
Fixpoint poll_loop (remaining : nat) (duration : Z) (k : nat)
         (tr : list (Event E)) : Completion T E * list (Event E) :=
  match remaining with
  | O => final_attempt k tr
  | S remaining' =>
      let tr1 := tr ++ [EvInfo; EvRequest k] in
      match quietly (fn k) with
      | Some result =>
          if truthy result then (Returned result, tr1)
          else poll_loop remaining' (next_duration duration) (S k)
                         (tr1 ++ [EvSleep duration])
      | None =>
          poll_loop remaining' (next_duration duration) (S k)
                    (tr1 ++ [EvSleep duration])
      end
  end.

(** [pollAWSRequest(n, description, fn)]: [let duration = 1000], then the
    loop, which runs [n - 1] times when [n >= 1] and not at all below. *)
Definition pollAWSRequest (n : Z) : Completion T E * list (Event E) :=
  poll_loop (Z.to_nat (n - 1)) 1000 0%nat [].

(** The delays slept, in order. *)
Definition sleeps (tr : list (Event E)) : list Z :=
  omap (fun ev => match ev with EvSleep ms => Some ms | _ => None end) tr.

(** The calls of [fn] made, in order. *)
Definition requests (tr : list (Event E)) : list nat :=
  omap (fun ev => match ev with EvRequest k => Some k | _ => None end) tr.

End WithRequest.

(** The delay before the (k+1)-th re-execution: base 1000, step 1000,
    cap 5000. *)
Definition backoff (k : nat) : Z := Z.min (1000 * (Z.of_nat k + 1)) 5000.

End PollRequest.

(** *** The trace of the retried attempts of [pollAWSRequest] *)

Module PollRequestViews.
Import PollRequest.
Local Open Scope Z_scope.

(** What attempts [k], [k+1], ..., [k+m-1] leave in the trace when each of
    them fails inside the loop: the log line, the request, the sleep. *)
Definition retries {E : Type} (k m : nat) : list (Event E) :=
  flat_map (fun i => [EvInfo; EvRequest i; EvSleep (backoff i)]) (seq k m).

(** Attempt [i] fails inside the loop: the request rejects, or its result
    is falsy. *)
Definition fails {T E : Type} (truthy : T -> bool) (fn : nat -> Outcome T E)
           (i : nat) : bool :=
  match fn i with
  | Fulfilled v => negb (truthy v)
  | RejectedWith _ => true
  end.

End PollRequestViews.

(* ===================================================================== *)
(** ** [waitForRoleReadiness] (earlier revision) *)
(* ===================================================================== *)

Module RoleReadiness.
Import PollRequest.
Local Open Scope Z_scope.

(** What the function does that can be seen from outside. *)
Inductive RoleEvent : Type :=
| RoleLogCreating           (* log(`Creating test function ...`) *)
| RolePack                  (* await packer({...}) *)
| RoleZip                   (* await zipStreamToBuffer(archive) *)
| RoleSleep (ms : Z)        (* await sleep(ms) *)
| RoleLogPolling            (* log(`Polling for role readiness...`) *)
| RoleCreateFunction (i : nat)  (* lambda.createFunction, in iteration i *)
| RoleLogReady              (* log(`Role ready. Cleaning up.`) *)
| RoleDeleteFunction.       (* lambda.deleteFunction({ FunctionName }) *)

Section WithRequests.
Context {T E : Type}.
(** JavaScript truthiness of a result, for [if (testfunc)]. *)
Variable truthy : T -> bool.
(** The rejections of [packer(...)] and of [zipStreamToBuffer(archive)],
    if they reject. *)
Variable packer zipStreamToBuffer : option E.
(** How the request of iteration [i] settles. *)
Variable createFunction : nat -> Outcome T E.
(** The rejection of [lambda.deleteFunction], if it rejects. *)
Variable deleteFunction : option E.
(** [new Error(message)]. *)
Variable new_Error : string -> E.

(** The [for (let i = 0; i < 100; i++)] loop, by the number of iterations
    that remain; the first component is [testfunc] when the loop ends, [None]
    standing for a falsy value. *)
Fixpoint role_loop (remaining i : nat) (tr : list RoleEvent)
  : option T * list RoleEvent :=
  match remaining with
  | O => (None, tr)
  | S remaining' =>
      let tr1 := tr ++ [RoleLogPolling; RoleCreateFunction i] in
      match quietly (createFunction i) with
      | Some testfunc =>
          if truthy testfunc then (Some testfunc, tr1)
          else role_loop remaining' (S i) (tr1 ++ [RoleSleep 1000])
      | None => role_loop remaining' (S i) (tr1 ++ [RoleSleep 1000])
      end
  end.

Definition waitForRoleReadiness : Completion unit E * list RoleEvent :=
  match packer with
  | Some err => (Threw err, [RoleLogCreating; RolePack])
  | None =>
      match zipStreamToBuffer with
      | Some err => (Threw err, [RoleLogCreating; RolePack; RoleZip])
      | None =>
          match role_loop 100 0 [RoleLogCreating; RolePack; RoleZip; RoleSleep 2000] with
          | (None, tr) =>
              (Threw (new_Error "Could not initialize lambda execution role"), tr)
          | (Some _, tr) =>
              match deleteFunction with
              | Some err => (Threw err, tr ++ [RoleLogReady; RoleDeleteFunction])
              | None => (Returned tt, tr ++ [RoleLogReady; RoleDeleteFunction])
              end
          end
      end
  end.

End WithRequests.

(** The requests made, the time slept, and whether the test function was
    deleted. *)
Definition role_requests (tr : list RoleEvent) : list nat :=
  omap (fun ev => match ev with RoleCreateFunction i => Some i | _ => None end) tr.

Definition role_slept (tr : list RoleEvent) : Z :=
  foldr Z.add 0 (omap (fun ev => match ev with RoleSleep ms => Some ms | _ => None end) tr).

Definition role_deletes (tr : list RoleEvent) : nat :=
  length (omap (fun ev => match ev with RoleDeleteFunction => Some tt | _ => None end) tr).

(** The trace of [m] failed iterations starting at iteration [i]. *)
Definition role_retries (i m : nat) : list RoleEvent :=
  flat_map (fun i => [RoleLogPolling; RoleCreateFunction i; RoleSleep 1000]) (seq i m).

(** A run in which the role becomes usable at the third attempt. *)
Definition role_example : Completion unit string * list RoleEvent :=
  waitForRoleReadiness (T := string) (fun _ => true) None None
    (fun i => if (i <? 2)%nat then RejectedWith "InvalidParameterValueException"%string
              else Fulfilled "arn:aws:lambda:testfunction"%string)
    None (fun msg => msg).

End RoleReadiness.

(* ===================================================================== *)
(** ** The queue engine of the earlier revision *)
(* ===================================================================== *)

Module Engine.

(** *** Data *)

(** A JavaScript value carried in [FunctionReturn.value]: [null] (or a
    field that is missing, [undefined]), any other plain data (kept as its
    JSON text), or an object with the fields of a serialized error. *)
Inductive Value : Type :=
| VNull
| VData (json : string)
| VErrorObj (name message stack : string).

(** An [Error] object.  The stack text the runtime generates for
    [new Error(...)] is not modelled ([None]). *)
Record JsError : Type := mkError {
  err_name : option string;
  err_message : string;
  err_stack : option string
}.

(** [new Error(message)]; an [undefined] message gives the empty string. *)
Definition new_Error (message : option string) : JsError :=
  {| err_name := Some "Error"%string;
     err_message := default ""%string message;
     err_stack := None |}.

(** The [TypeError] the runtime throws when a property of [null] or
    [undefined] is read, or when something that is not a function is called;
    the message text is the runtime's and is not modelled. *)
Definition typeError : JsError :=
  {| err_name := Some "TypeError"%string;
     err_message := ""%string;
     err_stack := None |}.

(** [FunctionReturn] (declared in [../shared]); the fields the provider
    reads. *)
Record FunctionReturn : Type := mkReturn {
  type : string;
  value : Value;
  CallId : string
}.

(** An SQS message as the collector destructures it. *)
Record Message : Type := mkMessage {
  Body : option string;
  ReceiptHandle : string
}.

(** [aws.Lambda.InvocationResponse], the fields read on the direct path. *)
Record InvocationResponse : Type := mkInvocation {
  FunctionError : option string;
  Payload : option string
}.

Inductive RawResponse : Type :=
| RawQueue (Messages : list Message)
| RawInvoke (r : InvocationResponse)
| RawUndefined.

(** [QueuedResponse<T>]. *)
Record QueuedResponse : Type := mkQueued {
  returned : FunctionReturn;
  rawResponse : list Message
}.

(** [Response<T>], the value [responsifedFunc] returns. *)
Record Response : Type := mkResponse {
  rv_value : option Value;
  rv_error : option JsError;
  rv_rawResponse : RawResponse
}.

(** The promise behind a [Deferred<QueuedResponse>]. *)
Inductive PromiseState : Type :=
| Pending
| Resolved (r : QueuedResponse)
| Rejected (err : JsError).

Inductive RoleHandling : Type := createTemporaryRole | createOrReuseCachedRole.

(** [Partial<AWSResources>]. *)
Record AWSResources : Type := mkResources {
  FunctionName : option string;
  RoleName : option string;
  RequestTopicArn : option string;
  ResponseQueueUrl : option string;
  rolePolicy : option RoleHandling;
  logGroupName : option string;
  SNSLambdaSubscriptionArn : option string
}.

(** [State]; a [Deferred] is named by the index of its promise, and
    [resultCollectorPromise] by the index of the collector run whose
    promise it is. *)
Record State : Type := mkState {
  resources : AWSResources;
  useQueue : bool;
  callResultPromises : gmap string nat;
  resultCollectorPromise : option nat
}.

(** Calls that leave the process, and the settlement calls on deferreds. *)
Inductive Effect : Type :=
| SqsReceiveMessage
| SqsDeleteMessage (handle : string)
| SnsPublish (id : string)
| LambdaInvoke (id : string)
| DeferredResolve (d : nat)
| DeferredReject (d : nat)
| LogPromiseNotFound (id : string)
| SetTimeout
| SnsUnsubscribe
| LambdaDeleteFunction
| CloudwatchDeleteLogGroup
| IamListAttachedRolePolicies
| IamDetachRolePolicy (PolicyArn : string)
| IamListRolePolicies
| IamDeleteRolePolicy (PolicyName : string)
| IamDeleteRole
| SnsDeleteTopic
| SqsDeleteQueue.

(** *** Tasks: one per running asynchronous function *)

(** [responsifedFunc], by the [await] it is suspended at. *)
Inductive CallerPc : Type :=
| AwaitQueueResponse (d : nat)     (* await enqueueCallRequest(...).promise *)
| AwaitPublish (queueResponse : QueuedResponse)  (* await sns.publish(...).promise() *)
| AwaitInvoke                      (* await lambda.invoke(request).promise() *)
| CallReturned (rv : Response)
| CallThrew (err : JsError).

Record Caller : Type := mkCaller {
  caller_CallId : string;
  caller_pc : CallerPc
}.

(** [resultCollector]. *)
Inductive CollectorPc : Type :=
| Polling        (* await sqs.receiveMessage(...).promise() *)
| Deleting       (* await Promise.all(deletePromises) *)
| Exited         (* the function returned *)
| Crashed (err : JsError).  (* the function threw *)

(** [cancelWithoutCleanup]. *)
Inductive CancelPc : Type :=
| AwaitCollector (k : nat)   (* await state.resultCollectorPromise *)
| CancelReturned
| CancelThrew (err : JsError).

(** [cleanup]; [c] is the [cancelWithoutCleanup] run behind [cancelPromise].
    The four stages from [ListingAttachedPolicies] to [DeletingRole] are the
    four [await]s of [deleteRole], which [cleanup] awaits. *)
Inductive CleanupPc : Type :=
| Unsubscribing
| DeletingFunction (c : nat)
| DeletingLogGroup (c : nat)
| ListingAttachedPolicies (c : nat)  (* await carefully(iam.listAttachedRolePolicies(...)) *)
| DetachingPolicies (c : nat)        (* await Promise.all(...detachRolePolicy...).catch(log) *)
| ListingRolePolicies (c : nat)      (* await carefully(iam.listRolePolicies(...)) *)
| DeletingRole (c : nat)             (* await carefully(iam.deleteRole(...)) *)
| AwaitCancel (c : nat)
| DeletingQueues
| CleanupReturned
| CleanupThrew (err : JsError).

Record World : Type := mkWorld {
  state : State;
  deferreds : list PromiseState;
  callers : list Caller;
  collectors : list CollectorPc;
  cancels : list CancelPc;
  cleanups : list CleanupPc;
  timers : nat;              (* pending setTimeout callbacks *)
  uuids : list string;       (* the values uuidv4() has returned *)
  effects : list Effect      (* oldest first *)
}.

(** *** Field updates *)

Definition with_table (t : gmap string nat) (w : World) : World :=
  mkWorld (mkState (resources (state w)) (useQueue (state w)) t
                   (resultCollectorPromise (state w)))
          (deferreds w) (callers w) (collectors w) (cancels w) (cleanups w)
          (timers w) (uuids w) (effects w).

Definition with_collectorPromise (p : option nat) (w : World) : World :=
  mkWorld (mkState (resources (state w)) (useQueue (state w))
                   (callResultPromises (state w)) p)
          (deferreds w) (callers w) (collectors w) (cancels w) (cleanups w)
          (timers w) (uuids w) (effects w).

Definition with_deferreds (ds : list PromiseState) (w : World) : World :=
  mkWorld (state w) ds (callers w) (collectors w) (cancels w) (cleanups w)
          (timers w) (uuids w) (effects w).

Definition with_callers (cs : list Caller) (w : World) : World :=
  mkWorld (state w) (deferreds w) cs (collectors w) (cancels w) (cleanups w)
          (timers w) (uuids w) (effects w).

Definition with_collectors (ks : list CollectorPc) (w : World) : World :=
  mkWorld (state w) (deferreds w) (callers w) ks (cancels w) (cleanups w)
          (timers w) (uuids w) (effects w).

Definition with_cancels (cs : list CancelPc) (w : World) : World :=
  mkWorld (state w) (deferreds w) (callers w) (collectors w) cs (cleanups w)
          (timers w) (uuids w) (effects w).

Definition with_cleanups (cs : list CleanupPc) (w : World) : World :=
  mkWorld (state w) (deferreds w) (callers w) (collectors w) (cancels w) cs
          (timers w) (uuids w) (effects w).

Definition with_timers (n : nat) (w : World) : World :=
  mkWorld (state w) (deferreds w) (callers w) (collectors w) (cancels w)
          (cleanups w) n (uuids w) (effects w).

Definition with_uuids (us : list string) (w : World) : World :=
  mkWorld (state w) (deferreds w) (callers w) (collectors w) (cancels w)
          (cleanups w) (timers w) us (effects w).

(** Record one effect. *)
Definition emit (e : Effect) (w : World) : World :=
  mkWorld (state w) (deferreds w) (callers w) (collectors w) (cancels w)
          (cleanups w) (timers w) (uuids w) (effects w ++ [e]).

(** *** Small JavaScript idioms *)

(** Truthiness of a value of type [string | undefined]. *)
Definition truthy (o : option string) : bool :=
  match o with
  | Some s => negb (String.eqb s "")
  | None => false
  end.

(** [isEmpty(obj)]: no own property. *)
Definition isEmpty (obj : gmap string nat) : bool :=
  bool_decide (obj = ∅).

(** The table is a plain object ([callResultPromises: {}]), so besides its
    own properties it has the members of [Object.prototype]: reading
    [table[key]] for one of these names, when the table has no own property
    of that name, gives the inherited member and not [undefined]. *)
Definition inherited (key : string) : bool :=
  existsb (String.eqb key)
    ["constructor"; "__defineGetter__"; "__defineSetter__"; "hasOwnProperty";
     "__lookupGetter__"; "__lookupSetter__"; "isPrototypeOf";
     "propertyIsEnumerable"; "toString"; "valueOf"; "__proto__";
     "toLocaleString"]%string.

(** The value of a decimal digit. *)
Definition digit (c : Ascii.ascii) : option N :=
  let n := Ascii.N_of_ascii c in
  if ((48 <=? n) && (n <=? 57))%N then Some (n - 48)%N else None.

(** The number written by a string of decimal digits, after the digits
    whose value is [acc]. *)
Fixpoint digits (s : string) (acc : N) : option N :=
  match s with
  | EmptyString => Some acc
  | String c s' =>
      match digit c with
      | Some d => digits s' (10 * acc + d)%N
      | None => None
      end
  end.

(** A key that is an array index: the decimal numeral, without leading
    zeros, of a number below [2^32 - 1]. *)
Definition array_index (key : string) : option N :=
  match key with
  | EmptyString => None
  | String c rest =>
      if (Ascii.N_of_ascii c =? 48)%N && negb (String.eqb rest "") then None
      else match digits key 0 with
           | Some n => if (n <? 4294967295)%N then Some n else None
           | None => None
           end
  end.

(** The order of [Object.keys]: array indices first, in ascending numeric
    order, then the other keys in the order in which they were added.  A key
    is added to the table once, by [enqueueCallRequest], with a deferred
    whose index is the number of deferreds made before it, so the keys that
    are not array indices were added in the order of their deferreds. *)
Definition key_precedes (a b : string * nat) : Prop :=
  match array_index a.1, array_index b.1 with
  | Some i, Some j => (i ≤ j)%N
  | Some _, None => True
  | None, Some _ => False
  | None, None => a.2 ≤ b.2
  end.

Global Instance key_precedes_dec (a b : string * nat) : Decision (key_precedes a b).
Proof. unfold key_precedes. repeat case_match; apply _. Defined.

(** The own properties of the table in the order of [Object.keys]. *)
Definition Object_entries (obj : gmap string nat) : list (string * nat) :=
  merge_sort key_precedes (map_to_list obj).

(** [deferred.resolve(arg)]: settles the promise if it is still pending. *)
Definition resolve (d : nat) (arg : QueuedResponse) (w : World) : World :=
  emit (DeferredResolve d)
       (match deferreds w !! d with
        | Some Pending => with_deferreds (<[d := Resolved arg]> (deferreds w)) w
        | _ => w
        end).

(** [deferred.reject(err)]. *)
Definition reject (d : nat) (err : JsError) (w : World) : World :=
  emit (DeferredReject d)
       (match deferreds w !! d with
        | Some Pending => with_deferreds (<[d := Rejected err]> (deferreds w)) w
        | _ => w
        end).

(** The error [cancelWithoutCleanup] rejects with. *)
Definition cancelled : JsError :=
  new_Error (Some "Call to cloud function cancelled in cleanup"%string).

(** What the parser is taken to throw on text that is not a
    [FunctionReturn]. *)
Definition syntaxError : JsError :=
  {| err_name := Some "SyntaxError"%string;
     err_message := "Unexpected token in JSON"%string;
     err_stack := None |}.

(** [JSON.parse] followed by reading the fields of a [FunctionReturn]; [None]
    when that throws. *)
Class Json : Type := JSON_parse : string -> option FunctionReturn.

(** [x] when it is a non-empty string, for tests such as [if (Body)]. *)
Definition nonempty (o : option string) : option string :=
  match o with
  | Some s => if String.eqb s "" then None else Some s
  | None => None
  end.

Section Operations.
Context {json : Json}.

(** *** [resultCollector] *)

(** The loop test and what follows it up to the next [await]: either the
    next [sqs.receiveMessage], or the statements after the loop
    ([delete state.resultCollectorPromise; setTimeout(...)]) and the return. *)
Definition loop_head (w : World) : World * CollectorPc :=
  if isEmpty (callResultPromises (state w)) then
    (emit SetTimeout (with_timers (S (timers w)) (with_collectorPromise None w)),
     Exited)
  else
    (emit SqsReceiveMessage w, Polling).

(** A call of [resultCollector(state)]: it runs up to its first [await] and
    hands back its promise. *)
Definition resultCollector (w : World) : World * nat :=
  let k := length (collectors w) in
  let '(w1, pc) := loop_head w in
  (with_collectors (collectors w1 ++ [pc]) w1, k).

Definition startResultCollectorIfNeeded (w : World) : World :=
  if negb (isEmpty (callResultPromises (state w)))
     && negb (bool_decide (is_Some (resultCollectorPromise (state w))))
  then
    let '(w1, k) := resultCollector w in
    with_collectorPromise (Some k) w1
  else w.

(** The body of [for (const { Body, ReceiptHandle } of Messages)] for one
    message; the error is the exception that leaves the loop, if any.  When
    the table has no own entry for the [CallId] but the name is one of
    [Object.prototype], [promise] is the inherited member, the test
    [if (!promise)] fails and the call [promise.resolve(...)] throws. *)
Definition handle_message (rawResponse : list Message) (m : Message) (w : World)
  : World * option JsError :=
  let after_body :=
    match nonempty (Body m) with
    | Some text =>
        match JSON_parse text with
        | None => (w, Some syntaxError)
        | Some returned =>
            let promise := callResultPromises (state w) !! CallId returned in
            let w1 :=
              with_table (delete (CallId returned) (callResultPromises (state w))) w in
            match promise with
            | Some d => (resolve d (mkQueued returned rawResponse) w1, None)
            | None =>
                if inherited (CallId returned)
                then (w1, Some typeError)
                else (emit (LogPromiseNotFound (CallId returned)) w1, None)
            end
        end
    | None => (w, None)
    end in
  match after_body with
  | (w1, Some err) => (w1, Some err)
  | (w1, None) => (emit (SqsDeleteMessage (ReceiptHandle m)) w1, None)
  end.

Fixpoint for_messages (rawResponse : list Message) (ms : list Message) (w : World)
  : World * option JsError :=
  match ms with
  | [] => (w, None)
  | m :: ms' =>
      match handle_message rawResponse m w with
      | (w1, Some err) => (w1, Some err)
      | (w1, None) => for_messages rawResponse ms' w1
      end
  end.

Definition set_collector (k : nat) (pc : CollectorPc) (w : World) : World :=
  with_collectors (<[k := pc]> (collectors w)) w.

(** Collector [k] resumes from [await sqs.receiveMessage(...).promise()]. *)
Definition receive_done (k : nat) (r : JsError + list Message) (w : World)
  : option World :=
  match collectors w !! k with
  | Some Polling =>
      match r with
      | inl err => Some (set_collector k (Crashed err) w)
      | inr Messages =>
          match for_messages Messages Messages w with
          | (w1, Some err) => Some (set_collector k (Crashed err) w1)
          | (w1, None) => Some (set_collector k Deleting w1)
          end
      end
  | _ => None
  end.

(** Collector [k] resumes from [await Promise.all(deletePromises)]; the
    delete promises come from [carefully] and never reject. *)
Definition deletes_done (k : nat) (w : World) : option World :=
  match collectors w !! k with
  | Some Deleting =>
      let '(w1, pc) := loop_head w in Some (set_collector k pc w1)
  | _ => None
  end.

(** The callback [resultCollector] leaves with [setTimeout(..., 0)]. *)
Definition timer_fires (w : World) : option World :=
  match timers w with
  | O => None
  | S n => Some (startResultCollectorIfNeeded (with_timers n w))
  end.

(** *** [enqueueCallRequest] and [cloudifyWithResponse] *)

Definition enqueueCallRequest (id : string) (w : World) : World * nat :=
  let d := length (deferreds w) in
  let w1 := with_deferreds (deferreds w ++ [Pending]) w in
  let w2 := with_table (<[id := d]> (callResultPromises (state w1))) w1 in
  (startResultCollectorIfNeeded w2, d).

(** [new Error(errValue.message)] with [name] and [stack] copied over;
    [None] when [errValue] is [null] or [undefined], where reading
    [errValue.message] throws. *)
Definition error_of_value (errValue : Value) : option JsError :=
  match errValue with
  | VNull => None
  | VData _ => Some (mkError None "" None)
  | VErrorObj name message stack => Some (mkError (Some name) message (Some stack))
  end.

(** The last statements of [responsifedFunc], from
    [if (returned && returned.type === "error")]: the [Response] returned,
    or the exception thrown. *)
Definition respond (ret : option FunctionReturn) (error : option JsError)
           (raw : RawResponse) : JsError + Response :=
  let error1 : JsError + option JsError :=
    match ret with
    | Some r =>
        if String.eqb (type r) "error" then
          match error_of_value (value r) with
          | Some err => inr (Some err)
          | None => inl typeError
          end
        else inr error
    | None => inr error
    end in
  match error1 with
  | inl thrown => inl thrown
  | inr error2 =>
      let value1 :=
        match error2, ret with
        | None, Some r => Some (value r)
        | _, _ => None
        end in
      inr (mkResponse value1 error2 raw)
  end.

(** How [responsifedFunc] ends. *)
Definition completion (r : JsError + Response) : CallerPc :=
  match r with
  | inl err => CallThrew err
  | inr rv => CallReturned rv
  end.

(** A call of the function [cloudifyWithResponse] returns, up to its first
    [await]; [uuid] is what [uuidv4()] returns. *)
Definition responsifedFunc (uuid : string) (w : World) : World :=
  let w0 := with_uuids (uuids w ++ [uuid]) w in
  if useQueue (state w0) then
    let '(w1, d) := enqueueCallRequest uuid w0 in
    with_callers (callers w1 ++ [mkCaller uuid (AwaitQueueResponse d)]) w1
  else
    with_callers (callers w0 ++ [mkCaller uuid AwaitInvoke])
                 (emit (LambdaInvoke uuid) w0).

Definition set_caller (i : nat) (id : string) (pc : CallerPc) (w : World) : World :=
  with_callers (<[i := mkCaller id pc]> (callers w)) w.

(** Caller [i] resumes from [await enqueueCallRequest(state, CallId).promise]:
    possible once that promise is settled.  The next statement issues
    [sns.publish]. *)
Definition queue_response_settled (i : nat) (w : World) : option World :=
  match callers w !! i with
  | Some (mkCaller id (AwaitQueueResponse d)) =>
      match deferreds w !! d with
      | Some (Resolved queueResponse) =>
          Some (set_caller i id (AwaitPublish queueResponse) (emit (SnsPublish id) w))
      | Some (Rejected err) => Some (set_caller i id (CallThrew err) w)
      | _ => None
      end
  | _ => None
  end.

(** Caller [i] resumes from [await sns.publish(...).promise()]. *)
Definition publish_done (i : nat) (failure : option JsError) (w : World)
  : option World :=
  match callers w !! i with
  | Some (mkCaller id (AwaitPublish queueResponse)) =>
      match failure with
      | Some err => Some (set_caller i id (CallThrew err) w)
      | None =>
          Some (set_caller i id
                  (completion (respond (Some (returned queueResponse)) None
                                       (RawQueue (rawResponse queueResponse))))
                  w)
      end
  | _ => None
  end.

(** Caller [i] resumes from [await lambda.invoke(request).promise()]. *)
Definition invoke_done (i : nat) (r : JsError + InvocationResponse) (w : World)
  : option World :=
  match callers w !! i with
  | Some (mkCaller id AwaitInvoke) =>
      match r with
      | inl err => Some (set_caller i id (CallThrew err) w)
      | inr raw =>
          let pc :=
            match nonempty (FunctionError raw) with
            | Some _ =>
                completion (respond None (Some (new_Error (Payload raw))) (RawInvoke raw))
            | None =>
                match nonempty (Payload raw) with
                | Some text =>
                    match JSON_parse text with
                    | Some ret => completion (respond (Some ret) None (RawInvoke raw))
                    | None => CallThrew syntaxError
                    end
                | None => completion (respond None None (RawInvoke raw))
                end
            end in
          Some (set_caller i id pc w)
      end
  | _ => None
  end.

End Operations.

(** *** [cancelWithoutCleanup] and [cleanup] *)

(** [for (const key of Object.keys(callResultPromises))
       callResultPromises[key].reject(new Error(...))]. *)
Definition reject_all (ds : list nat) (w : World) : World :=
  foldl (fun w1 d => reject d cancelled w1) w ds.

(** The deferreds of a table in the order in which that loop meets them. *)
Definition in_key_order (obj : gmap string nat) : list nat :=
  (Object_entries obj).*2.

(** A call of [cancelWithoutCleanup(state)], up to its [await] or to its
    return when there is no collector promise; the second component names
    the run (its promise). *)
Definition cancelWithoutCleanup (w : World) : World * nat :=
  let j := length (cancels w) in
  let snapshot := callResultPromises (state w) in
  let w1 := with_table ∅ w in
  let w2 := reject_all (in_key_order snapshot) w1 in
  let pc :=
    match resultCollectorPromise (state w2) with
    | Some k => AwaitCollector k
    | None => CancelReturned
    end in
  (with_cancels (cancels w2 ++ [pc]) w2, j).

(** Run [j] of [cancelWithoutCleanup] resumes from
    [await state.resultCollectorPromise]: possible once that collector run
    has returned or thrown. *)
Definition collector_awaited (j : nat) (w : World) : option World :=
  match cancels w !! j with
  | Some (AwaitCollector k) =>
      match collectors w !! k with
      | Some Exited => Some (with_cancels (<[j := CancelReturned]> (cancels w)) w)
      | Some (Crashed err) =>
          Some (with_cancels (<[j := CancelThrew err]> (cancels w)) w)
      | _ => None
      end
  | _ => None
  end.

(** [cleanup], one definition per stage; each runs to the next [await] and
    says where the function is suspended.  [quietly] and [carefully] swallow
    rejections, so only [await cancelPromise] can throw. *)
Definition cleanup_queues (w : World) : World * CleanupPc :=
  let w1 := if truthy (RequestTopicArn (resources (state w)))
            then emit SnsDeleteTopic w else w in
  let w2 := if truthy (ResponseQueueUrl (resources (state w)))
            then emit SqsDeleteQueue w1 else w1 in
  (w2, DeletingQueues).

(** [if (RoleName && rolePolicy === "createTemporaryRole")
       await deleteRole(RoleName, iam)]: [deleteRole] runs to its first
    [await]. *)
Definition cleanup_role (c : nat) (w : World) : World * CleanupPc :=
  match nonempty (RoleName (resources (state w))), rolePolicy (resources (state w)) with
  | Some _, Some createTemporaryRole =>
      (emit IamListAttachedRolePolicies w, ListingAttachedPolicies c)
  | _, _ => (w, AwaitCancel c)
  end.

Definition cleanup_logGroup (c : nat) (w : World) : World * CleanupPc :=
  if truthy (logGroupName (resources (state w)))
  then (emit CloudwatchDeleteLogGroup w, DeletingLogGroup c)
  else cleanup_role c w.

Definition cleanup_function (c : nat) (w : World) : World * CleanupPc :=
  if truthy (FunctionName (resources (state w)))
  then (emit LambdaDeleteFunction w, DeletingFunction c)
  else cleanup_logGroup c w.

(** [const cancelPromise = cancelWithoutCleanup(state)] and on. *)
Definition cleanup_cancel (w : World) : World * CleanupPc :=
  let '(w1, c) := cancelWithoutCleanup w in cleanup_function c w1.

Definition cleanup (w : World) : World :=
  let '(w1, pc) :=
    if truthy (SNSLambdaSubscriptionArn (resources (state w)))
    then (emit SnsUnsubscribe w, Unsubscribing)
    else cleanup_cancel w in
  with_cleanups (cleanups w1 ++ [pc]) w1.

(** Several calls made in a row. *)
Definition emit_all (es : list Effect) (w : World) : World :=
  foldl (fun w1 e => emit e w1) w es.

(** Run [j] of [cleanup] resumes from one of the first three [await]s of
    [deleteRole].  [names] is what the list call that was awaited answered:
    the ARNs of the attached policies, or the names of the inline policies
    (none when the call failed, since [carefully] then gives [undefined]);
    it is not looked at after the [await] of the detach calls.  The detach
    calls are all made before their [await]; the calls of
    [iam.deleteRolePolicy] are made and not awaited, and [iam.deleteRole]
    is called right after them. *)
Definition deleteRole_resumes (j : nat) (names : list string) (w : World)
  : option World :=
  let continue (r : World * CleanupPc) :=
    Some (with_cleanups (<[j := r.2]> (cleanups r.1)) r.1) in
  match cleanups w !! j with
  | Some (ListingAttachedPolicies c) =>
      continue (emit_all (IamDetachRolePolicy <$> names) w, DetachingPolicies c)
  | Some (DetachingPolicies c) =>
      continue (emit IamListRolePolicies w, ListingRolePolicies c)
  | Some (ListingRolePolicies c) =>
      continue (emit IamDeleteRole (emit_all (IamDeleteRolePolicy <$> names) w),
                DeletingRole c)
  | _ => None
  end.

(** Run [j] of [cleanup] resumes from the [await] it is suspended at, when
    that is not one of the first three of [deleteRole]. *)
Definition cleanup_resumes (j : nat) (w : World) : option World :=
  let continue (r : World * CleanupPc) :=
    Some (with_cleanups (<[j := r.2]> (cleanups r.1)) r.1) in
  match cleanups w !! j with
  | Some Unsubscribing => continue (cleanup_cancel w)
  | Some (DeletingFunction c) => continue (cleanup_logGroup c w)
  | Some (DeletingLogGroup c) => continue (cleanup_role c w)
  | Some (DeletingRole c) => continue (w, AwaitCancel c)
  | Some (AwaitCancel c) =>
      match cancels w !! c with
      | Some CancelReturned => continue (cleanup_queues w)
      | Some (CancelThrew err) => continue (w, CleanupThrew err)
      | _ => None
      end
  | Some DeletingQueues => continue (w, CleanupReturned)
  | _ => None
  end.

(** *** The event loop *)

(** One turn of the event loop: a call from client code, or the
    continuation of one [await], with what the outside world answered. *)
Inductive Action : Type :=
| Call (uuid : string)
| QueueResponseSettled (i : nat)
| PublishDone (i : nat) (failure : option JsError)
| InvokeDone (i : nat) (r : JsError + InvocationResponse)
| ReceiveDone (k : nat) (r : JsError + list Message)
| DeletesDone (k : nat)
| TimerFires
| CallCancel
| CollectorAwaited (j : nat)
| CallCleanup
| CleanupResumes (j : nat)
| DeleteRoleResumes (j : nat) (names : list string).

Section EventLoop.
Context {json : Json}.

(** [uuidv4()] is taken to return a value it has not returned before. *)
Definition step (a : Action) (w : World) : option World :=
  match a with
  | Call uuid =>
      if bool_decide (uuid ∈ uuids w) then None else Some (responsifedFunc uuid w)
  | QueueResponseSettled i => queue_response_settled i w
  | PublishDone i failure => publish_done i failure w
  | InvokeDone i r => invoke_done i r w
  | ReceiveDone k r => receive_done k r w
  | DeletesDone k => deletes_done k w
  | TimerFires => timer_fires w
  | CallCancel => Some (cancelWithoutCleanup w).1
  | CollectorAwaited j => collector_awaited j w
  | CallCleanup => Some (cleanup w)
  | CleanupResumes j => cleanup_resumes j w
  | DeleteRoleResumes j names => deleteRole_resumes j names w
  end.

Fixpoint run (tr : list Action) (w : World) : option World :=
  match tr with
  | [] => Some w
  | a :: tr' =>
      match step a w with
      | Some w1 => run tr' w1
      | None => None
      end
  end.

End EventLoop.

(** The [State] that [initialize] returns: an empty table, no collector
    promise (its call of [startResultCollectorIfNeeded] finds the table
    empty). *)
Definition initial (res : AWSResources) (queue : bool) : World :=
  mkWorld (mkState res queue ∅ None) [] [] [] [] [] 0 [] [].

Definition reachable {json : Json} (res : AWSResources) (queue : bool) (w : World) : Prop :=
  ∃ tr, run tr (initial res queue) = Some w.

(** A collector run that has not finished. *)
Definition running (pc : CollectorPc) : bool :=
  match pc with
  | Polling | Deleting => true
  | Exited | Crashed _ => false
  end.

(** *** What is observed of a run, and the invariant of the engine *)

Definition settled (p : PromiseState) : bool :=
  match p with
  | Pending => false
  | Resolved _ | Rejected _ => true
  end.

(** The deferreds on which [resolve] or [reject] was called, in order. *)
Definition settlements (es : list Effect) : list nat :=
  omap (fun e => match e with
                 | DeferredResolve d | DeferredReject d => Some d
                 | _ => None
                 end) es.

(** The calls whose request was published, in order. *)
Definition publishes (es : list Effect) : list string :=
  omap (fun e => match e with SnsPublish id => Some id | _ => None end) es.

(** The messages acknowledged with [sqs.deleteMessage], in order. *)
Definition acknowledged (es : list Effect) : list string :=
  omap (fun e => match e with SqsDeleteMessage h => Some h | _ => None end) es.

(** The table, the deferreds and the callers agree. *)
Record TableInv (w : World) : Prop := mkTableInv {
  inv_pending : ∀ id d,
    callResultPromises (state w) !! id = Some d → deferreds w !! d = Some Pending;
  inv_inj : ∀ id1 id2 d,
    callResultPromises (state w) !! id1 = Some d →
    callResultPromises (state w) !! id2 = Some d → id1 = id2;
  inv_uuid : ∀ id d,
    callResultPromises (state w) !! id = Some d → id ∈ uuids w;
  inv_caller : ∀ i c, callers w !! i = Some c →
    caller_CallId c ∈ uuids w ∧
    match caller_pc c with
    | AwaitQueueResponse d =>
        callResultPromises (state w) !! caller_CallId c = Some d
        ∨ (callResultPromises (state w) !! caller_CallId c = None
           ∧ ∃ p, deferreds w !! d = Some p ∧ settled p = true)
    | AwaitPublish _ => callResultPromises (state w) !! caller_CallId c = None
    | _ => True
    end;
  inv_settle_once : NoDup (settlements (effects w));
  inv_settled : ∀ d, d ∈ settlements (effects w) →
    ∃ p, deferreds w !! d = Some p ∧ settled p = true;
  inv_published : ∀ id, id ∈ publishes (effects w) →
    callResultPromises (state w) !! id = None ∧ id ∈ uuids w;
  inv_rejected : ∀ d err, deferreds w !! d = Some (Rejected err) → err = cancelled
}.

(** A collector run that has not returned (it is running, or it threw) is
    the one [state.resultCollectorPromise] belongs to. *)
Definition LoopInv (w : World) : Prop :=
  ∀ k pc, collectors w !! k = Some pc → pc ≠ Exited →
          resultCollectorPromise (state w) = Some k.

Definition Inv (w : World) : Prop := TableInv w ∧ LoopInv w.

(** On the queue path every call makes one deferred, and the deferred of a
    table entry has the number of its call among the calls made: the order
    of the deferreds in the table is the order in which their keys were
    added. *)
Definition CallOrder (w : World) : Prop :=
  (useQueue (state w) = true → length (deferreds w) = length (uuids w))
  ∧ ∀ id d, callResultPromises (state w) !! id = Some d → uuids w !! d = Some id.

(** Two worlds that differ at most in the effects recorded. *)
Definition same_but_effects (w w' : World) : Prop :=
  state w' = state w ∧ deferreds w' = deferreds w ∧ callers w' = callers w
  ∧ collectors w' = collectors w ∧ cancels w' = cancels w
  ∧ cleanups w' = cleanups w ∧ timers w' = timers w ∧ uuids w' = uuids w.

(** Every collector run among the first [n] has returned. *)
Definition Drained (n : nat) (w : World) : Prop :=
  ∀ k, k < n → collectors w !! k = Some Exited.

(** Where run [c] of [cancelWithoutCleanup] stands with respect to the first
    [n] collector runs: while it waits for run [k], every other one has
    returned; once it has returned, all have. *)
Definition CancelOk (n c : nat) (w : World) : Prop :=
  match cancels w !! c with
  | Some (AwaitCollector k) =>
      ∀ k', k' < n → k' ≠ k → collectors w !! k' = Some Exited
  | Some CancelReturned => Drained n w
  | Some (CancelThrew _) => True
  | None => False
  end.

(** The same for run [j] of [cleanup]. *)
Definition CleanupOk (n j : nat) (w : World) : Prop :=
  match cleanups w !! j with
  | Some Unsubscribing => True
  | Some (DeletingFunction c) | Some (DeletingLogGroup c)
  | Some (ListingAttachedPolicies c) | Some (DetachingPolicies c)
  | Some (ListingRolePolicies c)
  | Some (DeletingRole c) | Some (AwaitCancel c) => CancelOk n c w
  | Some DeletingQueues | Some CleanupReturned => Drained n w
  | Some (CleanupThrew _) => True
  | None => False
  end.

End Engine.

(** *** Concrete runs *)

Module EngineExamples.
Import Engine.

(** Response bodies, written without the quotation marks of JSON. *)
Definition body_abc : string := "{CallId:abc,type:returned,value:3}".
Definition body_zzz : string := "{CallId:zzz,type:returned,value:1}".
Definition body_toString : string := "{CallId:toString,type:returned,value:1}".
Definition body_failed : string := "{CallId:abc,type:error,value:null}".

Definition return_abc : FunctionReturn := mkReturn "returned" (VData "3") "abc".
Definition return_zzz : FunctionReturn := mkReturn "returned" (VData "1") "zzz".
Definition return_toString : FunctionReturn :=
  mkReturn "returned" (VData "1") "toString".
Definition return_failed : FunctionReturn := mkReturn "error" VNull "abc".

(** A parser that knows the bodies above and throws on anything else. *)
Definition example_json : Json := fun text =>
  if String.eqb text body_abc then Some return_abc
  else if String.eqb text body_zzz then Some return_zzz
  else if String.eqb text body_toString then Some return_toString
  else if String.eqb text body_failed then Some return_failed
  else None.

Definition example_resources : AWSResources :=
  mkResources (Some "cloudify-1") (Some "cloudify-cached-role")
              (Some "arn:aws:sns:cloudify-1-Requests")
              (Some "https://sqs/cloudify-1-Responses")
              (Some createOrReuseCachedRole)
              (Some "/aws/lambda/cloudify-1")
              (Some "arn:aws:sns:subscription").

(** A response for call [abc], the same response delivered again, and a
    response for a call nobody made. *)
Definition m_abc : Message := mkMessage (Some body_abc) "receipt-1".
Definition m_zzz : Message := mkMessage (Some body_zzz) "receipt-3".

(** A response whose [CallId] is the name of a member of
    [Object.prototype], and a response for call [abc] that reports an error
    without a value. *)
Definition m_toString : Message := mkMessage (Some body_toString) "receipt-5".

(** A queue-mode engine right after [initialize]. *)
Definition start : World := initial example_resources true.

(** The engine after one call of the cloud function, with [uuidv4()]
    returning [abc]. *)
Definition after_call : World :=
  default start (run (json := example_json) [Call "abc"] start).

(** ... and after the collector has received a batch with the response and
    finished handling it. *)
Definition after_response : World :=
  default start
    (run (json := example_json) [Call "abc"; ReceiveDone 0 (inr [m_abc])] start).

(** ... and after the caller has resumed and issued [sns.publish]. *)
Definition after_publish : World :=
  default start
    (run (json := example_json)
       [Call "abc"; ReceiveDone 0 (inr [m_abc]); QueueResponseSettled 0] start).

(** After a drain with call [abc] pending: the long poll of the collector
    comes back empty, the collector finds the table empty and returns, and
    the drain resumes. *)
Definition drain_trace : list Action :=
  [ReceiveDone 0 (inr []); DeletesDone 0; CollectorAwaited 0].

Definition after_drain : World :=
  default start
    (run (json := example_json) drain_trace (cancelWithoutCleanup after_call).1).

(** The same through [cleanup]: unsubscribe, (the drain starts), delete the
    function, delete the log group, then the collector returns, the drain
    returns, and the topic and the queue are deleted. *)
Definition cleanup_trace : list Action :=
  [CleanupResumes 0; CleanupResumes 0; CleanupResumes 0;
   ReceiveDone 0 (inr []); DeletesDone 0; CollectorAwaited 0;
   CleanupResumes 0; CleanupResumes 0].

Definition after_cleanup : World :=
  default start (run (json := example_json) cleanup_trace (cleanup after_call)).

(** A rejection of [sns.publish]. *)
Definition publish_error : JsError :=
  mkError (Some "InvalidParameter") "Invalid parameter: TopicArn" None.

End EngineExamples.

(** *** Further observations of the queue engine *)

Module EngineViews.
Import Engine.


(** What [resultCollector] itself does. *)
Definition collector_traffic (e : Effect) : bool :=
  match e with
  | SqsReceiveMessage | SqsDeleteMessage _
  | DeferredResolve _ | LogPromiseNotFound _ | SetTimeout => true
  | _ => false
  end.

Definition collector_effects (es : list Effect) : list Effect :=
  omap (fun e => if collector_traffic e then Some e else None) es.



(** [state.resultCollectorPromise], when set, is the promise of a collector
    run that has not returned. *)
Definition PromiseInv (w : World) : Prop :=
  ∀ k, resultCollectorPromise (state w) = Some k →
       ∃ pc, collectors w !! k = Some pc ∧ pc ≠ Exited.

(** Every call whose promise is pending has its entry in the table. *)
Definition Registered (w : World) : Prop :=
  ∀ d, deferreds w !! d = Some Pending →
       ∃ id, callResultPromises (state w) !! id = Some d.

(** While the table is not empty, the collector promise is set. *)
Definition Awake (w : World) : Prop :=
  callResultPromises (state w) ≠ ∅ → is_Some (resultCollectorPromise (state w)).

(** A stage of [cleanup] between the start of its drain [c] and
    [await cancelPromise]. *)
Definition before_await (c : nat) (pc : CleanupPc) : Prop :=
  pc = DeletingFunction c ∨ pc = DeletingLogGroup c
  ∨ pc = ListingAttachedPolicies c ∨ pc = DetachingPolicies c
  ∨ pc = ListingRolePolicies c
  ∨ pc = DeletingRole c ∨ pc = AwaitCancel c.

(** Run [j] of [cleanup] can get to [await cancelPromise] in at most [n]
    turns that leave the engine, the collector runs and the drains as they
    are. *)
Definition reaches_await {json : Json} (n j c : nat) (w : World) : Prop :=
  ∃ tr w1, length tr ≤ n ∧ run tr w = Some w1
    ∧ state w1 = state w ∧ collectors w1 = collectors w ∧ cancels w1 = cancels w
    ∧ cleanups w1 !! j = Some (AwaitCancel c).

(** Run [j] of [cleanup] cannot get past [await cancelPromise] without
    throwing: it has not reached it yet, or its drain waits for collector run
    [k], or its drain threw with the error collector run [k] threw. *)
Definition CleanupBlocked (k j : nat) (w : World) : Prop :=
  match cleanups w !! j with
  | Some Unsubscribing => True
  | Some (DeletingFunction c) | Some (DeletingLogGroup c)
  | Some (ListingAttachedPolicies c) | Some (DetachingPolicies c)
  | Some (ListingRolePolicies c)
  | Some (DeletingRole c) | Some (AwaitCancel c) =>
      cancels w !! c = Some (AwaitCollector k)
      ∨ ∃ e, cancels w !! c = Some (CancelThrew e)
             ∧ collectors w !! k = Some (Crashed e)
  | Some (CleanupThrew e) => collectors w !! k = Some (Crashed e)
  | _ => False
  end.

(** A message the collector can handle whatever the table holds: no body,
    an empty body, or a body that parses and whose [CallId] is not the name
    of a member of [Object.prototype]. *)
Definition well_formed {json : Json} (m : Message) : bool :=
  match nonempty (Body m) with
  | Some text =>
      match JSON_parse text with
      | Some ret => negb (inherited (CallId ret))
      | None => false
      end
  | None => true
  end.

(** A message at which the collector throws when the table is [t], and what
    it throws: a body that does not parse (the parser's error), or a
    [CallId] that names a member of [Object.prototype] and has no entry of
    its own in the table (a [TypeError]). *)
Definition throws {json : Json} (t : gmap string nat) (m : Message)
  : option JsError :=
  match nonempty (Body m) with
  | Some text =>
      match JSON_parse text with
      | Some ret =>
          if inherited (CallId ret) && bool_decide (t !! CallId ret = None)
          then Some typeError else None
      | None => Some syntaxError
      end
  | None => None
  end.

(** The [FunctionReturn] a message carries, if any. *)
Definition parsed {json : Json} (m : Message) : option FunctionReturn :=
  match nonempty (Body m) with
  | Some text => JSON_parse text
  | None => None
  end.

End EngineViews.

(** *** More concrete runs *)

Module EngineViewExamples.
Import Engine EngineExamples.




(** A message whose body is not JSON. *)
Definition m_bad : Message := mkMessage (Some "<html>") "receipt-4".

(** The collector receives the malformed message ahead of the response for
    call [abc]. *)
Definition after_crash : World :=
  default start
    (run (json := example_json)
       [Call "abc"; ReceiveDone 0 (inr [m_bad; m_abc])] start).

(** ... and then a second call of the cloud function is made. *)
Definition after_crash_call : World :=
  default start
    (run (json := example_json)
       [Call "abc"; ReceiveDone 0 (inr [m_bad; m_abc]); Call "def"] start).

(** A [cleanup] started after the collector has thrown, followed to its
    end: unsubscribe, delete the function, delete the log group, the drain
    resumes and throws, [cleanup] throws. *)
Definition cleanup_after_crash_trace : list Action :=
  [CleanupResumes 0; CleanupResumes 0; CleanupResumes 0;
   CollectorAwaited 0; CleanupResumes 0].

Definition cleanup_after_crash : World :=
  default start
    (run (json := example_json) cleanup_after_crash_trace (cleanup after_crash)).

(** An engine that made its own role, after one call of the cloud
    function. *)
Definition temporary_resources : AWSResources :=
  mkResources (Some "cloudify-2") (Some "cloudify-2-role")
              (Some "arn:aws:sns:cloudify-2-Requests")
              (Some "https://sqs/cloudify-2-Responses")
              (Some createTemporaryRole)
              (Some "/aws/lambda/cloudify-2")
              (Some "arn:aws:sns:subscription-2").

Definition temporary_after_call : World :=
  default start
    (run (json := example_json) [Call "abc"] (initial temporary_resources true)).

(** Its [cleanup], followed to the end: unsubscribe, delete the function,
    delete the log group, the four [await]s of [deleteRole] (one attached
    policy and one inline policy are listed), then the collector returns,
    the drain returns, and the topic and the queue are deleted. *)
Definition cleanup_temporary_trace : list Action :=
  [CleanupResumes 0; CleanupResumes 0; CleanupResumes 0;
   DeleteRoleResumes 0 ["arn:aws:iam::aws:policy/AdministratorAccess"];
   DeleteRoleResumes 0 [];
   DeleteRoleResumes 0 ["inline-policy"];
   CleanupResumes 0;
   ReceiveDone 0 (inr []); DeletesDone 0; CollectorAwaited 0;
   CleanupResumes 0; CleanupResumes 0].

Definition cleanup_temporary : World :=
  default start
    (run (json := example_json) cleanup_temporary_trace (cleanup temporary_after_call)).

End EngineViewExamples.

(* ===================================================================== *)
(** ** [collectGarbage] and [stop] (later revision) *)
(* ===================================================================== *)

Module Later.

(** Rejection reasons of the cloud calls; their content is not inspected. *)
Definition AWSError : Type := string.

(** *** [collectGarbage] *)

(** [collectGarbage], by the [await] it is suspended at. *)
Inductive GcPc : Type :=
| DescribingLogGroups   (* await new Promise(... describeLogGroups().eachPage ...) *)
| ListingFunctions      (* await new Promise(... listFunctions().eachPage ...) *)
| AwaitingWork          (* await Promise.all(promises) *)
| GcSkipped             (* returned at [if (garbageCollectorRunning) return] *)
| GcReturned
| GcThrew (err : AWSError).

(** The module-level flag and the runs of [collectGarbage] so far. *)
Record GcWorld : Type := mkGc {
  garbageCollectorRunning : bool;
  runs : list GcPc
}.

(** A run that is inside the [try] block. *)
Definition collecting (pc : GcPc) : bool :=
  match pc with
  | DescribingLogGroups | ListingFunctions | AwaitingWork => true
  | GcSkipped | GcReturned | GcThrew _ => false
  end.

(** A call of [collectGarbage(...)], up to its first [await] or its return
    at the guard. *)
Definition collectGarbage (w : GcWorld) : GcWorld :=
  if garbageCollectorRunning w then
    mkGc (garbageCollectorRunning w) (runs w ++ [GcSkipped])
  else
    mkGc true (runs w ++ [DescribingLogGroups]).

(** Leaving the [try] block: [finally { garbageCollectorRunning = false }]. *)
Definition finally (j : nat) (pc : GcPc) (w : GcWorld) : GcWorld :=
  mkGc false (<[j := pc]> (runs w)).

(** Run [j] resumes from its [await]; [failure] is the rejection of the
    awaited promise, if it rejected. *)
Definition gc_resumes (j : nat) (failure : option AWSError) (w : GcWorld)
  : option GcWorld :=
  match runs w !! j, failure with
  | Some DescribingLogGroups, None =>
      Some (mkGc (garbageCollectorRunning w) (<[j := ListingFunctions]> (runs w)))
  | Some ListingFunctions, None =>
      Some (mkGc (garbageCollectorRunning w) (<[j := AwaitingWork]> (runs w)))
  | Some AwaitingWork, None => Some (finally j GcReturned w)
  | Some DescribingLogGroups, Some err
  | Some ListingFunctions, Some err
  | Some AwaitingWork, Some err => Some (finally j (GcThrew err) w)
  | _, _ => None
  end.

Inductive GcAction : Type :=
| GcCall
| GcResumes (j : nat) (failure : option AWSError).

Definition gc_step (a : GcAction) (w : GcWorld) : option GcWorld :=
  match a with
  | GcCall => Some (collectGarbage w)
  | GcResumes j failure => gc_resumes j failure w
  end.

Fixpoint gc_run (tr : list GcAction) (w : GcWorld) : option GcWorld :=
  match tr with
  | [] => Some w
  | a :: tr' =>
      match gc_step a w with
      | Some w1 => gc_run tr' w1
      | None => None
      end
  end.

(** [let garbageCollectorRunning = false]. *)
Definition gc_initial : GcWorld := mkGc false [].

(** The garbage collector's flag is set exactly while one run is inside the
    [try] block, and there is never a second one. *)
Record GcInv (w : GcWorld) : Prop := mkGcInv {
  gc_unique : ∀ j1 j2 pc1 pc2,
    runs w !! j1 = Some pc1 → runs w !! j2 = Some pc2 →
    collecting pc1 = true → collecting pc2 = true → j1 = j2;
  gc_idle : garbageCollectorRunning w = false →
    ∀ j pc, runs w !! j = Some pc → collecting pc = false;
  gc_busy : garbageCollectorRunning w = true →
    ∃ j pc, runs w !! j = Some pc ∧ collecting pc = true
}.

(** Two calls of [collectGarbage] in a row, then the first one's listing of
    the log groups ends. *)
Definition gc_example : GcWorld :=
  default gc_initial (gc_run [GcCall; GcCall; GcResumes 0 None] gc_initial).

(** *** [stop] *)

(** What [stop] does that leaves the module. [cloudqueue.stop] belongs to
    [../queue], which is not among the sources: the call is recorded, what it
    does is not described here. *)
Inductive StopEffect : Type :=
| CloudqueueStop
| PutRetentionPolicy (FunctionName : string)   (* on getLogGroupName(FunctionName) *)
| AwaitGcPromise.

Inductive StopResult : Type :=
| StopReturned
| StopThrew (err : AWSError).

(** The fields of the later [State] that [stop] reads; [queueState] and
    [gcPromise] only by their presence. *)
Record StopState : Type := mkStopState {
  queueState : bool;
  gcPromise : bool;
  stop_FunctionName : string
}.

(** [stop(state)]; [queue_failure] and [gc_failure] say how the two awaited
    promises settle when they are awaited.  [addLogRetentionPolicy] starts
    its request and does not wait for it. *)
Definition stop (st : StopState) (queue_failure gc_failure : option AWSError)
  : list StopEffect * StopResult :=
  let after_queue (tr : list StopEffect) :=
    let tr1 := tr ++ [PutRetentionPolicy (stop_FunctionName st)] in
    if gcPromise st then
      match gc_failure with
      | Some err => (tr1 ++ [AwaitGcPromise], StopThrew err)
      | None => (tr1 ++ [AwaitGcPromise], StopReturned)
      end
    else (tr1, StopReturned) in
  if queueState st then
    match queue_failure with
    | Some err => ([CloudqueueStop], StopThrew err)
    | None => after_queue [CloudqueueStop]
    end
  else after_queue [].

End Later.

(* ===================================================================== *)
(** ** [deleteResources], [cleanup] and the garbage collector's workers
       (later revision) *)
(* ===================================================================== *)

Module LaterResources.
Import Later.

(** [AWSResources] of the later revision. *)
Record AWSResources : Type := mkAWSResources {
  FunctionName : string;
  RoleName : string;
  region : string;
  ResponseQueueUrl : option string;
  ResponseQueueArn : option string;
  RequestTopicArn : option string;
  SNSLambdaSubscriptionArn : option string;
  s3Bucket : option string;
  s3Key : option string;
  logGroupName : string
}.

(** *** Names of the resources of a function *)

Definition getBucketName (region accountId : string) : string :=
  "faast-cache-" +:+ accountId +:+ "-" +:+ region.

Definition getS3Key (FunctionName : string) : string := FunctionName.

Definition getSNSTopicName (FunctionName : string) : string :=
  FunctionName +:+ "-Requests".

Definition getSNSTopicArn (region accountId FunctionName : string) : string :=
  "arn:aws:sns:" +:+ region +:+ ":" +:+ accountId +:+ ":"
  +:+ getSNSTopicName FunctionName.

Definition getSQSName (FunctionName : string) : string :=
  FunctionName +:+ "-Responses".

Definition getResponseQueueUrl (region accountId FunctionName : string) : string :=
  "https://sqs." +:+ region +:+ ".amazonaws.com/" +:+ accountId +:+ "/"
  +:+ getSQSName FunctionName.

(** *** [deleteResources] *)

(** The deletion requests. *)
Inductive Request : Type :=
| SnsUnsubscribe (SubscriptionArn : string)
| SnsDeleteTopic (TopicArn : string)
| SqsDeleteQueue (QueueUrl : string)
| S3DeleteObject (Bucket Key : string)
| LambdaDeleteFunction (FunctionName : string)
| CloudwatchDeleteLogGroup (logGroupName : string).

Inductive Event : Type :=
| Issued (r : Request)
| Output (msg : string).     (* output(msg) *)

Section WithOutcomes.
(** [ok r]: request [r] is fulfilled.  [quietly] then hands on the response,
    an object, which is truthy; a rejection becomes [undefined]. *)
Variable ok : Request -> bool.

(** [if (await quietly(request)) { output(msg) }]. *)
Definition attempt (r : Request) (msg : string) (tr : list Event) : list Event :=
  if ok r then tr ++ [Issued r; Output msg] else tr ++ [Issued r].

(** [deleteResources(resources, services, output)]: nothing is done about
    the role and about the log group. *)
Definition deleteResources (resources : AWSResources) : list Event :=
  let tr1 :=
    match Engine.nonempty (SNSLambdaSubscriptionArn resources) with
    | Some arn =>
        attempt (SnsUnsubscribe arn) "Deleted request queue subscription to lambda" []
    | None => []
    end in
  let tr2 :=
    match Engine.nonempty (RequestTopicArn resources) with
    | Some arn =>
        attempt (SnsDeleteTopic arn) ("Deleted request queue topic: " +:+ arn) tr1
    | None => tr1
    end in
  let tr3 :=
    match Engine.nonempty (ResponseQueueUrl resources) with
    | Some url => attempt (SqsDeleteQueue url) ("Deleted response queue: " +:+ url) tr2
    | None => tr2
    end in
  let tr4 :=
    match Engine.nonempty (s3Bucket resources), Engine.nonempty (s3Key resources) with
    | Some bucket, Some key =>
        attempt (S3DeleteObject bucket key)
                ("Deleted S3 Key: " +:+ key +:+ " in Bucket: " +:+ bucket) tr3
    | _, _ => tr3
    end in
  match Engine.nonempty (Some (FunctionName resources)) with
  | Some name =>
      attempt (LambdaDeleteFunction name) ("Deleted function: " +:+ name) tr4
  | None => tr4
  end.

(** *** [cleanup] *)

(** [cleanup(state)]: [await stop(state)], then [deleteResources]. *)
Definition cleanup (queueState gcPromise : bool) (resources : AWSResources)
           (queue_failure gc_failure : option AWSError)
  : list StopEffect * list Event * StopResult :=
  match stop (mkStopState queueState gcPromise (FunctionName resources))
             queue_failure gc_failure with
  | (tr, StopThrew err) => (tr, [], StopThrew err)
  | (tr, StopReturned) => (tr, deleteResources resources, StopReturned)
  end.

(** *** [deleteGarbageFunctions] *)

(** [getLogGroupName] of [./aws-shared]. *)
Variable getLogGroupName : string -> string.

(** The resources [deleteGarbageFunctions] makes up for a function name. *)
Definition garbage_resources (region accountId s3Bucket FunctionName : string)
  : AWSResources :=
  {| FunctionName := FunctionName;
     region := region;
     RoleName := "";
     RequestTopicArn := Some (getSNSTopicArn region accountId FunctionName);
     ResponseQueueUrl := Some (getResponseQueueUrl region accountId FunctionName);
     ResponseQueueArn := None;
     SNSLambdaSubscriptionArn := None;
     s3Bucket := Some s3Bucket;
     s3Key := Some (getS3Key FunctionName);
     logGroupName := getLogGroupName FunctionName |}.

(** The worker scheduled for one function. *)
Definition gc_worker (region accountId s3Bucket FunctionName : string) : list Event :=
  attempt (CloudwatchDeleteLogGroup (getLogGroupName FunctionName))
          ("Deleted log group " +:+ getLogGroupName FunctionName)
          (deleteResources (garbage_resources region accountId s3Bucket FunctionName)).

(** [deleteGarbageFunctions]: the workers handed to [scheduleWork], in
    order. *)
Definition deleteGarbageFunctions (region accountId s3Bucket : string)
           (garbageFunctions : list string) : list (list Event) :=
  gc_worker region accountId s3Bucket <$> garbageFunctions.

End WithOutcomes.

(** The requests of a trace, and its messages. *)
Definition issued (tr : list Event) : list Request :=
  omap (fun ev => match ev with Issued r => Some r | _ => None end) tr.


(** A [getLogGroupName] for the examples. *)
Definition example_getLogGroupName (FunctionName : string) : string :=
  "/aws/lambda/" +:+ FunctionName.

End LaterResources.

(* ===================================================================== *)
(** ** The Funnel *)
(* ===================================================================== *)

Module Funnel.

(** Modelled from the spec: the recognised options of a Funnel that bear on
    admission ([throttle] of [../throttle] is not among the sources):
    [concurrency] ([None]: no limit) and the token bucket ([None]: no rate
    limit; otherwise its capacity [burst]). *)
Record Config : Type := mkConfig {
  concurrency : option nat;
  burst : option nat
}.

(** Modelled from the spec: the Funnel itself ([throttle] of [../throttle])
    is not among the sources, only calls of it are.  [FunnelState] of the
    data model: the count of slots in use, the token bucket, and the FIFO of
    waiting operations (operations are named by the order they were
    submitted in).  The memo cache plays no part in admission and is left
    out. *)
Record FunnelState : Type := mkFunnel {
  concurrencyInUse : nat;
  rateTokens : nat;
  admissionQueue : list nat
}.

(** Modelled from the spec: one execution with its recorded start and end
    timestamps, as the mutual-exclusion property reads them. *)
Record Timing : Type := mkTiming {
  op : nat;
  start : nat;
  finish : nat
}.

(** Modelled from the spec: a Funnel together with what the calibration test
    observes: the operations that are executing, each with the time it
    started at, and the timings of the completed ones, in completion order.
    [clock] is logical time: reading it advances it, so no two recorded
    instants are equal. *)
Record World : Type := mkWorld {
  funnel : FunnelState;
  executing : list (nat * nat);
  completed : list Timing;
  submitted : nat;
  clock : nat
}.

Section WithConfig.
Variable cfg : Config.

(** Modelled from the spec: "a call must satisfy both [gates] before
    executing" -- a free slot and an available token. *)
Definition gates_open (f : FunnelState) : bool :=
  match concurrency cfg with
  | Some c => bool_decide (concurrencyInUse f < c)
  | None => true
  end
  && match burst cfg with
     | Some _ => bool_decide (0 < rateTokens f)
     | None => true
     end.

(** Modelled from the spec: "if all slots are in use, the call waits in FIFO
    admission order until one frees"; "a call consumes one token before
    executing".  Admits waiting operations from the head of the queue while
    the gates allow; an admitted operation starts executing and records its
    start time. *)
Fixpoint admission (fuel : nat) (w : World) : World :=
  match fuel, admissionQueue (funnel w) with
  | S fuel', o :: rest =>
      if gates_open (funnel w) then
        admission fuel'
          (mkWorld
             (mkFunnel (S (concurrencyInUse (funnel w)))
                       (match burst cfg with
                        | Some _ => pred (rateTokens (funnel w))
                        | None => rateTokens (funnel w)
                        end)
                       rest)
             (executing w ++ [(o, clock w)])
             (completed w) (submitted w) (S (clock w)))
      else w
  | _, _ => w
  end.

Definition serve_waiting (w : World) : World :=
  admission (length (admissionQueue (funnel w))) w.

(** Modelled from the spec: a submitted call joins the admission queue and
    is admitted at once when nothing is ahead of it and the gates allow. *)
Definition submit (w : World) : World :=
  serve_waiting
    (mkWorld
       (mkFunnel (concurrencyInUse (funnel w)) (rateTokens (funnel w))
                 (admissionQueue (funnel w) ++ [submitted w]))
       (executing w) (completed w) (S (submitted w)) (clock w)).

(** Modelled from the spec: an executing operation ends; it records its end
    time and frees its slot, and waiting operations are admitted. *)
Definition complete (o : nat) (w : World) : option World :=
  match list_find (fun e => e.1 = o) (executing w) with
  | Some (i, (_, t0)) =>
      Some (serve_waiting
              (mkWorld
                 (mkFunnel (pred (concurrencyInUse (funnel w)))
                           (rateTokens (funnel w)) (admissionQueue (funnel w)))
                 (delete i (executing w))
                 (completed w ++ [mkTiming o t0 (clock w)])
                 (submitted w) (S (clock w))))
  | None => None
  end.

(** Modelled from the spec: "a token-bucket refills ... up to capacity
    [burst]"; a refill tick adds one token. *)
Definition refill (w : World) : World :=
  serve_waiting
    (mkWorld
       (mkFunnel (concurrencyInUse (funnel w))
                 (match burst cfg with
                  | Some b => Nat.min b (S (rateTokens (funnel w)))
                  | None => rateTokens (funnel w)
                  end)
                 (admissionQueue (funnel w)))
       (executing w) (completed w) (submitted w) (clock w)).

Inductive Action : Type :=
| Submit
| Complete (o : nat)
| Refill.

Definition step (a : Action) (w : World) : option World :=
  match a with
  | Submit => Some (submit w)
  | Complete o => complete o w
  | Refill => Some (refill w)
  end.

Fixpoint run (tr : list Action) (w : World) : option World :=
  match tr with
  | [] => Some w
  | a :: tr' =>
      match step a w with
      | Some w1 => run tr' w1
      | None => None
      end
  end.

(** A fresh Funnel: nothing in use, a full bucket. *)
Definition initial : World :=
  mkWorld (mkFunnel 0 (default 0 (burst cfg)) []) [] [] 0 0.

End WithConfig.

(** The intervals of two executions do not overlap. *)
Definition disjoint (a b : Timing) : Prop :=
  finish a < start b ∨ finish b < start a.

(** Each execution starts strictly after the one before it in the list
    ended. *)
Fixpoint chained (lastEnd : option nat) (l : list Timing) : Prop :=
  match l with
  | [] => True
  | t :: l' =>
      match lastEnd with
      | Some e => e < start t
      | None => True
      end ∧ chained (Some (finish t)) l'
  end.

(** The bookkeeping invariant of a Funnel: the counter counts the
    executing operations, it respects the limit, and recorded instants lie
    in the past. *)
Record FunnelInv (cfg : Config) (w : World) : Prop := mkFunnelInv {
  inv_count : concurrencyInUse (funnel w) = length (executing w);
  inv_limit : ∀ c, concurrency cfg = Some c → length (executing w) ≤ c;
  inv_started : ∀ e, e ∈ executing w → e.2 < clock w;
  inv_completed : ∀ t, t ∈ completed w → start t ≤ finish t ∧ finish t < clock w
}.

(** With one slot: whatever is executing started after everything that has
    completed had ended. *)
Definition Serial (w : World) : Prop :=
  chained None (completed w)
  ∧ ∀ e t, e ∈ executing w → t ∈ completed w → finish t < e.2.

(** A run with ten operations submitted at once, completing one after the
    other, as in the calibration test. *)
Definition ten_at_once : list Action :=
  replicate 10 Submit ++ (Complete <$> seq 0 10).

End Funnel.

(* ===================================================================== *)
(** * Facts *)
(* ===================================================================== *)

Module PollRequestFacts.
Import PollRequest PollRequestViews.
Local Open Scope Z_scope.

Lemma backoff_0 : backoff 0 = 1000.
Proof. reflexivity. Qed.

Lemma next_duration_backoff (k : nat) : next_duration (backoff k) = backoff (S k).
Proof.
  unfold next_duration, backoff.
  destruct (Z.ltb_spec (Z.min (1000 * (Z.of_nat k + 1)) 5000) 5000); lia.
Qed.

Lemma backoff_mono (j k : nat) : (j ≤ k)%nat → backoff j ≤ backoff k.
Proof. unfold backoff. lia. Qed.

Lemma backoff_cap (k : nat) : 1000 ≤ backoff k ≤ 5000.
Proof. unfold backoff. lia. Qed.

Section WithRequest.
Context {T E : Type} (truthy : T → bool) (fn : nat → Outcome T E).

Lemma sleeps_app (tr1 tr2 : list (Event E)) :
  sleeps (tr1 ++ tr2) = sleeps tr1 ++ sleeps tr2.
Proof. apply omap_app. Qed.

Lemma requests_app (tr1 tr2 : list (Event E)) :
  requests (tr1 ++ tr2) = requests tr1 ++ requests tr2.
Proof. apply omap_app. Qed.

(** The loop sleeps [backoff k], [backoff (k+1)], ... and nothing else. *)
Lemma poll_loop_sleeps (remaining k : nat) (tr : list (Event E)) :
  ∃ m : nat, (m ≤ remaining)%nat ∧
    sleeps (poll_loop truthy fn remaining (backoff k) k tr).2
    = sleeps tr ++ (backoff <$> seq k m).
Proof.
  revert k tr. induction remaining as [|r IH]; intros k tr; simpl.
  - exists 0%nat. split; [lia|]. unfold final_attempt.
    destruct (fn k); simpl; rewrite sleeps_app; simpl; done.
  - assert (Hcont :
      ∃ m : nat, (m ≤ S r)%nat ∧
        sleeps (poll_loop truthy fn r (next_duration (backoff k)) (S k)
                  ((tr ++ [EvInfo; EvRequest k]) ++ [EvSleep (backoff k)])).2
        = sleeps tr ++ (backoff <$> seq k m)).
    { rewrite next_duration_backoff.
      destruct (IH (S k) ((tr ++ [EvInfo; EvRequest k]) ++ [EvSleep (backoff k)]))
        as (m & Hm & Heq).
      exists (S m). split; [lia|]. rewrite Heq, !sleeps_app. simpl.
      by rewrite <- !app_assoc. }
    destruct (fn k) as [v|e]; simpl; [|exact Hcont].
    destruct (truthy v); [|exact Hcont].
    exists 0%nat. split; [lia|]. simpl. rewrite sleeps_app. simpl. done.
Qed.

(** The calls of [fn] are numbered on from [k], and there are at most
    [remaining + 1] of them. *)
Lemma poll_loop_requests (remaining : nat) (d : Z) (k : nat) (tr : list (Event E)) :
  ∃ m : nat, (1 ≤ m ≤ S remaining)%nat ∧
    requests (poll_loop truthy fn remaining d k tr).2 = requests tr ++ seq k m.
Proof.
  revert d k tr. induction remaining as [|r IH]; intros d k tr; simpl.
  - exists 1%nat. split; [lia|]. unfold final_attempt.
    destruct (fn k); simpl; rewrite requests_app; simpl; done.
  - assert (Hcont :
      ∃ m : nat, (1 ≤ m ≤ S (S r))%nat ∧
        requests (poll_loop truthy fn r (next_duration d) (S k)
                    ((tr ++ [EvInfo; EvRequest k]) ++ [EvSleep d])).2
        = requests tr ++ seq k m).
    { destruct (IH (next_duration d) (S k) ((tr ++ [EvInfo; EvRequest k]) ++ [EvSleep d]))
        as (m & Hm & Heq).
      exists (S m). split; [lia|]. rewrite Heq, !requests_app. simpl.
      by rewrite <- !app_assoc. }
    destruct (fn k) as [v|e]; simpl; [|exact Hcont].
    destruct (truthy v); [|exact Hcont].
    exists 1%nat. split; [lia|]. simpl. rewrite requests_app. simpl. done.
Qed.

(** A throw comes from the last attempt, call number [k + remaining], and
    carries that attempt's own error. *)
Lemma poll_loop_threw (remaining : nat) (d : Z) (k : nat) (tr : list (Event E)) (e : E) :
  (poll_loop truthy fn remaining d k tr).1 = Threw e →
  fn (k + remaining)%nat = RejectedWith e.
Proof.
  revert d k tr. induction remaining as [|r IH]; intros d k tr; simpl.
  - unfold final_attempt. rewrite Nat.add_0_r.
    destruct (fn k); simpl; intros; simplify_eq; done.
  - replace (k + S r)%nat with (S k + r)%nat by lia.
    destruct (fn k) as [v|e']; simpl; [destruct (truthy v); simpl|]; try done;
      apply IH.
Qed.

(** When no earlier attempt gives a truthy result and the last attempt
    rejects, the function throws that very error. *)
Lemma poll_loop_exhausted (remaining : nat) (d : Z) (k : nat) (tr : list (Event E)) (e : E) :
  (∀ i v, (k ≤ i < k + remaining)%nat → fn i = Fulfilled v → truthy v = false) →
  fn (k + remaining)%nat = RejectedWith e →
  (poll_loop truthy fn remaining d k tr).1 = Threw e.
Proof.
  revert d k tr. induction remaining as [|r IH]; intros d k tr Hfalsy Hlast; simpl.
  - unfold final_attempt. rewrite Nat.add_0_r in Hlast. by rewrite Hlast.
  - replace (k + S r)%nat with (S k + r)%nat in Hlast by lia.
    assert (Hrest : ∀ i v, (S k ≤ i < S k + r)%nat → fn i = Fulfilled v → truthy v = false).
    { intros i v Hi. apply Hfalsy. lia. }
    destruct (fn k) as [v|e'] eqn:Hk; simpl; [|by apply IH].
    rewrite (Hfalsy k v) by (done || lia). by apply IH.
Qed.

Lemma retries_S (k m : nat) :
  retries (E := E) k (S m)
  = [EvInfo; EvRequest k; EvSleep (backoff k)] ++ retries (S k) m.
Proof. reflexivity. Qed.

(** While attempts fail, the loop goes on. *)
Lemma poll_loop_retries (m remaining k : nat) (tr : list (Event E)) :
  (∀ i, (k ≤ i < k + m)%nat → fails truthy fn i = true) →
  poll_loop truthy fn (m + remaining) (backoff k) k tr
  = poll_loop truthy fn remaining (backoff (k + m)) (k + m) (tr ++ retries k m).
Proof.
  revert k tr. induction m as [|m IH]; intros k tr Hfail.
  { simpl. by rewrite Nat.add_0_r, app_nil_r. }
  assert (Hk : fails truthy fn k = true) by (apply Hfail; lia).
  assert (Hnext :
    poll_loop truthy fn (m + remaining) (next_duration (backoff k)) (S k)
      ((tr ++ [EvInfo; EvRequest k]) ++ [EvSleep (backoff k)])
    = poll_loop truthy fn remaining (backoff (k + S m)) (k + S m)
        (tr ++ retries k (S m))).
  { rewrite next_duration_backoff, IH by (intros i Hi; apply Hfail; lia).
    replace (S k + m)%nat with (k + S m)%nat by lia.
    rewrite retries_S, <- !app_assoc. done. }
  unfold fails in Hk. cbn [Nat.add poll_loop].
  destruct (fn k) as [v|e]; simpl; [|exact Hnext].
  destruct (truthy v); [done|exact Hnext].
Qed.

Lemma requests_retries (k m : nat) : requests (retries (E := E) k m) = seq k m.
Proof.
  revert k. induction m as [|m IH]; intros k; [done|].
  rewrite retries_S, requests_app, IH. done.
Qed.

Lemma sleeps_retries (k m : nat) : sleeps (retries (E := E) k m) = backoff <$> seq k m.
Proof.
  revert k. induction m as [|m IH]; intros k; [done|].
  rewrite retries_S, sleeps_app, IH. done.
Qed.

(** The whole trace of the loop: some number [m] of failed attempts, each
    logged, made and followed by its sleep, and then either a truthy result
    inside the loop or the last attempt. *)
Lemma poll_loop_shape (remaining k : nat) (tr : list (Event E)) :
  ∃ m : nat, (m ≤ remaining)%nat
    ∧ (∀ i, (k ≤ i < k + m)%nat → fails truthy fn i = true)
    ∧ (((m < remaining)%nat
        ∧ ∃ v, fn (k + m)%nat = Fulfilled v ∧ truthy v = true
               ∧ poll_loop truthy fn remaining (backoff k) k tr
                 = (Returned v, tr ++ retries k m ++ [EvInfo; EvRequest (k + m)%nat]))
       ∨ (m = remaining
          ∧ poll_loop truthy fn remaining (backoff k) k tr
            = final_attempt fn (k + m)%nat (tr ++ retries k m))).
Proof.
  revert k tr. induction remaining as [|r IH]; intros k tr.
  { exists 0%nat. split; [lia|]. split; [intros i Hi; lia|]. right.
    split; [done|]. simpl. by rewrite Nat.add_0_r, app_nil_r. }
  destruct (fails truthy fn k) eqn:Hk.
  - destruct (IH (S k) (tr ++ retries k 1)) as (m & Hm & Hfail & Hend).
    assert (Hgo : poll_loop truthy fn (S r) (backoff k) k tr
                  = poll_loop truthy fn r (backoff (S k)) (S k) (tr ++ retries k 1)).
    { replace (S k) with (k + 1)%nat by lia.
      rewrite <- (poll_loop_retries 1 r k tr); [done|].
      intros i Hi. by replace i with k by lia. }
    exists (S m). split; [lia|]. split.
    { intros i Hi. destruct (decide (i = k)) as [-> | Hne]; [done|]. apply Hfail. lia. }
    replace (k + S m)%nat with (S k + m)%nat by lia.
    rewrite Hgo, (retries_S k m).
    destruct Hend as [(Hlt & v & Hv & Ht & Heq) | (-> & Heq)].
    + left. split; [lia|]. exists v. split; [done|]. split; [done|].
      rewrite Heq. change (retries (E := E) k 1) with [EvInfo (E := E); EvRequest k; EvSleep (backoff k)].
      by rewrite <- !app_assoc.
    + right. split; [done|]. rewrite Heq.
      change (retries (E := E) k 1) with [EvInfo (E := E); EvRequest k; EvSleep (backoff k)].
      by rewrite <- !app_assoc.
  - exists 0%nat. split; [lia|]. split; [intros i Hi; lia|]. left.
    split; [lia|]. unfold fails in Hk. rewrite Nat.add_0_r.
    destruct (fn k) as [v|e] eqn:Hv; [|done].
    exists v. split; [done|]. apply negb_false_iff in Hk. split; [done|].
    simpl. rewrite Hv. simpl. by rewrite Hk.
Qed.

End WithRequest.

(** C8. [pollAWSRequest] calls [fn] at most [n] times (once when [n < 1]).
    The k-th delay (counting from 0) is [min (1000 * (k + 1)) 5000]: it
    starts at 1000 ms, grows by 1000 ms per attempt and stays at 5000 ms, so
    the delays never decrease and there are at most [n - 1] of them; a throw
    carries the error of the last call of [fn] itself, and when every
    earlier attempt failed and the last one rejects with [e], the function
    throws [e] unchanged.  The delays are slept: the trace is [m] failed
    attempts, attempt [i] being the log line, call [i] of [fn] and the sleep
    of [backoff i] that precedes call [i + 1], followed either by a truthy
    result of call [m] inside the loop or, when [m] is the last attempt, by
    the unlogged last call (and [warn] with its error when it rejects); so
    [m + 1] calls are made and exactly the [m] delays
    [backoff 0 .. backoff (m - 1)] are slept, one before each re-execution. *)
Theorem pollAWSRequest_backoff_and_final_error
  {T E : Type} (truthy : T → bool) (fn : nat → Outcome T E) (n : Z) :
  let r := pollAWSRequest truthy fn n in
  let last := Z.to_nat (n - 1) in
  (∃ m : nat, (1 ≤ m ≤ S last)%nat ∧ requests r.2 = seq 0 m)
  ∧ (∀ (k : nat) (d : Z), sleeps r.2 !! k = Some d → d = backoff k ∧ (k < last)%nat)
  ∧ (∀ (j k : nat) (d d' : Z),
       (j ≤ k)%nat → sleeps r.2 !! j = Some d → sleeps r.2 !! k = Some d' →
       d ≤ d' ≤ 5000)
  ∧ (∀ e : E, r.1 = Threw e → fn last = RejectedWith e)
  ∧ (∀ e : E,
       (∀ (i : nat) (v : T), (i < last)%nat → fn i = Fulfilled v → truthy v = false) →
       fn last = RejectedWith e → r.1 = Threw e)
  ∧ (∃ m : nat, (m ≤ last)%nat
       ∧ (∀ i : nat, (i < m)%nat → fails truthy fn i = true)
       ∧ requests r.2 = seq 0 (S m)
       ∧ sleeps r.2 = backoff <$> seq 0 m
       ∧ (((m < last)%nat
           ∧ ∃ v : T, fn m = Fulfilled v ∧ truthy v = true
                      ∧ r = (Returned v, retries 0 m ++ [EvInfo; EvRequest m]))
          ∨ (m = last
             ∧ r = match fn last with
                   | Fulfilled v => (Returned v, retries 0 last ++ [EvRequest last])
                   | RejectedWith e =>
                       (Threw e, retries 0 last ++ [EvRequest last; EvWarn e])
                   end))).
Proof.
  intros r last. subst r last. unfold pollAWSRequest.
  destruct (poll_loop_sleeps truthy fn (Z.to_nat (n - 1)) 0 []) as (m & Hm & Heq).
  rewrite backoff_0 in Heq. simpl in Heq.
  assert (Hk : ∀ (k : nat) (d : Z),
             sleeps (poll_loop truthy fn (Z.to_nat (n - 1)) 1000 0 []).2 !! k = Some d →
             d = backoff k ∧ (k < Z.to_nat (n - 1))%nat).
  { intros k d. rewrite Heq, list_lookup_fmap.
    destruct (seq 0 m !! k) as [x|] eqn:Hx; simpl; [|done].
    apply lookup_seq in Hx as [-> ?]. intros [= <-]. split; [done | lia]. }
  split; [apply (poll_loop_requests truthy fn (Z.to_nat (n - 1)) 1000 0 [])|].
  split; [exact Hk|]. split; [|split; [|split]].
  - intros j k d d' Hjk Hj Hk'.
    apply Hk in Hj as [-> _]. apply Hk in Hk' as [-> _].
    split; [by apply backoff_mono | apply backoff_cap].
  - intros e He. by apply poll_loop_threw in He.
  - intros e Hfalsy Hlast. apply poll_loop_exhausted; simpl; [|done].
    intros i v Hi. apply Hfalsy. lia.
  - destruct (poll_loop_shape truthy fn (Z.to_nat (n - 1)) 0 [])
      as (m' & Hm' & Hfail & Hend).
    rewrite backoff_0 in Hend. simpl in Hend.
    assert (Hseq : seq 0 (S m') = seq 0 m' ++ [m']) by (by rewrite seq_S).
    exists m'. split; [done|]. split; [intros i Hi; apply Hfail; lia|].
    destruct Hend as [(Hlt & v & Hv & Ht & Hr) | (-> & Hr)]; rewrite Hr.
    + cbn [fst snd]. rewrite requests_app, sleeps_app, requests_retries, sleeps_retries.
      split; [by rewrite Hseq|]. split; [simpl; by rewrite app_nil_r|].
      left. split; [done|]. by exists v.
    + unfold final_attempt.
      destruct (fn (Z.to_nat (n - 1))) as [v|e]; cbn [fst snd];
        rewrite requests_app, sleeps_app, requests_retries, sleeps_retries;
        (split; [by rewrite Hseq|]); (split; [simpl; by rewrite app_nil_r|]);
        right; done.
Qed.

End PollRequestFacts.

Module EngineFacts.
Import Engine.

(** *** Bookkeeping *)

Lemma settlements_app (es1 es2 : list Effect) :
  settlements (es1 ++ es2) = settlements es1 ++ settlements es2.
Proof. apply omap_app. Qed.

Lemma publishes_app (es1 es2 : list Effect) :
  publishes (es1 ++ es2) = publishes es1 ++ publishes es2.
Proof. apply omap_app. Qed.

Lemma acknowledged_app (es1 es2 : list Effect) :
  acknowledged (es1 ++ es2) = acknowledged es1 ++ acknowledged es2.
Proof. apply omap_app. Qed.

Lemma isEmpty_true (t : gmap string nat) : isEmpty t = true ↔ t = ∅.
Proof. unfold isEmpty. by rewrite bool_decide_eq_true. Qed.

Lemma isEmpty_false (t : gmap string nat) : isEmpty t = false ↔ t ≠ ∅.
Proof. unfold isEmpty. by rewrite bool_decide_eq_false. Qed.

(** [TableInv] reads only these parts of a world. *)
Lemma TableInv_ext (w w' : World) :
  callResultPromises (state w') = callResultPromises (state w) →
  deferreds w' = deferreds w →
  callers w' = callers w →
  uuids w' = uuids w →
  settlements (effects w') = settlements (effects w) →
  publishes (effects w') = publishes (effects w) →
  TableInv w → TableInv w'.
Proof.
  intros Ht Hd Hc Hu Hs Hp [H1 H2 H3 H4 H5 H6 H7 H8].
  split; rewrite ?Ht, ?Hd, ?Hc, ?Hu, ?Hs, ?Hp; done.
Qed.

Lemma LoopInv_ext (w w' : World) :
  collectors w' = collectors w →
  resultCollectorPromise (state w') = resultCollectorPromise (state w) →
  LoopInv w → LoopInv w'.
Proof. intros Hk Hp H. unfold LoopInv. rewrite Hk, Hp. done. Qed.

(** [startResultCollectorIfNeeded], spelled out. *)
Lemma startResultCollectorIfNeeded_eq (w : World) :
  startResultCollectorIfNeeded w =
  if isEmpty (callResultPromises (state w))
     || bool_decide (is_Some (resultCollectorPromise (state w)))
  then w
  else with_collectorPromise (Some (length (collectors w)))
         (with_collectors (collectors w ++ [Polling]) (emit SqsReceiveMessage w)).
Proof.
  unfold startResultCollectorIfNeeded, resultCollector, loop_head.
  destruct (isEmpty (callResultPromises (state w))); simpl; [done|].
  destruct (bool_decide (is_Some (resultCollectorPromise (state w)))); done.
Qed.

Lemma startResultCollectorIfNeeded_TableInv (w : World) :
  TableInv w → TableInv (startResultCollectorIfNeeded w).
Proof.
  rewrite startResultCollectorIfNeeded_eq.
  destruct (_ || _); [done|].
  apply TableInv_ext; simpl; try done.
  - rewrite settlements_app. simpl. by rewrite app_nil_r.
  - rewrite publishes_app. simpl. by rewrite app_nil_r.
Qed.

Lemma startResultCollectorIfNeeded_LoopInv (w : World) :
  LoopInv w → LoopInv (startResultCollectorIfNeeded w).
Proof.
  rewrite startResultCollectorIfNeeded_eq.
  destruct (isEmpty _); simpl; [done|].
  case_bool_decide as Hp; [done|].
  intros H k pc. simpl. intros Hk Hrun.
  destruct (decide (k = length (collectors w))) as [->|Hne]; [done|].
  rewrite lookup_app_l in Hk.
  - specialize (H k pc Hk Hrun). destruct Hp. by rewrite H.
  - apply lookup_lt_Some in Hk. rewrite length_app in Hk. simpl in Hk. lia.
Qed.

(** Settling the deferred of one table entry and dropping the entry keeps
    the table invariant. *)
Lemma TableInv_settle (w w' : World) (id : string) (d : nat) (p : PromiseState) :
  TableInv w →
  callResultPromises (state w) !! id = Some d →
  settled p = true →
  (∀ err, p = Rejected err → err = cancelled) →
  callResultPromises (state w') = delete id (callResultPromises (state w)) →
  deferreds w' = <[d := p]> (deferreds w) →
  callers w' = callers w →
  uuids w' = uuids w →
  settlements (effects w') = settlements (effects w) ++ [d] →
  publishes (effects w') = publishes (effects w) →
  TableInv w'.
Proof.
  intros [Hpen Hinj Huu Hcal Hnd Hset Hpub Hrej] Hid Hp Hperr Ht Hd Hc Hu Hs Hpb.
  assert (Hdpen := Hpen _ _ Hid).
  assert (Hdlt : d < length (deferreds w)) by by eapply lookup_lt_Some.
  split; rewrite ?Ht, ?Hd, ?Hc, ?Hu, ?Hs, ?Hpb.
  - intros id' d' [Hne Hl]%lookup_delete_Some.
    rewrite list_lookup_insert_ne; [by eapply Hpen|].
    intros ->. by destruct Hne; eapply Hinj.
  - intros id1 id2 d' [_ H1]%lookup_delete_Some [_ H2]%lookup_delete_Some.
    by eapply Hinj.
  - intros id' d' [_ Hl]%lookup_delete_Some. by eapply Huu.
  - intros i c Hi. destruct (Hcal i c Hi) as [Hin Hpc]. split; [done|].
    destruct (caller_pc c) as [dc| | | |]; try done.
    + destruct Hpc as [Hl|[Hl (p' & Hp' & Hsp)]].
      * destruct (decide (caller_CallId c = id)) as [Heq|Hne].
        -- rewrite Heq in *. right. split; [by rewrite lookup_delete_eq|].
           assert (dc = d) as -> by congruence.
           exists p. by rewrite list_lookup_insert_eq.
        -- left. by rewrite lookup_delete_ne.
      * right. split; [by apply lookup_delete_None; right|].
        exists p'. split; [|done].
        rewrite list_lookup_insert_ne; [done|].
        intros ->. rewrite Hdpen in Hp'. by simplify_eq.
    + by apply lookup_delete_None; right.
  - apply NoDup_app. split; [done|]. split; [|apply NoDup_singleton].
    intros d' Hd' ->%list_elem_of_singleton.
    destruct (Hset _ Hd') as (p' & Hp' & Hsp). rewrite Hdpen in Hp'. by simplify_eq.
  - intros d' [Hd'| ->%list_elem_of_singleton]%elem_of_app.
    + destruct (Hset _ Hd') as (p' & Hp' & Hsp).
      destruct (decide (d' = d)) as [->|Hne].
      * rewrite Hdpen in Hp'. by simplify_eq.
      * exists p'. by rewrite list_lookup_insert_ne.
    + exists p. by rewrite list_lookup_insert_eq.
  - intros id' Hid'. destruct (Hpub _ Hid') as [Hn Hin]. split; [|done].
    by apply lookup_delete_None; right.
  - intros d' err. destruct (decide (d' = d)) as [->|Hne].
    + rewrite list_lookup_insert_eq by done. intros [= ->]. by apply Hperr.
    + rewrite list_lookup_insert_ne by done. apply Hrej.
Qed.

(** *** [cancelWithoutCleanup] *)

Lemma reject_deferreds (d0 : nat) (err : JsError) (w : World) (d : nat) :
  deferreds (reject d0 err w) !! d =
  match deferreds w !! d with
  | Some Pending => if decide (d = d0) then Some (Rejected err) else Some Pending
  | o => o
  end.
Proof.
  unfold reject. simpl.
  destruct (decide (d = d0)) as [->|Hne].
  - destruct (deferreds w !! d0) as [[]|] eqn:H0; simpl; rewrite ?H0; try done.
    rewrite list_lookup_insert_eq; [done | by eapply lookup_lt_Some].
  - destruct (deferreds w !! d0) as [[]|] eqn:H0; simpl;
      rewrite ?list_lookup_insert_ne by done;
      by destruct (deferreds w !! d) as [[]|].
Qed.

Lemma reject_all_frame (ds : list nat) (w : World) :
  state (reject_all ds w) = state w
  ∧ callers (reject_all ds w) = callers w
  ∧ collectors (reject_all ds w) = collectors w
  ∧ cancels (reject_all ds w) = cancels w
  ∧ cleanups (reject_all ds w) = cleanups w
  ∧ timers (reject_all ds w) = timers w
  ∧ uuids (reject_all ds w) = uuids w
  ∧ effects (reject_all ds w) = effects w ++ (DeferredReject <$> ds).
Proof.
  revert w. induction ds as [|d ds IH]; intros w; simpl.
  - by rewrite app_nil_r.
  - destruct (IH (reject d cancelled w)) as (-> & -> & -> & -> & -> & -> & -> & ->).
    unfold reject. simpl.
    rewrite <- app_assoc. simpl.
    by destruct (deferreds w !! d) as [[]|].
Qed.

Lemma reject_all_deferreds (ds : list nat) (w : World) (d : nat) :
  deferreds (reject_all ds w) !! d =
  match deferreds w !! d with
  | Some Pending => if decide (d ∈ ds) then Some (Rejected cancelled) else Some Pending
  | o => o
  end.
Proof.
  revert w. induction ds as [|d0 ds IH]; intros w; simpl.
  - by destruct (deferreds w !! d) as [[]|].
  - rewrite IH, reject_deferreds.
    destruct (deferreds w !! d) as [[]|]; try done.
    destruct (decide (d = d0)) as [->|Hne].
    + by rewrite (decide_True (P := d0 ∈ d0 :: ds)) by apply list_elem_of_here.
    + destruct (decide (d ∈ ds)) as [Hin|Hnin].
      * by rewrite decide_True by by apply list_elem_of_further.
      * rewrite decide_False; [done|]. by intros [?|?]%elem_of_cons.
Qed.

Lemma settlements_rejects (ds : list nat) : settlements (DeferredReject <$> ds) = ds.
Proof. induction ds as [|d ds IH]; simpl; [done|]. unfold settlements in *. simpl. by f_equal. Qed.

Lemma publishes_rejects (ds : list nat) : publishes (DeferredReject <$> ds) = [].
Proof. induction ds as [|d ds IH]; simpl; done. Qed.

(** The deferreds held in the table: [Object.keys] lists every own key
    once. *)
Lemma in_key_order_Permutation (t : gmap string nat) :
  in_key_order t ≡ₚ (map_to_list t).*2.
Proof.
  unfold in_key_order, Object_entries. apply fmap_Permutation, merge_sort_Permutation.
Qed.

Global Instance key_precedes_total : Total key_precedes.
Proof.
  intros a b. unfold key_precedes.
  destruct (array_index a.1), (array_index b.1); try tauto; lia.
Qed.

Global Instance key_precedes_trans : Transitive key_precedes.
Proof.
  intros a b c. unfold key_precedes.
  destruct (array_index a.1), (array_index b.1), (array_index c.1); try tauto; lia.
Qed.

Lemma Object_entries_sorted (t : gmap string nat) :
  StronglySorted key_precedes (Object_entries t).
Proof. apply StronglySorted_merge_sort; apply _. Qed.

Lemma in_key_order_empty : in_key_order ∅ = [].
Proof.
  apply Permutation_nil_r. rewrite in_key_order_Permutation.
  by rewrite map_to_list_empty.
Qed.

Lemma elem_of_table_values (t : gmap string nat) (d : nat) :
  d ∈ in_key_order t ↔ ∃ id, t !! id = Some d.
Proof.
  rewrite in_key_order_Permutation, list_elem_of_fmap. split.
  - intros ([id d'] & -> & Hin). exists id. by apply elem_of_map_to_list.
  - intros (id & Hid). exists (id, d). split; [done|]. by apply elem_of_map_to_list.
Qed.

Lemma NoDup_table_values (t : gmap string nat) :
  (∀ id1 id2 d, t !! id1 = Some d → t !! id2 = Some d → id1 = id2) →
  NoDup (in_key_order t).
Proof.
  intros Hinj. rewrite in_key_order_Permutation.
  apply NoDup_fmap_2_strong; [|apply NoDup_map_to_list].
  intros [id1 d1] [id2 d2] H1%elem_of_map_to_list H2%elem_of_map_to_list. simpl.
  intros ->. f_equal. by eapply Hinj.
Qed.

(** The parts of the world after the synchronous part of
    [cancelWithoutCleanup]. *)
Lemma cancelWithoutCleanup_frame (w : World) :
  let w' := (cancelWithoutCleanup w).1 in
  let ds := in_key_order (callResultPromises (state w)) in
  callResultPromises (state w') = ∅
  ∧ resultCollectorPromise (state w') = resultCollectorPromise (state w)
  ∧ useQueue (state w') = useQueue (state w)
  ∧ resources (state w') = resources (state w)
  ∧ callers w' = callers w
  ∧ collectors w' = collectors w
  ∧ cleanups w' = cleanups w
  ∧ timers w' = timers w
  ∧ uuids w' = uuids w
  ∧ effects w' = effects w ++ (DeferredReject <$> ds)
  ∧ cancels w' = cancels w ++
      [match resultCollectorPromise (state w) with
       | Some k => AwaitCollector k
       | None => CancelReturned
       end]
  ∧ (cancelWithoutCleanup w).2 = length (cancels w)
  ∧ ∀ d, deferreds w' !! d =
         match deferreds w !! d with
         | Some Pending =>
             if decide (d ∈ ds) then Some (Rejected cancelled) else Some Pending
         | o => o
         end.
Proof.
  intros w' ds. subst w'. unfold cancelWithoutCleanup. simpl.
  destruct (reject_all_frame ds (with_table ∅ w))
    as (Hst & Hca & Hco & Hcn & Hcl & Hti & Huu & Hef).
  fold ds. rewrite Hst, Hca, Hco, Hcn, Hcl, Hti, Huu, Hef. simpl.
  repeat split; try done.
  intros d. by rewrite reject_all_deferreds.
Qed.

Lemma cancelWithoutCleanup_TableInv (w : World) :
  TableInv w → TableInv (cancelWithoutCleanup w).1.
Proof.
  intros [Hpen Hinj Huu Hcal Hnd Hset Hpub Hrej].
  destruct (cancelWithoutCleanup_frame w)
    as (Ht & _ & _ & _ & Hca & _ & _ & _ & Hu & Hef & _ & _ & Hd).
  set (ds := in_key_order (callResultPromises (state w))) in *.
  split; rewrite ?Ht, ?Hca, ?Hu, ?Hef, ?settlements_app, ?publishes_app,
           ?settlements_rejects, ?publishes_rejects, ?app_nil_r.
  - intros id d. by rewrite lookup_empty.
  - intros id1 id2 d. by rewrite lookup_empty.
  - intros id d. by rewrite lookup_empty.
  - intros i c Hi. destruct (Hcal i c Hi) as [Hin Hpc]. split; [done|].
    rewrite lookup_empty.
    destruct (caller_pc c) as [dc| | | |]; try done.
    right. split; [done|]. rewrite Hd.
    destruct Hpc as [Hl|[Hl (p' & Hp' & Hsp)]].
    + rewrite (Hpen _ _ Hl), decide_True; [by eexists|].
      apply elem_of_table_values. by eexists.
    + rewrite Hp'. destruct p'; [done| |]; by eexists.
  - apply NoDup_app. split; [done|]. split; [|by apply NoDup_table_values].
    intros d Hd1 (id & Hid)%elem_of_table_values.
    destruct (Hset _ Hd1) as (p' & Hp' & Hsp).
    rewrite (Hpen _ _ Hid) in Hp'. by simplify_eq.
  - intros d [Hd1|(id & Hid)%elem_of_table_values]%elem_of_app; rewrite Hd.
    + destruct (Hset _ Hd1) as (p' & Hp' & Hsp). rewrite Hp'.
      destruct p'; [done| |]; by eexists.
    + rewrite (Hpen _ _ Hid), decide_True; [by eexists|].
      apply elem_of_table_values. by eexists.
  - intros id Hid. split; [by rewrite lookup_empty | by apply Hpub].
  - intros d err. rewrite Hd.
    destruct (deferreds w !! d) as [[]|] eqn:Hdd; try done.
    + case_decide; [by intros [= <-] | done].
    + intros [= <-]. by eapply Hrej.
Qed.

Lemma cancelWithoutCleanup_LoopInv (w : World) :
  LoopInv w → LoopInv (cancelWithoutCleanup w).1.
Proof.
  destruct (cancelWithoutCleanup_frame w)
    as (_ & Hp & _ & _ & _ & Hco & _).
  by apply LoopInv_ext.
Qed.

(** *** Callers *)

Lemma startResultCollectorIfNeeded_frame (w : World) :
  let w' := startResultCollectorIfNeeded w in
  callResultPromises (state w') = callResultPromises (state w)
  ∧ useQueue (state w') = useQueue (state w)
  ∧ resources (state w') = resources (state w)
  ∧ deferreds w' = deferreds w
  ∧ callers w' = callers w
  ∧ cancels w' = cancels w
  ∧ cleanups w' = cleanups w
  ∧ timers w' = timers w
  ∧ uuids w' = uuids w.
Proof.
  simpl. rewrite startResultCollectorIfNeeded_eq. by destruct (_ || _).
Qed.

(** The table invariant after [state.callResultPromises[CallId] = deferred]
    with a new deferred and a new identifier. *)
Lemma TableInv_enqueue (w w' : World) (uuid : string) :
  TableInv w → uuid ∉ uuids w →
  callResultPromises (state w') =
    <[uuid := length (deferreds w)]> (callResultPromises (state w)) →
  deferreds w' = deferreds w ++ [Pending] →
  callers w' = callers w →
  uuids w' = uuids w ++ [uuid] →
  settlements (effects w') = settlements (effects w) →
  publishes (effects w') = publishes (effects w) →
  TableInv w'.
Proof.
  intros [Hpen Hinj Huu Hcal Hnd Hset Hpub Hrej] Hfresh Ht Hd Hc Hu Hs Hpb.
  assert (Hnone : callResultPromises (state w) !! uuid = None).
  { destruct (callResultPromises (state w) !! uuid) eqn:E; [|done].
    destruct Hfresh. by eapply Huu. }
  split; rewrite ?Ht, ?Hd, ?Hc, ?Hu, ?Hs, ?Hpb.
  - intros id d [[-> <-]|[Hne Hl]]%lookup_insert_Some.
    + by rewrite lookup_app_r, Nat.sub_diag.
    + rewrite lookup_app_l; [by eapply Hpen|].
      eapply lookup_lt_Some. by eapply Hpen.
  - intros id1 id2 d [[-> <-]|[Hne1 Hl1]]%lookup_insert_Some
                     [[-> Heq]|[Hne2 Hl2]]%lookup_insert_Some; try done.
    + apply Hpen, lookup_lt_Some in Hl2. lia.
    + apply Hpen, lookup_lt_Some in Hl1. lia.
    + by eapply Hinj.
  - intros id d [[-> <-]|[Hne Hl]]%lookup_insert_Some; apply elem_of_app.
    + right. apply list_elem_of_singleton. done.
    + left. by eapply Huu.
  - intros i c Hi. destruct (Hcal i c Hi) as [Hin Hpc].
    split; [apply elem_of_app; by left|].
    assert (Hne : uuid ≠ caller_CallId c) by by intros ->.
    rewrite lookup_insert_ne by done.
    destruct (caller_pc c) as [dc| | | |]; try done.
    destruct Hpc as [Hl|[Hl (p' & Hp' & Hsp)]]; [by left|]. right. split; [done|].
    exists p'. split; [|done]. rewrite lookup_app_l; [done|]. by eapply lookup_lt_Some.
  - done.
  - intros d Hd1. destruct (Hset _ Hd1) as (p' & Hp' & Hsp). exists p'. split; [|done].
    rewrite lookup_app_l; [done|]. by eapply lookup_lt_Some.
  - intros id Hid. destruct (Hpub _ Hid) as [Hn Hin].
    split; [|apply elem_of_app; by left].
    rewrite lookup_insert_ne; [done|]. by intros ->.
  - intros d err [Hl|[_ Hl]]%lookup_app_Some; [by eapply Hrej|].
    by destruct (d - length (deferreds w)) as [|[]]; simpl in Hl.
Qed.

Lemma TableInv_add_caller (w : World) (c : Caller) :
  TableInv w →
  caller_CallId c ∈ uuids w →
  match caller_pc c with
  | AwaitQueueResponse d =>
      callResultPromises (state w) !! caller_CallId c = Some d
  | AwaitPublish _ => callResultPromises (state w) !! caller_CallId c = None
  | _ => True
  end →
  TableInv (with_callers (callers w ++ [c]) w).
Proof.
  intros [Hpen Hinj Huu Hcal Hnd Hset Hpub Hrej] Hin Hpc.
  split; simpl; try done.
  intros i c' [Hi|[_ Hi]]%lookup_app_Some; [by apply (Hcal i)|].
  destruct (i - length (callers w)) as [|[]]; simpl in Hi; simplify_eq.
  split; [done|]. destruct (caller_pc c'); try done. by left.
Qed.

Lemma TableInv_set_caller (w : World) (i : nat) (id : string) (pc0 pc : CallerPc) :
  TableInv w →
  callers w !! i = Some (mkCaller id pc0) →
  match pc with
  | AwaitQueueResponse _ => False
  | AwaitPublish _ => callResultPromises (state w) !! id = None
  | _ => True
  end →
  TableInv (set_caller i id pc w).
Proof.
  intros [Hpen Hinj Huu Hcal Hnd Hset Hpub Hrej] Hi Hpc.
  split; simpl; try done.
  intros i' c'. destruct (decide (i' = i)) as [->|Hne].
  - rewrite list_lookup_insert_eq by by eapply lookup_lt_Some.
    intros [= <-]. simpl. split; [by apply (Hcal i _ Hi)|].
    by destruct pc.
  - rewrite list_lookup_insert_ne by done. apply Hcal.
Qed.

Lemma TableInv_publish (w : World) (id : string) :
  TableInv w → callResultPromises (state w) !! id = None → id ∈ uuids w →
  TableInv (emit (SnsPublish id) w).
Proof.
  intros [Hpen Hinj Huu Hcal Hnd Hset Hpub Hrej] Hn Hin.
  split; simpl; rewrite ?settlements_app, ?publishes_app; simpl;
    rewrite ?app_nil_r; try done.
  intros id' [Hid| ->%list_elem_of_singleton]%elem_of_app; [by apply Hpub | done].
Qed.

(** *** Steps that leave the table alone *)

Lemma Inv_ext (w w' : World) :
  state w' = state w →
  deferreds w' = deferreds w →
  callers w' = callers w →
  collectors w' = collectors w →
  uuids w' = uuids w →
  settlements (effects w') = settlements (effects w) →
  publishes (effects w') = publishes (effects w) →
  Inv w → Inv w'.
Proof.
  intros Hs Hd Hc Hk Hu Hse Hpu [HT HL]. split.
  - eapply TableInv_ext; [..|exact HT]; by rewrite ?Hs.
  - eapply LoopInv_ext; [..|exact HL]; by rewrite ?Hs.
Qed.

Lemma emit_Inv (e : Effect) (w : World) :
  settlements [e] = [] → publishes [e] = [] → Inv w → Inv (emit e w).
Proof.
  intros Hs Hp. apply Inv_ext; simpl; try done.
  - by rewrite settlements_app, Hs, app_nil_r.
  - by rewrite publishes_app, Hp, app_nil_r.
Qed.

Lemma cancelWithoutCleanup_Inv (w : World) : Inv w → Inv (cancelWithoutCleanup w).1.
Proof.
  intros [HT HL]. split;
    [by apply cancelWithoutCleanup_TableInv | by apply cancelWithoutCleanup_LoopInv].
Qed.

Lemma startResultCollectorIfNeeded_Inv (w : World) :
  Inv w → Inv (startResultCollectorIfNeeded w).
Proof.
  intros [HT HL]. split;
    [by apply startResultCollectorIfNeeded_TableInv
    | by apply startResultCollectorIfNeeded_LoopInv].
Qed.

Lemma LoopInv_set_collector (w : World) (k : nat) (pc0 pc : CollectorPc) :
  LoopInv w → collectors w !! k = Some pc0 →
  (pc ≠ Exited → pc0 ≠ Exited) →
  LoopInv (set_collector k pc w).
Proof.
  intros HL Hk Hrun k' pc'. simpl.
  destruct (decide (k' = k)) as [->|Hne].
  - rewrite list_lookup_insert_eq by by eapply lookup_lt_Some.
    intros [= <-] H. by eapply HL; [|apply Hrun].
  - rewrite list_lookup_insert_ne by done. apply HL.
Qed.

(** The loop test: either way the invariant holds for the collector run
    [k] that performs it, which was running. *)
Lemma loop_head_Inv (k : nat) (pc0 : CollectorPc) (w : World) :
  Inv w → collectors w !! k = Some pc0 → pc0 ≠ Exited →
  Inv (set_collector k (loop_head w).2 (loop_head w).1).
Proof.
  intros [HT HL] Hk Hrun. unfold loop_head.
  destruct (isEmpty (callResultPromises (state w))); simpl.
  - split.
    + eapply TableInv_ext; [..|exact HT]; simpl; try done.
      * by rewrite settlements_app, app_nil_r.
      * by rewrite publishes_app, app_nil_r.
    + intros k' pc'. simpl.
      destruct (decide (k' = k)) as [->|Hne].
      * rewrite list_lookup_insert_eq by by eapply lookup_lt_Some. by intros [= <-].
      * rewrite list_lookup_insert_ne by done. intros Hk' Hrun'.
        pose proof (HL _ _ Hk' Hrun'). pose proof (HL _ _ Hk Hrun). congruence.
  - split.
    + eapply TableInv_ext; [..|exact HT]; simpl; try done.
      * by rewrite settlements_app, app_nil_r.
      * by rewrite publishes_app, app_nil_r.
    + eapply (LoopInv_set_collector (emit SqsReceiveMessage w)); [|exact Hk|done].
      by eapply LoopInv_ext; [..|exact HL].
Qed.

(** The stages of [cleanup]. *)
Lemma cleanup_queues_Inv (w : World) : Inv w → Inv (cleanup_queues w).1.
Proof.
  intros HI. unfold cleanup_queues. simpl.
  repeat case_match; repeat (apply emit_Inv; [done..|]); done.
Qed.

Lemma cleanup_role_Inv (c : nat) (w : World) : Inv w → Inv (cleanup_role c w).1.
Proof.
  intros HI. unfold cleanup_role.
  repeat case_match; simpl; repeat (apply emit_Inv; [done..|]); done.
Qed.

Lemma cleanup_logGroup_Inv (c : nat) (w : World) : Inv w → Inv (cleanup_logGroup c w).1.
Proof.
  intros HI. unfold cleanup_logGroup.
  case_match; simpl; [by apply emit_Inv | by apply cleanup_role_Inv].
Qed.

Lemma cleanup_function_Inv (c : nat) (w : World) : Inv w → Inv (cleanup_function c w).1.
Proof.
  intros HI. unfold cleanup_function.
  case_match; simpl; [by apply emit_Inv | by apply cleanup_logGroup_Inv].
Qed.

Lemma cleanup_cancel_Inv (w : World) : Inv w → Inv (cleanup_cancel w).1.
Proof.
  intros HI. unfold cleanup_cancel.
  pose proof (cancelWithoutCleanup_Inv w HI).
  destruct (cancelWithoutCleanup w) as [w1 c]. by apply cleanup_function_Inv.
Qed.

Lemma with_cleanups_Inv (cs : list CleanupPc) (w : World) :
  Inv w → Inv (with_cleanups cs w).
Proof. by apply Inv_ext. Qed.

Lemma cleanup_Inv (w : World) : Inv w → Inv (cleanup w).
Proof.
  intros HI. unfold cleanup.
  destruct (truthy (SNSLambdaSubscriptionArn (resources (state w)))).
  - by apply with_cleanups_Inv, emit_Inv.
  - pose proof (cleanup_cancel_Inv w HI).
    destruct (cleanup_cancel w) as [w1 pc]. by apply with_cleanups_Inv.
Qed.

Lemma cleanup_resumes_Inv (j : nat) (w w' : World) :
  cleanup_resumes j w = Some w' → Inv w → Inv w'.
Proof.
  unfold cleanup_resumes. intros H HI.
  destruct (cleanups w !! j) as [[]|]; simplify_eq; try by apply with_cleanups_Inv.
  - by apply with_cleanups_Inv, cleanup_cancel_Inv.
  - by apply with_cleanups_Inv, cleanup_logGroup_Inv.
  - by apply with_cleanups_Inv, cleanup_role_Inv.
  - destruct (cancels w !! c) as [[]|]; simplify_eq.
    + by apply with_cleanups_Inv, cleanup_queues_Inv.
    + by apply with_cleanups_Inv.
Qed.

Lemma collector_awaited_Inv (j : nat) (w w' : World) :
  collector_awaited j w = Some w' → Inv w → Inv w'.
Proof.
  unfold collector_awaited. intros H HI.
  repeat case_match; simplify_eq; by eapply Inv_ext; [..|exact HI].
Qed.

(** *** What a step leaves in place *)

Lemma same_but_effects_refl (w : World) : same_but_effects w w.
Proof. by repeat split. Qed.

Lemma same_but_effects_emit (e : Effect) (w w' : World) :
  same_but_effects w w' → same_but_effects w (emit e w').
Proof. by intros (? & ? & ? & ? & ? & ? & ? & ?). Qed.

Lemma cleanup_queues_quiet (w : World) : same_but_effects w (cleanup_queues w).1.
Proof.
  unfold cleanup_queues. simpl.
  repeat case_match; repeat apply same_but_effects_emit; apply same_but_effects_refl.
Qed.

Lemma cleanup_role_quiet (c : nat) (w : World) : same_but_effects w (cleanup_role c w).1.
Proof.
  unfold cleanup_role.
  repeat case_match; simpl; repeat apply same_but_effects_emit;
    apply same_but_effects_refl.
Qed.

Lemma cleanup_logGroup_quiet (c : nat) (w : World) :
  same_but_effects w (cleanup_logGroup c w).1.
Proof.
  unfold cleanup_logGroup. case_match; simpl; [|apply cleanup_role_quiet].
  apply same_but_effects_emit, same_but_effects_refl.
Qed.

Lemma cleanup_function_quiet (c : nat) (w : World) :
  same_but_effects w (cleanup_function c w).1.
Proof.
  unfold cleanup_function. case_match; simpl; [|apply cleanup_logGroup_quiet].
  apply same_but_effects_emit, same_but_effects_refl.
Qed.

(** The calls of the IAM service made by [deleteRole]. *)
Lemma emit_all_eq (es : list Effect) (w : World) :
  emit_all es w
  = mkWorld (state w) (deferreds w) (callers w) (collectors w) (cancels w)
            (cleanups w) (timers w) (uuids w) (effects w ++ es).
Proof.
  unfold emit_all. revert w. induction es as [|e es IH]; intros w; simpl.
  - rewrite app_nil_r. by destruct w.
  - rewrite IH. simpl. by rewrite <- app_assoc.
Qed.

Lemma settlements_iam (es : list Effect) :
  Forall (fun e => match e with
                   | IamListAttachedRolePolicies | IamDetachRolePolicy _
                   | IamListRolePolicies | IamDeleteRolePolicy _
                   | IamDeleteRole => True
                   | _ => False
                   end) es →
  settlements es = [] ∧ publishes es = [] ∧ acknowledged es = [].
Proof.
  induction 1 as [|e es He _ IH]; [done|].
  destruct IH as (H1 & H2 & H3).
  unfold settlements, publishes, acknowledged in *.
  destruct e; try done; simpl; by rewrite ?H1, ?H2, ?H3.
Qed.

(** A continuation inside [deleteRole] moves run [j] of [cleanup] to its
    next [await], makes calls of the IAM service only, and leaves everything
    else as it is. *)
Lemma deleteRole_resumes_frame (j : nat) (names : list string) (w w' : World) :
  deleteRole_resumes j names w = Some w' →
  ∃ (c : nat) (pc pc' : CleanupPc) (es : list Effect),
    cleanups w !! j = Some pc
    ∧ ((pc = ListingAttachedPolicies c ∧ pc' = DetachingPolicies c)
       ∨ (pc = DetachingPolicies c ∧ pc' = ListingRolePolicies c)
       ∨ (pc = ListingRolePolicies c ∧ pc' = DeletingRole c))
    ∧ Forall (fun e => match e with
                       | IamListAttachedRolePolicies | IamDetachRolePolicy _
                       | IamListRolePolicies | IamDeleteRolePolicy _
                       | IamDeleteRole => True
                       | _ => False
                       end) es
    ∧ w' = mkWorld (state w) (deferreds w) (callers w) (collectors w) (cancels w)
                   (<[j := pc']> (cleanups w)) (timers w) (uuids w) (effects w ++ es).
Proof.
  unfold deleteRole_resumes. intros H.
  destruct (cleanups w !! j) as [[ |c|c|c|c|c|c|c| | |]|] eqn:Hj; simplify_eq.
  - exists c, (ListingAttachedPolicies c), (DetachingPolicies c),
           (IamDetachRolePolicy <$> names).
    split; [done|]. split; [auto|]. split.
    { apply Forall_fmap. by apply Forall_true. }
    cbn [fst snd]. by rewrite emit_all_eq.
  - exists c, (DetachingPolicies c), (ListingRolePolicies c), [IamListRolePolicies].
    split; [done|]. split; [auto|]. split; [by apply Forall_singleton|]. done.
  - exists c, (ListingRolePolicies c), (DeletingRole c),
           ((IamDeleteRolePolicy <$> names) ++ [IamDeleteRole]).
    split; [done|]. split; [auto|]. split.
    { apply Forall_app. split; [|by apply Forall_singleton].
      apply Forall_fmap. by apply Forall_true. }
    cbn [fst snd]. rewrite emit_all_eq. unfold with_cleanups, emit. simpl. by rewrite <- app_assoc.
Qed.

Lemma deleteRole_resumes_Inv (j : nat) (names : list string) (w w' : World) :
  deleteRole_resumes j names w = Some w' → Inv w → Inv w'.
Proof.
  intros H HI.
  destruct (deleteRole_resumes_frame _ _ _ _ H) as (c & pc & pc' & es & _ & _ & Hes & ->).
  destruct (settlements_iam es Hes) as (H1 & H2 & _).
  eapply Inv_ext; [..|exact HI]; simpl; try done.
  - by rewrite settlements_app, H1, app_nil_r.
  - by rewrite publishes_app, H2, app_nil_r.
Qed.

(** Where each stage of [cleanup] leaves the function suspended. *)
Lemma cleanup_role_pc (c : nat) (w : World) :
  (cleanup_role c w).2 = ListingAttachedPolicies c
  ∨ (cleanup_role c w).2 = AwaitCancel c.
Proof. unfold cleanup_role. repeat case_match; simpl; auto. Qed.

Lemma cleanup_logGroup_pc (c : nat) (w : World) :
  (cleanup_logGroup c w).2 = DeletingLogGroup c
  ∨ (cleanup_logGroup c w).2 = ListingAttachedPolicies c
  ∨ (cleanup_logGroup c w).2 = AwaitCancel c.
Proof.
  unfold cleanup_logGroup. case_match; simpl; [auto|].
  destruct (cleanup_role_pc c w); auto.
Qed.

Lemma cleanup_function_pc (c : nat) (w : World) :
  (cleanup_function c w).2 = DeletingFunction c
  ∨ (cleanup_function c w).2 = DeletingLogGroup c
  ∨ (cleanup_function c w).2 = ListingAttachedPolicies c
  ∨ (cleanup_function c w).2 = AwaitCancel c.
Proof.
  unfold cleanup_function. case_match; simpl; [auto|].
  destruct (cleanup_logGroup_pc c w) as [?|[?|?]]; auto.
Qed.

Lemma before_await_start (c : nat) (pc : CleanupPc) :
  pc = DeletingFunction c ∨ pc = DeletingLogGroup c
  ∨ pc = ListingAttachedPolicies c ∨ pc = AwaitCancel c →
  EngineViews.before_await c pc.
Proof.
  unfold EngineViews.before_await. intros [-> | [-> | [-> | ->]]]; auto 10.
Qed.

(** The stage of [cleanup] that calls [cancelWithoutCleanup]: the new run
    is run [length (cancels w)], and the function is then suspended at a
    stage that names it. *)
Lemma cleanup_cancel_frame (w : World) :
  let w' := (cleanup_cancel w).1 in
  let c := length (cancels w) in
  resultCollectorPromise (state w') = resultCollectorPromise (state w)
  ∧ collectors w' = collectors w
  ∧ cleanups w' = cleanups w
  ∧ cancels w' = cancels w ++
      [match resultCollectorPromise (state w) with
       | Some k => AwaitCollector k
       | None => CancelReturned
       end]
  ∧ ((cleanup_cancel w).2 = DeletingFunction c
     ∨ (cleanup_cancel w).2 = DeletingLogGroup c
     ∨ (cleanup_cancel w).2 = ListingAttachedPolicies c
     ∨ (cleanup_cancel w).2 = AwaitCancel c).
Proof.
  simpl. unfold cleanup_cancel.
  destruct (cancelWithoutCleanup_frame w)
    as (_ & Hp & _ & _ & _ & Hco & Hcl & _ & _ & _ & Hcn & Hc & _).
  destruct (cancelWithoutCleanup w) as [w1 c]. simpl in *. subst c.
  destruct (cleanup_function_quiet (length (cancels w)) w1)
    as (-> & _ & _ & -> & -> & -> & _).
  repeat split; try done. apply cleanup_function_pc.
Qed.

Section WithJson.
Context {json : Json}.

(** One message of a batch: what [handle_message] does in each case. *)
Lemma handle_message_skipped (raw : list Message) (m : Message) (w : World) :
  nonempty (Body m) = None →
  handle_message raw m w = (emit (SqsDeleteMessage (ReceiptHandle m)) w, None).
Proof. intros H. unfold handle_message. by rewrite H. Qed.

Lemma handle_message_malformed (raw : list Message) (m : Message) (w : World) (text : string) :
  nonempty (Body m) = Some text → JSON_parse text = None →
  handle_message raw m w = (w, Some syntaxError).
Proof. intros H1 H2. unfold handle_message. by rewrite H1, H2. Qed.

Lemma with_table_id (w : World) : with_table (callResultPromises (state w)) w = w.
Proof. by destruct w as [[] ]. Qed.

Lemma handle_message_unmatched (raw : list Message) (m : Message) (w : World)
      (text : string) (ret : FunctionReturn) :
  nonempty (Body m) = Some text → JSON_parse text = Some ret →
  callResultPromises (state w) !! CallId ret = None →
  inherited (CallId ret) = false →
  handle_message raw m w =
  (emit (SqsDeleteMessage (ReceiptHandle m)) (emit (LogPromiseNotFound (CallId ret)) w),
   None).
Proof.
  intros H1 H2 H3 H4. unfold handle_message. rewrite H1, H2, H3, H4.
  by rewrite delete_id, with_table_id.
Qed.

Lemma handle_message_inherited (raw : list Message) (m : Message) (w : World)
      (text : string) (ret : FunctionReturn) :
  nonempty (Body m) = Some text → JSON_parse text = Some ret →
  callResultPromises (state w) !! CallId ret = None →
  inherited (CallId ret) = true →
  handle_message raw m w = (w, Some typeError).
Proof.
  intros H1 H2 H3 H4. unfold handle_message. rewrite H1, H2, H3, H4.
  by rewrite delete_id, with_table_id.
Qed.

Lemma handle_message_matched (raw : list Message) (m : Message) (w : World)
      (text : string) (ret : FunctionReturn) (d : nat) :
  nonempty (Body m) = Some text → JSON_parse text = Some ret →
  callResultPromises (state w) !! CallId ret = Some d →
  handle_message raw m w =
  (emit (SqsDeleteMessage (ReceiptHandle m))
     (resolve d (mkQueued ret raw)
        (with_table (delete (CallId ret) (callResultPromises (state w))) w)),
   None).
Proof. intros H1 H2 H3. unfold handle_message. by rewrite H1, H2, H3. Qed.

Lemma emit_TableInv (e : Effect) (w : World) :
  settlements [e] = [] → publishes [e] = [] → TableInv w → TableInv (emit e w).
Proof.
  intros Hs Hp. apply TableInv_ext; simpl; try done.
  - by rewrite settlements_app, Hs, app_nil_r.
  - by rewrite publishes_app, Hp, app_nil_r.
Qed.

Lemma handle_message_TableInv (raw : list Message) (m : Message) (w : World) :
  TableInv w → TableInv (handle_message raw m w).1.
Proof.
  intros HI.
  destruct (nonempty (Body m)) as [text|] eqn:Hb.
  2:{ rewrite handle_message_skipped by done. by apply emit_TableInv. }
  destruct (JSON_parse text) as [ret|] eqn:Hj.
  2:{ by erewrite handle_message_malformed. }
  destruct (callResultPromises (state w) !! CallId ret) as [d|] eqn:Ht.
  2:{ destruct (inherited (CallId ret)) eqn:Hin;
        [by erewrite handle_message_inherited|].
      erewrite handle_message_unmatched by done. simpl.
      by do 2 (apply emit_TableInv; [done..|]). }
  erewrite handle_message_matched by done. simpl.
  assert (Hpen := inv_pending w HI _ _ Ht).
  eapply (TableInv_settle w _ (CallId ret) d (Resolved (mkQueued ret raw)));
    try done; unfold resolve; simpl; rewrite Hpen; simpl; try done.
  - rewrite !settlements_app. simpl. by rewrite app_nil_r.
  - rewrite !publishes_app. simpl. by rewrite !app_nil_r.
Qed.

Lemma for_messages_TableInv (raw ms : list Message) (w : World) :
  TableInv w → TableInv (for_messages raw ms w).1.
Proof.
  revert w. induction ms as [|m ms IH]; intros w HI; simpl; [done|].
  pose proof (handle_message_TableInv raw m w HI) as H1.
  destruct (handle_message raw m w) as [w1 [err|]]; simpl in *; [done|].
  by apply IH.
Qed.

Lemma handle_message_frame (raw : list Message) (m : Message) (w : World) :
  let w' := (handle_message raw m w).1 in
  resultCollectorPromise (state w') = resultCollectorPromise (state w)
  ∧ useQueue (state w') = useQueue (state w)
  ∧ resources (state w') = resources (state w)
  ∧ callers w' = callers w
  ∧ collectors w' = collectors w
  ∧ cancels w' = cancels w
  ∧ cleanups w' = cleanups w
  ∧ timers w' = timers w
  ∧ uuids w' = uuids w.
Proof.
  unfold handle_message, resolve. simpl.
  repeat case_match; simplify_eq; simpl; done.
Qed.

Lemma for_messages_frame (raw ms : list Message) (w : World) :
  let w' := (for_messages raw ms w).1 in
  resultCollectorPromise (state w') = resultCollectorPromise (state w)
  ∧ useQueue (state w') = useQueue (state w)
  ∧ resources (state w') = resources (state w)
  ∧ callers w' = callers w
  ∧ collectors w' = collectors w
  ∧ cancels w' = cancels w
  ∧ cleanups w' = cleanups w
  ∧ timers w' = timers w
  ∧ uuids w' = uuids w.
Proof.
  revert w. induction ms as [|m ms IH]; intros w; simpl; [done|].
  pose proof (handle_message_frame raw m w) as H1. simpl in H1.
  destruct (handle_message raw m w) as [w1 [err|]]; simpl in *; [done|].
  destruct (IH w1) as (-> & -> & -> & -> & -> & -> & -> & -> & ->). done.
Qed.

Lemma responsifedFunc_TableInv (uuid : string) (w : World) :
  uuid ∉ uuids w → TableInv w → TableInv (responsifedFunc uuid w).
Proof.
  intros Hfresh HI. unfold responsifedFunc, enqueueCallRequest. simpl.
  destruct (useQueue (state w)).
  - set (w2 := with_table _ _).
    assert (HI2 : TableInv w2) by by eapply (TableInv_enqueue w w2 uuid).
    destruct (startResultCollectorIfNeeded_frame w2) as (Ht & _ & _ & _ & _ & _ & _ & _ & Hu).
    apply (TableInv_add_caller _ (mkCaller uuid (AwaitQueueResponse (length (deferreds w))))).
    + by apply startResultCollectorIfNeeded_TableInv.
    + rewrite Hu. simpl. apply elem_of_app. right. by apply list_elem_of_singleton.
    + simpl. rewrite Ht. simpl. by rewrite lookup_insert_eq.
  - apply (TableInv_add_caller (emit (LambdaInvoke uuid) (with_uuids (uuids w ++ [uuid]) w))
             (mkCaller uuid AwaitInvoke)); simpl; [| |done].
    + apply emit_TableInv; [done..|].
      destruct HI as [Hpen Hinj Huu Hcal Hnd Hset Hpub Hrej].
      split; simpl; try done.
      * intros id d Hl. apply elem_of_app. left. by eapply Huu.
      * intros i c Hi. destruct (Hcal i c Hi) as [Hin Hpc]. split; [|done].
        apply elem_of_app. by left.
      * intros id Hid. destruct (Hpub _ Hid). split; [done|]. apply elem_of_app. by left.
    + apply elem_of_app. right. by apply list_elem_of_singleton.
Qed.

Lemma responsifedFunc_LoopInv (uuid : string) (w : World) :
  LoopInv w → LoopInv (responsifedFunc uuid w).
Proof.
  intros HI. unfold responsifedFunc, enqueueCallRequest. simpl.
  destruct (useQueue (state w)).
  - eapply LoopInv_ext; [| |eapply startResultCollectorIfNeeded_LoopInv]; [done..|].
    by eapply LoopInv_ext; [| |exact HI].
  - by eapply LoopInv_ext; [| |exact HI].
Qed.

Lemma queue_response_settled_TableInv (i : nat) (w w' : World) :
  queue_response_settled i w = Some w' → TableInv w → TableInv w'.
Proof.
  unfold queue_response_settled. intros H HI.
  destruct (callers w !! i) as [[id [d| | | |]]|] eqn:Hi; try done.
  destruct (inv_caller w HI _ _ Hi) as [Hin Hpc]. simpl in *.
  destruct (deferreds w !! d) as [[|qr|err]|] eqn:Hd; simplify_eq.
  - assert (Hn : callResultPromises (state w) !! id = None).
    { destruct Hpc as [Hl|[Hl _]]; [|done].
      rewrite (inv_pending w HI _ _ Hl) in Hd. done. }
    eapply (TableInv_set_caller (emit (SnsPublish id) w)); [|exact Hi|done].
    by apply TableInv_publish.
  - by eapply TableInv_set_caller.
Qed.

Lemma publish_done_TableInv (i : nat) (failure : option JsError) (w w' : World) :
  publish_done i failure w = Some w' → TableInv w → TableInv w'.
Proof.
  unfold publish_done. intros H HI.
  destruct (callers w !! i) as [[id [d|qr| | |]]|] eqn:Hi; try done.
  destruct failure; simplify_eq; (eapply TableInv_set_caller; [done..|]); [done|].
  by destruct (respond _ _ _).
Qed.

Lemma invoke_done_TableInv (i : nat) (r : JsError + InvocationResponse) (w w' : World) :
  invoke_done i r w = Some w' → TableInv w → TableInv w'.
Proof.
  unfold invoke_done. intros H HI.
  destruct (callers w !! i) as [[id [d|qr| | |]]|] eqn:Hi; try done.
  destruct r; simplify_eq; (eapply TableInv_set_caller; [done..|]); [done|].
  repeat case_match; try done; by destruct (respond _ _ _).
Qed.

(** A step extends the lists of runs or moves one run that was not finished:
    a collector run that has returned or thrown stays as it is, and a run of
    [cancelWithoutCleanup] or [cleanup] moves only by its own continuation. *)
Lemma frame_collectors_app (ks l : list CollectorPc) :
  (∀ k pc, ks !! k = Some pc → running pc = false → (ks ++ l) !! k = Some pc)
  ∧ length ks ≤ length (ks ++ l).
Proof.
  split.
  - intros k pc Hk _. rewrite lookup_app_l; [done|]. by eapply lookup_lt_Some.
  - rewrite length_app. lia.
Qed.

Lemma frame_collectors_same (ks : list CollectorPc) :
  (∀ k pc, ks !! k = Some pc → running pc = false → ks !! k = Some pc)
  ∧ length ks ≤ length ks.
Proof. by split. Qed.

Lemma frame_collectors_insert (ks : list CollectorPc) (k0 : nat) (pc0 pc' : CollectorPc) :
  ks !! k0 = Some pc0 → running pc0 = true →
  (∀ k pc, ks !! k = Some pc → running pc = false →
           <[k0 := pc']> ks !! k = Some pc)
  ∧ length ks ≤ length (<[k0 := pc']> ks).
Proof.
  intros H0 Hrun. split.
  - intros k pc Hk Hpc. rewrite list_lookup_insert_ne; [done|].
    intros ->. rewrite H0 in Hk. simplify_eq. congruence.
  - by rewrite length_insert.
Qed.

Ltac keep_lookup :=
  let H := fresh in
  intros ? ? H; left; rewrite ?lookup_app_l; [exact H | by eapply lookup_lt_Some].

Lemma step_frame (a : Action) (w w' : World) :
  step a w = Some w' →
  ((∀ k pc, collectors w !! k = Some pc → running pc = false →
            collectors w' !! k = Some pc)
   ∧ length (collectors w) ≤ length (collectors w'))
  ∧ (∀ c pc, cancels w !! c = Some pc →
             cancels w' !! c = Some pc ∨ a = CollectorAwaited c)
  ∧ (∀ j pc, cleanups w !! j = Some pc →
             cleanups w' !! j = Some pc ∨ a = CleanupResumes j
             ∨ ∃ names, a = DeleteRoleResumes j names).
Proof.
  destruct a as [uuid|i|i failure|i r|k r|k| | |j| |j|j names]; cbn [step]; intros H.
  - case_bool_decide; simplify_eq.
    unfold responsifedFunc, enqueueCallRequest. simpl.
    destruct (useQueue (state w)); simpl.
    + rewrite startResultCollectorIfNeeded_eq.
      destruct (_ || _); simpl.
      * split; [apply frame_collectors_same|]. auto.
      * split; [apply frame_collectors_app|]. auto.
    + split; [apply frame_collectors_same|]. auto.
  - unfold queue_response_settled in H. repeat case_match; simplify_eq; simpl;
      (split; [apply frame_collectors_same|]); auto.
  - unfold publish_done in H. repeat case_match; simplify_eq; simpl;
      (split; [apply frame_collectors_same|]); auto.
  - unfold invoke_done in H.
    destruct (callers w !! i) as [[id []]|]; try done.
    destruct r; simplify_eq; simpl;
      (split; [apply frame_collectors_same|]); auto.
  - unfold receive_done in H.
    destruct (collectors w !! k) as [[]|] eqn:Hk; try done.
    destruct r as [err|Messages]; simplify_eq.
    + simpl. split; [by eapply frame_collectors_insert|]. auto.
    + destruct (for_messages_frame Messages Messages w)
        as (_ & _ & _ & _ & Hco & Hcn & Hcl & _).
      destruct (for_messages Messages Messages w) as [w1 [err|]];
        simpl in *; simplify_eq; simpl; rewrite Hco, Hcn, Hcl;
        (split; [by eapply frame_collectors_insert|]); auto.
  - unfold deletes_done, loop_head in H.
    destruct (collectors w !! k) as [[]|] eqn:Hk; try done.
    destruct (isEmpty _); simplify_eq; simpl;
      (split; [by eapply frame_collectors_insert|]); auto.
  - unfold timer_fires in H. destruct (timers w); simplify_eq.
    rewrite startResultCollectorIfNeeded_eq.
    destruct (_ || _); simpl.
    + split; [apply frame_collectors_same|]. auto.
    + split; [apply frame_collectors_app|]. auto.
  - simplify_eq.
    destruct (cancelWithoutCleanup_frame w)
      as (_ & _ & _ & _ & _ & Hco & Hcl & _ & _ & _ & Hcn & _).
    rewrite Hcl, Hco, Hcn. split; [apply frame_collectors_same|].
    split; [keep_lookup|auto].
  - unfold collector_awaited in H.
    destruct (cancels w !! j) as [[k| |]|] eqn:Hj; try done.
    assert (∀ pc', (∀ c pc, cancels w !! c = Some pc →
                     <[j := pc']> (cancels w) !! c = Some pc ∨ CollectorAwaited j = CollectorAwaited c)).
    { intros pc' c pc Hc. destruct (decide (c = j)) as [->|Hne]; [by right|].
      left. by rewrite list_lookup_insert_ne. }
    destruct (collectors w !! k) as [[]|]; simplify_eq; simpl;
      (split; [apply frame_collectors_same|]); auto.
  - simplify_eq. unfold cleanup.
    destruct (truthy (SNSLambdaSubscriptionArn (resources (state w)))); simpl.
    + split; [apply frame_collectors_same|].
      split; [auto|keep_lookup].
    + destruct (cleanup_cancel_frame w) as (_ & Hco & Hcl & Hcn & _).
      destruct (cleanup_cancel w) as [w1 pc]. simpl in *. rewrite Hco, Hcl, Hcn.
      split; [apply frame_collectors_same|].
      split; keep_lookup.
  - unfold cleanup_resumes in H.
    assert (Hcl : ∀ pc', (∀ j0 pc, cleanups w !! j0 = Some pc →
                     <[j := pc']> (cleanups w) !! j0 = Some pc
                     ∨ CleanupResumes j = CleanupResumes j0
                     ∨ ∃ names, CleanupResumes j = DeleteRoleResumes j0 names)).
    { intros pc' c pc Hc. destruct (decide (c = j)) as [->|Hne]; [right; by left|].
      left. by rewrite list_lookup_insert_ne. }
    destruct (cleanups w !! j) as [[ |c|c|c|c|c|c|c| | |]|] eqn:Hj; simplify_eq; simpl.
    + destruct (cleanup_cancel_frame w) as (_ & Hco & Hcl' & Hcn & _).
      rewrite Hco, Hcl', Hcn.
      split; [apply frame_collectors_same|].
      split; [keep_lookup|auto].
    + destruct (cleanup_logGroup_quiet c w) as (_ & _ & _ & -> & -> & -> & _).
      split; [apply frame_collectors_same|]. auto.
    + destruct (cleanup_role_quiet c w) as (_ & _ & _ & -> & -> & -> & _).
      split; [apply frame_collectors_same|]. auto.
    + split; [apply frame_collectors_same|]. auto.
    + destruct (cancels w !! c) as [[]|]; simplify_eq; simpl.
      * repeat case_match; simpl; (split; [apply frame_collectors_same|]); auto.
      * split; [apply frame_collectors_same|]. auto.
    + split; [apply frame_collectors_same|]. auto.
  - destruct (deleteRole_resumes_frame _ _ _ _ H) as (c & pc & pc' & es & _ & _ & _ & ->).
    simpl. split; [apply frame_collectors_same|]. split; [auto|].
    intros j0 pc0 Hj0. destruct (decide (j0 = j)) as [-> | Hne].
    + right. right. by exists names.
    + left. by rewrite list_lookup_insert_ne.
Qed.

(** The collector only removes entries. *)
Lemma handle_message_table_None (raw : list Message) (m : Message) (w : World) (id : string) :
  callResultPromises (state w) !! id = None →
  callResultPromises (state (handle_message raw m w).1) !! id = None.
Proof.
  intros Hn.
  destruct (nonempty (Body m)) as [text|] eqn:Hb.
  2:{ by rewrite handle_message_skipped. }
  destruct (JSON_parse text) as [ret|] eqn:Hj.
  2:{ by erewrite handle_message_malformed. }
  destruct (callResultPromises (state w) !! CallId ret) as [d|] eqn:Ht.
  2:{ destruct (inherited (CallId ret)) eqn:Hin;
        [by erewrite handle_message_inherited | by erewrite handle_message_unmatched]. }
  erewrite handle_message_matched by done. unfold resolve. simpl.
  assert (Hdel : delete (CallId ret) (callResultPromises (state w)) !! id = None)
    by (apply lookup_delete_None; by right).
  by destruct (deferreds w !! d) as [[]|].
Qed.

Lemma for_messages_table_None (raw ms : list Message) (w : World) (id : string) :
  callResultPromises (state w) !! id = None →
  callResultPromises (state (for_messages raw ms w).1) !! id = None.
Proof.
  revert w. induction ms as [|m ms IH]; intros w Hn; simpl; [done|].
  pose proof (handle_message_table_None raw m w id Hn) as H1.
  destruct (handle_message raw m w) as [w1 [err|]]; simpl in *; [done|].
  by apply IH.
Qed.



Lemma receive_done_Inv (k : nat) (r : JsError + list Message) (w w' : World) :
  receive_done k r w = Some w' → Inv w → Inv w'.
Proof.
  unfold receive_done. intros H [HT HL].
  destruct (collectors w !! k) as [[]|] eqn:Hk; try done.
  destruct r as [err|Messages]; simplify_eq.
  - split; [by eapply TableInv_ext; [..|exact HT]|].
    by eapply LoopInv_set_collector.
  - pose proof (for_messages_TableInv Messages Messages w HT) as HT1.
    destruct (for_messages_frame Messages Messages w)
      as (Hp & _ & _ & _ & Hco & _).
    destruct (for_messages Messages Messages w) as [w1 [err|]]; simpl in *; simplify_eq.
    + split; [by eapply TableInv_ext; [..|exact HT1]|].
      eapply LoopInv_set_collector; [|by rewrite Hco|done].
      by eapply LoopInv_ext; [..|exact HL].
    + split; [by eapply TableInv_ext; [..|exact HT1]|].
      eapply LoopInv_set_collector; [|by rewrite Hco|done].
      by eapply LoopInv_ext; [..|exact HL].
Qed.

Lemma deletes_done_Inv (k : nat) (w w' : World) :
  deletes_done k w = Some w' → Inv w → Inv w'.
Proof.
  unfold deletes_done. intros H HI.
  destruct (collectors w !! k) as [[]|] eqn:Hk; try done.
  assert (Hne : Deleting ≠ Exited) by done.
  pose proof (loop_head_Inv k Deleting w HI Hk Hne) as H1.
  destruct (loop_head w) as [w1 pc]. by simplify_eq.
Qed.

Lemma timer_fires_Inv (w w' : World) : timer_fires w = Some w' → Inv w → Inv w'.
Proof.
  unfold timer_fires. intros H HI. destruct (timers w) as [|n]; simplify_eq.
  apply startResultCollectorIfNeeded_Inv. by eapply Inv_ext; [..|exact HI].
Qed.

(** Every turn of the event loop keeps the invariant. *)
Lemma step_Inv (a : Action) (w w' : World) : step a w = Some w' → Inv w → Inv w'.
Proof.
  destruct a; simpl; intros H HI.
  - case_bool_decide as Hfresh; simplify_eq. destruct HI as [HT HL].
    split; [by apply responsifedFunc_TableInv | by apply responsifedFunc_LoopInv].
  - destruct HI as [HT HL]. split; [by eapply queue_response_settled_TableInv|].
    unfold queue_response_settled in H.
    repeat case_match; simplify_eq; by eapply LoopInv_ext; [..|exact HL].
  - destruct HI as [HT HL]. split; [by eapply publish_done_TableInv|].
    unfold publish_done in H.
    repeat case_match; simplify_eq; by eapply LoopInv_ext; [..|exact HL].
  - destruct HI as [HT HL]. split; [by eapply invoke_done_TableInv|].
    unfold invoke_done in H.
    repeat case_match; simplify_eq; by eapply LoopInv_ext; [..|exact HL].
  - by eapply receive_done_Inv.
  - by eapply deletes_done_Inv.
  - by eapply timer_fires_Inv.
  - simplify_eq. by apply cancelWithoutCleanup_Inv.
  - by eapply collector_awaited_Inv.
  - simplify_eq. by apply cleanup_Inv.
  - by eapply cleanup_resumes_Inv.
  - by eapply deleteRole_resumes_Inv.
Qed.

Lemma initial_Inv (res : AWSResources) (queue : bool) : Inv (initial res queue).
Proof.
  split; [split; simpl|by intros k pc].
  - intros id d. by rewrite lookup_empty.
  - intros id1 id2 d. by rewrite lookup_empty.
  - intros id d. by rewrite lookup_empty.
  - by intros i c.
  - apply NoDup_nil_2.
  - by intros d ?%elem_of_nil.
  - by intros id ?%elem_of_nil.
  - by intros d err.
Qed.

Lemma run_Inv (tr : list Action) (w w' : World) : run tr w = Some w' → Inv w → Inv w'.
Proof.
  revert w. induction tr as [|a tr IH]; intros w; simpl; [by intros [= ->]|].
  destruct (step a w) as [w1|] eqn:Hs; [|done].
  intros H HI. eapply IH; [done|]. by eapply step_Inv.
Qed.

Lemma reachable_Inv (res : AWSResources) (queue : bool) (w : World) :
  reachable res queue w → Inv w.
Proof. intros [tr H]. eapply run_Inv; [done|]. apply initial_Inv. Qed.

(** *** The order of the calls *)

Lemma CallOrder_ext (w w' : World) :
  useQueue (state w') = useQueue (state w) →
  length (deferreds w') = length (deferreds w) →
  uuids w' = uuids w →
  (∀ id d, callResultPromises (state w') !! id = Some d →
           callResultPromises (state w) !! id = Some d) →
  CallOrder w → CallOrder w'.
Proof.
  intros Hq Hd Hu Ht [Hlen Hpos]. split; rewrite ?Hq, ?Hd, ?Hu; [done|].
  intros id d Hid. by apply Hpos, Ht.
Qed.

Lemma CallOrder_same (w w' : World) :
  state w' = state w → deferreds w' = deferreds w → uuids w' = uuids w →
  CallOrder w → CallOrder w'.
Proof. intros Hs Hd Hu. apply CallOrder_ext; by rewrite ?Hs, ?Hd. Qed.

Lemma reject_all_length (ds : list nat) (w : World) :
  length (deferreds (reject_all ds w)) = length (deferreds w).
Proof.
  revert w. induction ds as [|d ds IH]; intros w; simpl; [done|].
  rewrite IH. unfold reject. simpl.
  destruct (deferreds w !! d) as [[]|]; simpl; by rewrite ?length_insert.
Qed.

Lemma cancelWithoutCleanup_CallOrder (w : World) :
  CallOrder w → CallOrder (cancelWithoutCleanup w).1.
Proof.
  destruct (cancelWithoutCleanup_frame w)
    as (Ht & _ & Hq & _ & _ & _ & _ & _ & Hu & _).
  apply CallOrder_ext; [done| |done|].
  - unfold cancelWithoutCleanup. simpl. by rewrite reject_all_length.
  - intros id d. by rewrite Ht, lookup_empty.
Qed.

Lemma cleanup_cancel_CallOrder (w : World) :
  CallOrder w → CallOrder (cleanup_cancel w).1.
Proof.
  intros HC. unfold cleanup_cancel.
  pose proof (cancelWithoutCleanup_CallOrder w HC) as H1.
  destruct (cancelWithoutCleanup w) as [w1 c]. simpl in *.
  destruct (cleanup_function_quiet c w1) as (Hs & Hd & _ & _ & _ & _ & _ & Hu).
  by eapply CallOrder_same; [..|exact H1].
Qed.

Lemma handle_message_order (raw : list Message) (m : Message) (w : World) :
  length (deferreds (handle_message raw m w).1) = length (deferreds w)
  ∧ ∀ id d, callResultPromises (state (handle_message raw m w).1) !! id = Some d →
            callResultPromises (state w) !! id = Some d.
Proof.
  destruct (nonempty (Body m)) as [text|] eqn:Hb.
  2:{ by rewrite handle_message_skipped. }
  destruct (JSON_parse text) as [ret|] eqn:Hj.
  2:{ by erewrite handle_message_malformed. }
  destruct (callResultPromises (state w) !! CallId ret) as [d0|] eqn:Ht.
  2:{ destruct (inherited (CallId ret)) eqn:Hin;
        [by erewrite handle_message_inherited | by erewrite handle_message_unmatched]. }
  erewrite handle_message_matched by done. unfold resolve. simpl.
  destruct (deferreds w !! d0) as [[]|]; simpl; rewrite ?length_insert;
    (split; [done|]); by intros id d [_ ?]%lookup_delete_Some.
Qed.

Lemma for_messages_order (raw ms : list Message) (w : World) :
  length (deferreds (for_messages raw ms w).1) = length (deferreds w)
  ∧ ∀ id d, callResultPromises (state (for_messages raw ms w).1) !! id = Some d →
            callResultPromises (state w) !! id = Some d.
Proof.
  revert w. induction ms as [|m ms IH]; intros w; simpl; [done|].
  pose proof (handle_message_order raw m w) as [H1 H2].
  destruct (handle_message raw m w) as [w1 [err|]]; simpl in *; [done|].
  destruct (IH w1) as [H3 H4]. split; [by rewrite H3|].
  intros id d Hid. by apply H2, H4.
Qed.

(** Every turn of the event loop keeps the order of the calls. *)
Lemma step_CallOrder (a : Action) (w w' : World) :
  step a w = Some w' → CallOrder w → CallOrder w'.
Proof.
  destruct a as [uuid|i|i failure|i r|k r|k| | |j| |j|j names]; cbn [step]; intros H HC.
  - case_bool_decide as Hfresh; simplify_eq.
    destruct HC as [Hlen Hpos].
    unfold responsifedFunc, enqueueCallRequest. simpl.
    destruct (useQueue (state w)) eqn:Hq; simpl.
    + set (w2 := with_table _ _).
      destruct (startResultCollectorIfNeeded_frame w2)
        as (Ht & Hq' & _ & Hd & _ & _ & _ & _ & Hu).
      split; simpl; rewrite ?Ht, ?Hq', ?Hd, ?Hu; subst w2; simpl.
      * intros _. rewrite !length_app, Hlen by done. done.
      * intros id d [[-> <-] | [Hne Hid]]%lookup_insert_Some.
        -- rewrite Hlen by done. by apply list_lookup_middle.
        -- rewrite lookup_app_l; [by apply Hpos|].
           eapply lookup_lt_Some. by apply Hpos.
    + split; simpl; [by rewrite Hq|].
      intros id d Hid. rewrite lookup_app_l; [by apply Hpos|].
      eapply lookup_lt_Some. by apply Hpos.
  - unfold queue_response_settled in H.
    repeat case_match; simplify_eq; by eapply CallOrder_same; [..|exact HC].
  - unfold publish_done in H.
    repeat case_match; simplify_eq; by eapply CallOrder_same; [..|exact HC].
  - unfold invoke_done in H.
    destruct (callers w !! i) as [[id' []]|]; try done.
    destruct r; simplify_eq; by eapply CallOrder_same; [..|exact HC].
  - unfold receive_done in H.
    destruct (collectors w !! k) as [[]|] eqn:Hk; try done.
    destruct r as [err|Messages]; simplify_eq;
      [by eapply CallOrder_same; [..|exact HC]|].
    destruct (for_messages_order Messages Messages w) as [Hd Ht].
    destruct (for_messages_frame Messages Messages w)
      as (_ & Hq & _ & _ & _ & _ & _ & _ & Hu).
    destruct (for_messages Messages Messages w) as [w1 [err|]];
      simpl in *; simplify_eq; by eapply CallOrder_ext; [..|exact HC].
  - unfold deletes_done, loop_head in H.
    destruct (collectors w !! k) as [[]|] eqn:Hk; try done.
    destruct (isEmpty _); simplify_eq; by eapply CallOrder_ext; [..|exact HC].
  - unfold timer_fires in H. destruct (timers w); simplify_eq.
    destruct (startResultCollectorIfNeeded_frame (with_timers n w))
      as (Ht & Hq & _ & Hd & _ & _ & _ & _ & Hu).
    eapply CallOrder_ext; [..|exact HC]; rewrite ?Ht, ?Hq, ?Hd, ?Hu; done.
  - simplify_eq. by apply cancelWithoutCleanup_CallOrder.
  - unfold collector_awaited in H.
    repeat case_match; simplify_eq; by eapply CallOrder_same; [..|exact HC].
  - simplify_eq. unfold cleanup.
    destruct (truthy (SNSLambdaSubscriptionArn (resources (state w))));
      [by eapply CallOrder_same; [..|exact HC]|].
    pose proof (cleanup_cancel_CallOrder w HC) as H1.
    destruct (cleanup_cancel w) as [w1 pc]. by eapply CallOrder_same; [..|exact H1].
  - unfold cleanup_resumes in H.
    destruct (cleanups w !! j) as [[ |c|c|c|c|c|c|c| | |]|] eqn:Hj; simplify_eq;
      cbn [fst snd].
    + pose proof (cleanup_cancel_CallOrder w HC) as H1.
      destruct (cleanup_cancel w) as [w1 pc]. by eapply CallOrder_same; [..|exact H1].
    + destruct (cleanup_logGroup_quiet c w) as (Hs & Hd & _ & _ & _ & _ & _ & Hu).
      by eapply CallOrder_same; [..|exact HC].
    + destruct (cleanup_role_quiet c w) as (Hs & Hd & _ & _ & _ & _ & _ & Hu).
      by eapply CallOrder_same; [..|exact HC].
    + by eapply CallOrder_same; [..|exact HC].
    + destruct (cancels w !! c) as [[]|]; simplify_eq; cbn [fst snd].
      * destruct (cleanup_queues_quiet w) as (Hs & Hd & _ & _ & _ & _ & _ & Hu).
        by eapply CallOrder_same; [..|exact HC].
      * by eapply CallOrder_same; [..|exact HC].
    + by eapply CallOrder_same; [..|exact HC].
  - destruct (deleteRole_resumes_frame _ _ _ _ H) as (c & pc & pc' & es & _ & _ & _ & ->).
    by eapply CallOrder_same; [..|exact HC].
Qed.

Lemma reachable_CallOrder (res : AWSResources) (queue : bool) (w : World) :
  reachable res queue w → CallOrder w.
Proof.
  intros [tr Htr].
  assert (H0 : CallOrder (initial res queue)).
  { split; [done|]. intros id d. simpl. by rewrite lookup_empty. }
  revert H0 Htr. generalize (initial res queue).
  induction tr as [|a tr IH]; intros w0 H0; simpl; [by intros [= <-]|].
  destruct (step a w0) as [w1|] eqn:Hs; [|done].
  intros Htr. eapply IH; [|exact Htr]. by eapply step_CallOrder.
Qed.

(** *** A drain waits for the collector *)

Lemma Drained_ext (n : nat) (w w' : World) :
  collectors w' = collectors w → Drained n w → Drained n w'.
Proof. unfold Drained. by intros ->. Qed.

Lemma CancelOk_ext (n c : nat) (w w' : World) :
  cancels w' = cancels w → collectors w' = collectors w →
  CancelOk n c w → CancelOk n c w'.
Proof. unfold CancelOk, Drained. by intros -> ->. Qed.

Lemma Drained_step (n : nat) (a : Action) (w w' : World) :
  step a w = Some w' → Drained n w → Drained n w'.
Proof.
  intros [[Hex _] _]%step_frame HD k Hk. by apply Hex; [apply HD|].
Qed.

Lemma CancelOk_step (n c : nat) (a : Action) (w w' : World) :
  step a w = Some w' → CancelOk n c w → CancelOk n c w'.
Proof.
  intros Hstep. pose proof (step_frame _ _ _ Hstep) as [[Hex _] [Hcn _]].
  unfold CancelOk. destruct (cancels w !! c) as [pc|] eqn:Hc; [|done].
  destruct (Hcn _ _ Hc) as [-> | ->].
  - destruct pc as [k| |]; [|by eapply Drained_step|done].
    intros H k' Hk' Hne. by apply Hex; [apply H|].
  - cbn [step] in Hstep. unfold collector_awaited in Hstep. rewrite Hc in Hstep.
    destruct pc as [k| |]; try done.
    destruct (collectors w !! k) as [[]|] eqn:Hk; simplify_eq; simpl;
      rewrite list_lookup_insert_eq by (by eapply lookup_lt_Some); [|done].
    intros H k' Hk'. simpl. destruct (decide (k' = k)) as [->|Hne]; [done|].
    by apply H.
Qed.

(** Right after the synchronous part of [cancelWithoutCleanup]: the new run
    waits for the only collector run that has not returned, if there is
    one. *)
Lemma CancelOk_start (n : nat) (w w' : World) :
  LoopInv w → n ≤ length (collectors w) →
  collectors w' = collectors w →
  cancels w' = cancels w ++
      [match resultCollectorPromise (state w) with
       | Some k => AwaitCollector k
       | None => CancelReturned
       end] →
  CancelOk n (length (cancels w)) w'.
Proof.
  intros HL Hn Hco Hcn. unfold CancelOk, Drained.
  rewrite Hcn, Hco, lookup_app_r, Nat.sub_diag by done. simpl.
  assert (Hall : ∀ k', k' < n →
            collectors w !! k' = Some Exited
            ∨ resultCollectorPromise (state w) = Some k').
  { intros k' Hk'.
    destruct (lookup_lt_is_Some_2 (collectors w) k') as [pc Hpc]; [lia|].
    destruct pc; [right|right|by left|right]; by eapply HL. }
  destruct (resultCollectorPromise (state w)) as [k|].
  - intros k' Hk' Hne. destruct (Hall k' Hk') as [?|[= ?]]; done.
  - intros k' Hk'. by destruct (Hall k' Hk').
Qed.

Lemma CleanupOk_step (n j : nat) (a : Action) (w w' : World) :
  LoopInv w → n ≤ length (collectors w) →
  step a w = Some w' → CleanupOk n j w → CleanupOk n j w'.
Proof.
  intros HL Hn Hstep. pose proof (step_frame _ _ _ Hstep) as [_ [_ Hcl]].
  unfold CleanupOk. destruct (cleanups w !! j) as [pc|] eqn:Hj; [|done].
  destruct (Hcl _ _ Hj) as [-> | [-> | [names ->]]].
  - destruct pc; try done;
      first [by eapply CancelOk_step | by eapply Drained_step].
  - cbn [step] in Hstep. unfold cleanup_resumes in Hstep. rewrite Hj in Hstep.
    assert (Hjlt : j < length (cleanups w)) by by eapply lookup_lt_Some.
    destruct pc as [ |c|c|c|c|c|c|c| | |]; simplify_eq; simpl.
    + destruct (cleanup_cancel_frame w) as (Hp & Hco & Hcl' & Hcn & Hpc).
      rewrite list_lookup_insert_eq by by rewrite Hcl'.
      assert (CancelOk n (length (cancels w)) (cleanup_cancel w).1) as HC
        by by apply (CancelOk_start n w).
      intros _.
      destruct Hpc as [Hpc|[Hpc|[Hpc|Hpc]]]; rewrite Hpc;
        cbn beta iota; by eapply CancelOk_ext; [..|exact HC].
    + destruct (cleanup_logGroup_quiet c w) as (_ & _ & _ & Hco & Hcn & Hcl' & _).
      rewrite list_lookup_insert_eq by by rewrite Hcl'.
      intros HC.
      destruct (cleanup_logGroup_pc c w) as [Hpc|[Hpc|Hpc]]; rewrite Hpc;
        cbn beta iota; by eapply CancelOk_ext; [..|exact HC].
    + destruct (cleanup_role_quiet c w) as (_ & _ & _ & Hco & Hcn & Hcl' & _).
      rewrite list_lookup_insert_eq by by rewrite Hcl'.
      intros HC.
      destruct (cleanup_role_pc c w) as [Hpc|Hpc]; rewrite Hpc;
        cbn beta iota; by eapply CancelOk_ext; [..|exact HC].
    + by rewrite list_lookup_insert_eq.
    + unfold CancelOk.
      destruct (cancels w !! c) as [[]|] eqn:Hc; simplify_eq; simpl.
      * intros HD.
        destruct (truthy (ResponseQueueUrl (resources (state w)))),
                 (truthy (RequestTopicArn (resources (state w)))); simpl;
          by rewrite list_lookup_insert_eq.
      * by rewrite list_lookup_insert_eq.
    + by rewrite list_lookup_insert_eq.
  - cbn [step] in Hstep.
    destruct (deleteRole_resumes_frame _ _ _ _ Hstep)
      as (c & pc0 & pc' & es & Hj' & Hpc & _ & ->).
    rewrite Hj in Hj'. injection Hj' as <-.
    simpl. rewrite list_lookup_insert_eq by (by eapply lookup_lt_Some).
    destruct Hpc as [[-> ->] | [[-> ->] | [-> ->]]]; intros HC;
      by eapply CancelOk_ext; [..|exact HC].
Qed.

Lemma run_frame (tr : list Action) (w w' : World) :
  run tr w = Some w' → length (collectors w) ≤ length (collectors w').
Proof.
  revert w. induction tr as [|a tr IH]; intros w; simpl; [by intros [= ->]|].
  destruct (step a w) as [w1|] eqn:Hs; [|done].
  intros H. apply step_frame in Hs as [[_ Hlen] _]. specialize (IH _ H). lia.
Qed.

Lemma CancelOk_run (n c : nat) (tr : list Action) (w w' : World) :
  run tr w = Some w' → CancelOk n c w → CancelOk n c w'.
Proof.
  revert w. induction tr as [|a tr IH]; intros w; simpl; [by intros [= ->]|].
  destruct (step a w) as [w1|] eqn:Hs; [|done].
  intros H HC. eapply IH; [done|]. by eapply CancelOk_step.
Qed.

Lemma CleanupOk_run (n j : nat) (tr : list Action) (w w' : World) :
  run tr w = Some w' → Inv w → n ≤ length (collectors w) →
  CleanupOk n j w → CleanupOk n j w'.
Proof.
  revert w. induction tr as [|a tr IH]; intros w; simpl; [by intros [= ->]|].
  destruct (step a w) as [w1|] eqn:Hs; [|done].
  intros H HI Hn HC. eapply IH; [done|by eapply step_Inv| |].
  - apply step_frame in Hs as [[_ Hlen] _]. lia.
  - destruct HI. by eapply CleanupOk_step.
Qed.

End WithJson.

End EngineFacts.

Module ExampleFacts.
Import Engine EngineExamples.

Lemma after_call_reachable :
  reachable (json := example_json) example_resources true after_call.
Proof. exists [Call "abc"%string]. vm_compute. reflexivity. Qed.

Lemma after_response_reachable :
  reachable (json := example_json) example_resources true after_response.
Proof.
  exists [Call "abc"%string; ReceiveDone 0 (inr [m_abc])]. vm_compute. reflexivity.
Qed.

End ExampleFacts.

(* ===================================================================== *)
(** * The claims about the queue engine *)
(* ===================================================================== *)

Module EngineClaims.
Import Engine EngineFacts EngineExamples ExampleFacts.

(** C1. On the queue path [responsifedFunc] registers the deferred and then
    awaits its promise before it calls [sns.publish]: after a call the entry
    is in the table, nothing has been published, and the caller cannot go on
    while the promise is pending; the request is published only after a
    response for the call has been collected, when the entry is already
    gone from the table. *)
Theorem publish_is_issued_only_after_the_response :
  callResultPromises (state after_call) !! "abc"%string = Some 0
  ∧ deferreds after_call !! 0 = Some Pending
  ∧ publishes (effects after_call) = []
  ∧ step (json := example_json) (QueueResponseSettled 0) after_call = None
  ∧ step (json := example_json) (PublishDone 0 None) after_call = None
  ∧ ∃ w, step (json := example_json) (QueueResponseSettled 0) after_response = Some w
         ∧ effects w = [SqsReceiveMessage; DeferredResolve 0;
                        SqsDeleteMessage "receipt-1"; SnsPublish "abc"]
         ∧ callResultPromises (state w) !! "abc"%string = None.
Proof.
  repeat split; try (vm_compute; reflexivity).
  eexists. split; [vm_compute; reflexivity|].
  split; vm_compute; reflexivity.
Qed.

(** Once the request of a call has been published, the table has no entry
    for it. *)
Lemma published_call_has_no_entry
  {json : Json} (res : AWSResources) (queue : bool) (w : World) (id : string) :
  reachable res queue w → id ∈ publishes (effects w) →
  callResultPromises (state w) !! id = None.
Proof.
  intros Hreach Hid. destruct (reachable_Inv _ _ _ Hreach) as [HT _].
  by apply (inv_published w HT).
Qed.






(** C5, as stated, fails: the loop does exit because the table is empty.
    After the only pending call has been answered, the collector finishes
    its deletes, finds the table empty and returns. *)
Lemma collector_exits_on_empty_table :
  ¬ (∀ (w w' : World) (k : nat),
       reachable (json := example_json) example_resources true w →
       collectors w !! k = Some Deleting →
       isEmpty (callResultPromises (state w)) = true →
       step (json := example_json) (DeletesDone k) w = Some w' →
       ∃ pc, collectors w' !! k = Some pc ∧ running pc = true).
Proof.
  intros H.
  destruct (H after_response
              (default start (step (json := example_json) (DeletesDone 0) after_response))
              0 after_response_reachable) as (pc & Hpc & Hrun);
    try (vm_compute; reflexivity).
  vm_compute in Hpc. by simplify_eq.
Qed.

(** C6. When [sns.publish] rejects, the call fails at once with that error:
    the caller's promise is rejected with it, and the table holds no entry
    for the call (the entry was removed when the response was collected,
    before the request was published). *)
Theorem publish_failure_fails_the_call
  {json : Json} (res : AWSResources) (queue : bool) (w : World)
  (i : nat) (id : string) (queueResponse : QueuedResponse) (err : JsError) :
  reachable res queue w →
  callers w !! i = Some (mkCaller id (AwaitPublish queueResponse)) →
  ∃ w', step (PublishDone i (Some err)) w = Some w'
        ∧ callers w' !! i = Some (mkCaller id (CallThrew err))
        ∧ callResultPromises (state w') !! id = None
        ∧ callResultPromises (state w') = callResultPromises (state w)
        ∧ deferreds w' = deferreds w.
Proof.
  intros Hreach Hi. destruct (reachable_Inv _ _ _ Hreach) as [HT _].
  destruct (inv_caller w HT _ _ Hi) as [_ Hn]. simpl in Hn.
  cbn [step]. unfold publish_done. rewrite Hi.
  eexists. split; [done|]. simpl.
  rewrite list_lookup_insert_eq by by eapply lookup_lt_Some. done.
Qed.

Lemma publish_failure_fails_the_call_witness :
  ∃ w', step (json := example_json) (PublishDone 0 (Some publish_error)) after_publish
        = Some w'
        ∧ callers w' !! 0 = Some (mkCaller "abc" (CallThrew publish_error))
        ∧ callResultPromises (state w') !! "abc"%string = None
        ∧ callResultPromises (state w') = callResultPromises (state after_publish)
        ∧ deferreds w' = deferreds after_publish.
Proof.
  apply (publish_failure_fails_the_call (json := example_json) example_resources true
           after_publish 0 "abc" (mkQueued return_abc [m_abc]) publish_error).
  - exists [Call "abc"%string; ReceiveDone 0 (inr [m_abc]); QueueResponseSettled 0].
    vm_compute. reflexivity.
  - vm_compute. reflexivity.
Defined.

(** C7, as stated, fails: the drain publishes nothing.  With call [abc]
    pending, all that [cancelWithoutCleanup] adds to the effects is the
    rejection of the call's deferred. *)
Lemma drain_publishes_no_stop_message :
  ¬ (∀ w : World,
       reachable (json := example_json) example_resources true w →
       ∃ e, e ∈ drop (length (effects w)) (effects (cancelWithoutCleanup w).1)
            ∧ settlements [e] = []).
Proof.
  intros H. destruct (H after_call after_call_reachable) as (e & He & Hs).
  vm_compute in He. apply list_elem_of_singleton in He as ->. done.
Qed.

(** C7, amended. [cancelWithoutCleanup] sends no message and sets no mark:
    it replaces the table by an empty one, rejects the deferreds that were
    in it (its only effects) in the order of [Object.keys], which lists
    every own key once, array indices first and then the other keys in the
    order in which they were added, that is, in a reachable state, in the
    order in which the calls were made (the deferred of an entry has the
    number of its call); it then waits for the collector promise when one
    is set, resuming only once that collector run has returned or thrown;
    on an engine with an empty table and no collector promise it returns at
    once and changes nothing.  In the later revision [stop] calls
    [cloudqueue.stop] only when a queue state exists, then asks for the log
    retention policy and waits for the garbage collector if there is one. *)
Theorem drain_empties_table_and_awaits_collector {json : Json} (w : World) :
  let w1 := (cancelWithoutCleanup w).1 in
  let j := (cancelWithoutCleanup w).2 in
  effects w1 =
    effects w ++ (DeferredReject <$> (Object_entries (callResultPromises (state w))).*2)
  ∧ Object_entries (callResultPromises (state w))
    ≡ₚ map_to_list (callResultPromises (state w))
  ∧ StronglySorted key_precedes (Object_entries (callResultPromises (state w)))
  ∧ (∀ (res : AWSResources) (queue : bool),
       reachable res queue w →
       ∀ id d, callResultPromises (state w) !! id = Some d → uuids w !! d = Some id)
  ∧ publishes (effects w1) = publishes (effects w)
  ∧ state w1 = mkState (resources (state w)) (useQueue (state w)) ∅
                       (resultCollectorPromise (state w))
  ∧ cancels w1 !! j =
      Some (match resultCollectorPromise (state w) with
            | Some k => AwaitCollector k
            | None => CancelReturned
            end)
  ∧ (∀ (w2 w3 : World) (k : nat),
       cancels w2 !! j = Some (AwaitCollector k) →
       collector_awaited j w2 = Some w3 →
       ∃ pc, collectors w2 !! k = Some pc ∧ running pc = false)
  ∧ (callResultPromises (state w) = ∅ → resultCollectorPromise (state w) = None →
     w1 = with_cancels (cancels w ++ [CancelReturned]) w)
  ∧ (∀ st : Later.StopState,
       Later.stop st None None =
       ((if Later.queueState st then [Later.CloudqueueStop] else [])
          ++ [Later.PutRetentionPolicy (Later.stop_FunctionName st)]
          ++ (if Later.gcPromise st then [Later.AwaitGcPromise] else []),
        Later.StopReturned)).
Proof.
  intros w1 j. subst w1 j.
  destruct (cancelWithoutCleanup_frame w)
    as (Ht & Hp & Hq & Hr & _ & _ & _ & _ & _ & Hef & Hcn & Hj & _).
  split; [exact Hef|].
  split; [apply merge_sort_Permutation|].
  split; [apply Object_entries_sorted|]. split.
  { intros res queue Hreach. by apply (reachable_CallOrder res queue). }
  split.
  { by rewrite Hef, publishes_app, publishes_rejects, app_nil_r. }
  split.
  { destruct (state (cancelWithoutCleanup w).1) eqn:E. simpl in *. by subst. }
  split.
  { by rewrite Hj, Hcn, lookup_app_r, Nat.sub_diag. }
  split.
  { intros w2 w3 k Hk. unfold collector_awaited. rewrite Hj in Hk. rewrite Hj, Hk.
    destruct (collectors w2 !! k) as [[]|]; try done; by eexists. }
  split.
  { intros Hempty Hnone. unfold cancelWithoutCleanup.
    rewrite Hempty, in_key_order_empty. simpl. rewrite Hnone.
    destruct w as [[] ]. simpl in *. by subst. }
  intros st. unfold Later.stop.
  by destruct (Later.queueState st), (Later.gcPromise st).
Qed.

(** Calls made in the order [b], [a] are rejected in that order, and a call
    whose identifier is an array index is rejected ahead of them. *)
Example drain_rejects_in_key_order :
  let w := default start
             (run (json := example_json)
                [Call "b"%string; Call "a"%string; Call "7"%string] start) in
  callResultPromises (state w) !! "b"%string = Some 0
  ∧ callResultPromises (state w) !! "a"%string = Some 1
  ∧ callResultPromises (state w) !! "7"%string = Some 2
  ∧ drop (length (effects w)) (effects (cancelWithoutCleanup w).1)
    = [DeferredReject 2; DeferredReject 0; DeferredReject 1].
Proof. vm_compute. repeat split; reflexivity. Qed.

(** C4. In every reachable state, [cancelWithoutCleanup] rejects the
    deferred of every call in the table with the cancellation error and
    leaves the table empty.  A deferred is rejected only by this error (a
    failure of the remote function arrives as a resolved response), and a
    caller that was waiting resumes by throwing it.  The drain returns only
    after every collector run that existed when it was called has returned,
    and so does [cleanup]; a run that has returned stays returned and takes
    no further step, and the zero-delay timer it left does nothing while
    the table is empty. *)
Theorem drain_rejects_pending_calls_and_waits
  {json : Json} (res : AWSResources) (queue : bool) (w : World) :
  reachable res queue w →
  let w1 := (cancelWithoutCleanup w).1 in
  let j := (cancelWithoutCleanup w).2 in
  (∀ id d, callResultPromises (state w) !! id = Some d →
           deferreds w1 !! d = Some (Rejected cancelled))
  ∧ callResultPromises (state w1) = ∅
  ∧ (∀ d err, deferreds w1 !! d = Some (Rejected err) → err = cancelled)
  ∧ (∀ i id d,
       callers w !! i = Some (mkCaller id (AwaitQueueResponse d)) →
       callResultPromises (state w) !! id = Some d →
       ∃ w2, step (QueueResponseSettled i) w1 = Some w2
             ∧ callers w2 !! i = Some (mkCaller id (CallThrew cancelled)))
  ∧ (∀ tr w2, run tr w1 = Some w2 →
              cancels w2 !! j = Some CancelReturned →
              Drained (length (collectors w)) w2)
  ∧ (∀ tr w2, run tr (cleanup w) = Some w2 →
              cleanups w2 !! length (cleanups w) = Some CleanupReturned →
              Drained (length (collectors w)) w2)
  ∧ (∀ k a w', collectors w !! k = Some Exited →
               step a w = Some w' → collectors w' !! k = Some Exited)
  ∧ (∀ k r, collectors w !! k = Some Exited →
            step (ReceiveDone k r) w = None ∧ step (DeletesDone k) w = None)
  ∧ (∀ (w0 : World) (n : nat),
       timers w0 = S n → isEmpty (callResultPromises (state w0)) = true →
       step TimerFires w0 = Some (with_timers n w0)).
Proof.
  intros Hreach w1 j. subst w1 j.
  destruct (reachable_Inv _ _ _ Hreach) as [HT HL].
  destruct (cancelWithoutCleanup_frame w)
    as (Ht & Hp & _ & _ & Hca & Hco & Hcl & _ & _ & _ & Hcn & Hj & Hd).
  assert (Hrej : ∀ id d, callResultPromises (state w) !! id = Some d →
            deferreds (cancelWithoutCleanup w).1 !! d = Some (Rejected cancelled)).
  { intros id d Hid. rewrite Hd, (inv_pending w HT _ _ Hid), decide_True; [done|].
    apply elem_of_table_values. by eexists. }
  split; [exact Hrej|]. split; [exact Ht|]. split.
  { apply inv_rejected. by apply cancelWithoutCleanup_TableInv. }
  split.
  { intros i id d Hi Hid. cbn [step]. unfold queue_response_settled.
    eexists. split; [by rewrite Hca, Hi, (Hrej _ _ Hid)|].
    unfold set_caller. cbn [callers with_callers].
    rewrite Hca, list_lookup_insert_eq; [done|]. by eapply lookup_lt_Some. }
  split.
  { intros tr w2 Hrun Hret.
    assert (HC : CancelOk (length (collectors w)) (length (cancels w))
                   (cancelWithoutCleanup w).1) by by apply (CancelOk_start _ w).
    eapply CancelOk_run in HC; [|exact Hrun].
    unfold CancelOk in HC. rewrite Hj in Hret. by rewrite Hret in HC. }
  split.
  { intros tr w2 Hrun Hret.
    assert (HI : Inv (cleanup w)) by by apply cleanup_Inv.
    assert (Hst : step CallCleanup w = Some (cleanup w)) by done.
    pose proof (step_frame _ _ _ Hst) as [[_ Hlen] _].
    assert (HC : CleanupOk (length (collectors w)) (length (cleanups w)) (cleanup w)).
    { unfold CleanupOk, cleanup.
      destruct (truthy (SNSLambdaSubscriptionArn (resources (state w)))); simpl.
      - by rewrite lookup_app_r, Nat.sub_diag.
      - destruct (cleanup_cancel_frame w) as (Hp' & Hco' & Hcl' & Hcn' & Hpc).
        assert (HC : CancelOk (length (collectors w)) (length (cancels w))
                       (cleanup_cancel w).1) by by apply (CancelOk_start _ w).
        destruct (cleanup_cancel w) as [wc pc]. simpl in *.
        rewrite Hcl', lookup_app_r, Nat.sub_diag by done. simpl.
        destruct Hpc as [-> | [-> | [-> | ->]]];
          by eapply CancelOk_ext; [..|exact HC]. }
    eapply CleanupOk_run in HC; [|exact Hrun|exact HI|exact Hlen].
    unfold CleanupOk in HC. by rewrite Hret in HC. }
  split.
  { intros k a w' Hk Hst. apply step_frame in Hst as [[Hex _] _]. by apply Hex. }
  split.
  { intros k r Hk. cbn [step]. unfold receive_done, deletes_done. by rewrite Hk. }
  intros w0 n Hn He. cbn [step]. unfold timer_fires. rewrite Hn.
  rewrite startResultCollectorIfNeeded_eq. simpl. by rewrite He.
Qed.

Lemma drain_rejects_pending_calls_and_waits_witness :
  let w1 := (cancelWithoutCleanup after_call).1 in
  deferreds w1 !! 0 = Some (Rejected cancelled)
  ∧ callResultPromises (state w1) = ∅
  ∧ (∃ w2, step (json := example_json) (QueueResponseSettled 0) w1 = Some w2
           ∧ callers w2 !! 0 = Some (mkCaller "abc" (CallThrew cancelled)))
  ∧ step (json := example_json) (CollectorAwaited 0) w1 = None
  ∧ cancels after_drain !! 0 = Some CancelReturned
  ∧ Drained 1 after_drain
  ∧ step (json := example_json) (CleanupResumes 0)
      (default start
         (run (json := example_json) (take 3 cleanup_trace) (cleanup after_call)))
    = None
  ∧ cleanups after_cleanup !! 0 = Some CleanupReturned
  ∧ Drained 1 after_cleanup.
Proof.
  destruct (drain_rejects_pending_calls_and_waits (json := example_json)
              example_resources true after_call after_call_reachable)
    as (H1 & H2 & _ & H4 & H5 & H6 & _).
  split; [by apply (H1 "abc"%string 0)|].
  split; [exact H2|].
  split; [by apply (H4 0 "abc"%string 0)|].
  split; [vm_compute; reflexivity|].
  split; [vm_compute; reflexivity|].
  split; [apply (H5 drain_trace); vm_compute; reflexivity|].
  split; [vm_compute; reflexivity|].
  split; [vm_compute; reflexivity|].
  apply (H6 cleanup_trace); vm_compute; reflexivity.
Defined.

End EngineClaims.

(* ===================================================================== *)
(** * At most one collector, at most one garbage collection *)
(* ===================================================================== *)

Module GuardFacts.
Import Engine EngineFacts Later.

Lemma gc_initial_GcInv : GcInv gc_initial.
Proof. split; simpl; try done. Qed.

Lemma collectGarbage_GcInv (w : GcWorld) : GcInv w → GcInv (collectGarbage w).
Proof.
  intros [Hu Hi Hb]. unfold collectGarbage.
  destruct (garbageCollectorRunning w) eqn:Hf; split; simpl.
  - intros j1 j2 pc1 pc2 [H1|[_ H1]]%lookup_app_Some [H2|[_ H2]]%lookup_app_Some;
      try (by eapply Hu).
    + destruct (j2 - length (runs w)) as [|[]]; simpl in H2; by simplify_eq.
    + destruct (j1 - length (runs w)) as [|[]]; simpl in H1; by simplify_eq.
    + destruct (j1 - length (runs w)) as [|[]]; simpl in H1; by simplify_eq.
  - done.
  - intros _. destruct (Hb eq_refl) as (j & pc & Hj & Hc). exists j, pc.
    split; [|done]. rewrite lookup_app_l; [done|]. by eapply lookup_lt_Some.
  - intros j1 j2 pc1 pc2 [H1|[Hl1 H1]]%lookup_app_Some [H2|[Hl2 H2]]%lookup_app_Some Hc1 Hc2.
    + pose proof (Hi eq_refl _ _ H1). congruence.
    + pose proof (Hi eq_refl _ _ H1). congruence.
    + pose proof (Hi eq_refl _ _ H2). congruence.
    + destruct (j1 - length (runs w)) as [|[]] eqn:E1; simpl in H1; try done.
      destruct (j2 - length (runs w)) as [|[]] eqn:E2; simpl in H2; try done. lia.
  - done.
  - intros _. exists (length (runs w)), DescribingLogGroups.
    by rewrite lookup_app_r, Nat.sub_diag.
Qed.

(** A run that is inside the [try] block moves on ([pc'] is again inside),
    with the flag as it was. *)
Lemma gc_moves_GcInv (w : GcWorld) (j : nat) (pc pc' : GcPc) :
  GcInv w → runs w !! j = Some pc → collecting pc = true → collecting pc' = true →
  GcInv (mkGc (garbageCollectorRunning w) (<[j := pc']> (runs w))).
Proof.
  intros [Hu Hi Hb] Hj Hc Hc'.
  assert (Hlt : j < length (runs w)) by by eapply lookup_lt_Some.
  assert (Hother : ∀ j2 pc2, <[j := pc']> (runs w) !! j2 = Some pc2 →
                     collecting pc2 = true → j2 = j).
  { intros j2 pc2 H2 Hc2. destruct (decide (j2 = j)) as [->|Hne]; [done|].
    rewrite list_lookup_insert_ne in H2 by done. by eapply Hu. }
  split; simpl.
  - intros j1 j2 pc1 pc2 H1 H2 Hc1 Hc2.
    rewrite (Hother _ _ H1 Hc1), (Hother _ _ H2 Hc2). done.
  - intros Hf. pose proof (Hi Hf _ _ Hj). congruence.
  - intros _. exists j, pc'. by rewrite list_lookup_insert_eq.
Qed.

(** A run leaves the [try] block ([pc'] is outside): the flag is reset. *)
Lemma finally_GcInv (w : GcWorld) (j : nat) (pc pc' : GcPc) :
  GcInv w → runs w !! j = Some pc → collecting pc = true → collecting pc' = false →
  GcInv (finally j pc' w).
Proof.
  intros [Hu Hi Hb] Hj Hc Hc'.
  assert (Hlt : j < length (runs w)) by by eapply lookup_lt_Some.
  assert (Hnone : ∀ j2 pc2, <[j := pc']> (runs w) !! j2 = Some pc2 →
                    collecting pc2 = false).
  { intros j2 pc2 H2. destruct (decide (j2 = j)) as [->|Hne].
    - rewrite list_lookup_insert_eq in H2 by done. by simplify_eq.
    - rewrite list_lookup_insert_ne in H2 by done.
      destruct (collecting pc2) eqn:Hc2; [|done].
      destruct Hne. by eapply Hu. }
  split; unfold finally; simpl; [|by intros _|done].
  intros j1 j2 pc1 pc2 H1 H2 Hc1. pose proof (Hnone _ _ H1). congruence.
Qed.

Lemma gc_step_GcInv (a : GcAction) (w w' : GcWorld) :
  gc_step a w = Some w' → GcInv w → GcInv w'.
Proof.
  destruct a as [|j failure]; simpl; intros H HI.
  - simplify_eq. by apply collectGarbage_GcInv.
  - unfold gc_resumes in H.
    destruct (runs w !! j) as [[]|] eqn:Hj, failure; simplify_eq;
      first [by eapply gc_moves_GcInv | by eapply finally_GcInv].
Qed.

Lemma gc_run_GcInv (tr : list GcAction) (w w' : GcWorld) :
  gc_run tr w = Some w' → GcInv w → GcInv w'.
Proof.
  revert w. induction tr as [|a tr IH]; intros w; simpl; [by intros [= ->]|].
  destruct (gc_step a w) as [w1|] eqn:Hs; [|done].
  intros H HI. eapply IH; [done|]. by eapply gc_step_GcInv.
Qed.

Section WithJson.
Context {json : Json}.

(** The only step that takes [state.resultCollectorPromise] from set to
    unset is a collector run finding the table empty and returning. *)
Lemma step_keeps_promise (a : Action) (w w' : World) :
  step a w = Some w' →
  is_Some (resultCollectorPromise (state w)) →
  is_Some (resultCollectorPromise (state w'))
  ∨ ∃ k, a = DeletesDone k ∧ collectors w !! k = Some Deleting
         ∧ isEmpty (callResultPromises (state w)) = true
         ∧ collectors w' !! k = Some Exited.
Proof.
  destruct a as [uuid|i|i failure|i r|k r|k| | |j| |j|j names]; cbn [step]; intros H Hp.
  - case_bool_decide; simplify_eq. left.
    unfold responsifedFunc, enqueueCallRequest. simpl.
    destruct (useQueue (state w)); simpl; [|done].
    rewrite startResultCollectorIfNeeded_eq. simpl.
    rewrite (bool_decide_true _ Hp), orb_true_r. done.
  - left. unfold queue_response_settled in H. by repeat case_match; simplify_eq.
  - left. unfold publish_done in H. by repeat case_match; simplify_eq.
  - left. unfold invoke_done in H.
    destruct (callers w !! i) as [[id []]|]; try done. by destruct r; simplify_eq.
  - left. unfold receive_done in H.
    destruct (collectors w !! k) as [[]|] eqn:Hk; try done.
    destruct r as [err|Messages]; simplify_eq; [done|].
    destruct (for_messages_frame Messages Messages w) as (Hp' & _).
    destruct (for_messages Messages Messages w) as [w1 [err|]];
      simpl in *; simplify_eq; simpl; by rewrite Hp'.
  - unfold deletes_done, loop_head in H.
    destruct (collectors w !! k) as [[]|] eqn:Hk; try done.
    destruct (isEmpty _) eqn:He; simplify_eq; [right|by left].
    exists k. repeat split; try done. simpl.
    rewrite list_lookup_insert_eq; [done|]. by eapply lookup_lt_Some.
  - left. unfold timer_fires in H. destruct (timers w); simplify_eq.
    rewrite startResultCollectorIfNeeded_eq. simpl.
    rewrite (bool_decide_true _ Hp), orb_true_r. done.
  - left. simplify_eq.
    destruct (cancelWithoutCleanup_frame w) as (_ & -> & _). done.
  - left. unfold collector_awaited in H. by repeat case_match; simplify_eq.
  - left. simplify_eq. unfold cleanup.
    destruct (truthy (SNSLambdaSubscriptionArn (resources (state w)))); [done|].
    destruct (cleanup_cancel_frame w) as (Hp' & _).
    destruct (cleanup_cancel w) as [w1 pc]. simpl in *. by rewrite Hp'.
  - left. unfold cleanup_resumes in H.
    destruct (cleanups w !! j) as [[ |c|c|c|c|c|c|c| | |]|] eqn:Hj; simplify_eq; simpl;
      try done.
    + destruct (cleanup_cancel_frame w) as (-> & _). done.
    + destruct (cleanup_logGroup_quiet c w) as (-> & _). done.
    + destruct (cleanup_role_quiet c w) as (-> & _). done.
    + destruct (cancels w !! c) as [[]|]; simplify_eq; simpl; [|done].
      by destruct (truthy (ResponseQueueUrl (resources (state w)))),
                  (truthy (RequestTopicArn (resources (state w)))).
  - left. by destruct (deleteRole_resumes_frame _ _ _ _ H) as (c & pc & pc' & es & _ & _ & Hes & ->).
Qed.

End WithJson.

End GuardFacts.

Module GuardClaims.
Import Engine EngineFacts EngineExamples ExampleFacts Later GuardFacts.

(** C10. In every reachable state at most one collector run is in progress,
    and it is the one [state.resultCollectorPromise] stands for.
    [startResultCollectorIfNeeded] starts a run only when the table is not
    empty and no collector promise is set; the only step that unsets the
    promise is the collector run it belongs to finding the table empty and
    returning.  Likewise at most one run of [collectGarbage] is inside its
    [try] block, exactly when [garbageCollectorRunning] is set; a call made
    meanwhile returns at once, and the flag is reset when a run fails. *)
Theorem at_most_one_collector_and_one_garbage_collection
  {json : Json} (res : AWSResources) (queue : bool) (w : World)
  (tr : list GcAction) (gw : GcWorld) :
  reachable res queue w →
  gc_run tr gc_initial = Some gw →
  (∀ k1 k2 pc1 pc2,
     collectors w !! k1 = Some pc1 → collectors w !! k2 = Some pc2 →
     running pc1 = true → running pc2 = true → k1 = k2)
  ∧ (∀ k pc, collectors w !! k = Some pc → running pc = true →
             resultCollectorPromise (state w) = Some k)
  ∧ (collectors (startResultCollectorIfNeeded w) ≠ collectors w →
     isEmpty (callResultPromises (state w)) = false
     ∧ resultCollectorPromise (state w) = None)
  ∧ (isEmpty (callResultPromises (state w)) = false →
     resultCollectorPromise (state w) = None →
     collectors (startResultCollectorIfNeeded w) = collectors w ++ [Polling]
     ∧ resultCollectorPromise (state (startResultCollectorIfNeeded w))
       = Some (length (collectors w)))
  ∧ (∀ a w' k,
       step a w = Some w' →
       resultCollectorPromise (state w) = Some k →
       resultCollectorPromise (state w') = None →
       a = DeletesDone k ∧ collectors w !! k = Some Deleting
       ∧ isEmpty (callResultPromises (state w)) = true
       ∧ collectors w' !! k = Some Exited)
  ∧ (∀ j1 j2 pc1 pc2,
       runs gw !! j1 = Some pc1 → runs gw !! j2 = Some pc2 →
       collecting pc1 = true → collecting pc2 = true → j1 = j2)
  ∧ (garbageCollectorRunning gw = true
     ↔ ∃ j pc, runs gw !! j = Some pc ∧ collecting pc = true)
  ∧ (garbageCollectorRunning gw = true →
     collectGarbage gw = mkGc true (runs gw ++ [GcSkipped]))
  ∧ (∀ j err gw',
       gc_resumes j (Some err) gw = Some gw' →
       garbageCollectorRunning gw' = false ∧ runs gw' !! j = Some (GcThrew err)).
Proof.
  intros Hreach Hgc.
  destruct (reachable_Inv _ _ _ Hreach) as [HT HL].
  pose proof (gc_run_GcInv _ _ _ Hgc gc_initial_GcInv) as [Hu Hi Hb].
  assert (Hrun : ∀ k pc, collectors w !! k = Some pc → running pc = true →
                         resultCollectorPromise (state w) = Some k).
  { intros k pc Hk Hr. eapply HL; [done|]. by intros ->. }
  split.
  { intros k1 k2 pc1 pc2 H1 H2 Hr1 Hr2.
    pose proof (Hrun _ _ H1 Hr1). pose proof (Hrun _ _ H2 Hr2). congruence. }
  split; [exact Hrun|]. split.
  { rewrite startResultCollectorIfNeeded_eq.
    destruct (isEmpty _); simpl; [done|].
    destruct (resultCollectorPromise (state w)); simpl; [done|]. done. }
  split.
  { intros He Hp. rewrite startResultCollectorIfNeeded_eq, He, Hp. simpl. done. }
  split.
  { intros a w' k Hst Hp Hp'.
    destruct (step_keeps_promise a w w' Hst) as [[k' Hk']|(k' & -> & Hk' & He & Hex)].
    - by rewrite Hp.
    - by rewrite Hp' in Hk'.
    - assert (k' = k) as ->; [|done].
      assert (Hne : Deleting ≠ Exited) by done.
      pose proof (HL _ _ Hk' Hne). congruence. }
  split; [exact Hu|]. split.
  { split; [exact Hb|]. intros (j & pc & Hj & Hc).
    destruct (garbageCollectorRunning gw) eqn:Hf; [done|].
    pose proof (Hi eq_refl _ _ Hj). congruence. }
  split.
  { intros Hf. unfold collectGarbage. by rewrite Hf. }
  intros j err gw'. unfold gc_resumes.
  assert (∀ l : list GcPc, j < length l → <[j := GcThrew err]> l !! j = Some (GcThrew err))
    as Hins by (intros l Hl; by apply list_lookup_insert_eq).
  destruct (runs gw !! j) as [[]|] eqn:Hj; intros; simplify_eq; simpl;
    (split; [done|]); apply Hins; by eapply lookup_lt_Some.
Qed.

Lemma at_most_one_collector_and_one_garbage_collection_witness :
  resultCollectorPromise (state after_call) = Some 0
  ∧ collectors after_call !! 0 = Some Polling
  ∧ startResultCollectorIfNeeded after_call = after_call
  ∧ (∀ a w', step (json := example_json) a after_call = Some w' →
             resultCollectorPromise (state w') = None → a = DeletesDone 0)
  ∧ runs gc_example = [ListingFunctions; GcSkipped]
  ∧ garbageCollectorRunning gc_example = true
  ∧ collectGarbage gc_example = mkGc true (runs gc_example ++ [GcSkipped])
  ∧ gc_resumes 0 (Some "Throttling"%string) gc_example
    = Some (mkGc false [GcThrew "Throttling"%string; GcSkipped]).
Proof.
  assert (Hgc : gc_run [GcCall; GcCall; GcResumes 0 None] gc_initial = Some gc_example)
    by reflexivity.
  destruct (at_most_one_collector_and_one_garbage_collection (json := example_json)
              example_resources true after_call _ gc_example after_call_reachable Hgc)
    as (_ & H2 & _ & _ & H5 & _ & _ & H8 & _).
  split; [by apply (H2 0 Polling)|].
  split; [reflexivity|].
  split; [vm_compute; reflexivity|].
  split; [intros a w' Hs Hn; by apply (H5 a w' 0)|].
  split; [reflexivity|]. split; [reflexivity|].
  split; [by apply H8|]. reflexivity.
Defined.

End GuardClaims.

(* ===================================================================== *)
(** * The Funnel *)
(* ===================================================================== *)

Module FunnelFacts.
Import Funnel.

Lemma chained_snoc (e : option nat) (l : list Timing) (t : Timing) :
  chained e l →
  (∀ a, a ∈ l → finish a < start t) →
  match e with Some x => x < start t | None => True end →
  chained e (l ++ [t]).
Proof.
  revert e. induction l as [|a l IH]; intros e Hc Hall He; simpl in *.
  - by destruct e.
  - destruct Hc as [Ha Hc]. split; [done|]. apply IH; [done| |].
    + intros b Hb. apply Hall. by apply list_elem_of_further.
    + apply Hall, list_elem_of_here.
Qed.

(** In a chained list a later execution starts after an earlier one ended,
    provided no execution ends before it starts. *)
Lemma chained_lookup (e : option nat) (l : list Timing) :
  chained e l → (∀ t, t ∈ l → start t ≤ finish t) →
  (∀ t x, e = Some x → t ∈ l → x < start t)
  ∧ ∀ i j a b, i < j → l !! i = Some a → l !! j = Some b → finish a < start b.
Proof.
  revert e. induction l as [|t l IH]; intros e Hc Hle; simpl in *.
  - split; [by intros t x _ ?%elem_of_nil | by intros i j a b _ ?].
  - destruct Hc as [He Hc].
    assert (Hle' : ∀ t', t' ∈ l → start t' ≤ finish t').
    { intros t' Ht'. apply Hle. by apply list_elem_of_further. }
    destruct (IH _ Hc Hle') as [IH1 IH2].
    assert (Ht : start t ≤ finish t) by apply Hle, list_elem_of_here.
    split.
    + intros t' x -> [->|Hin]%elem_of_cons; [done|].
      specialize (IH1 t' (finish t) eq_refl Hin). lia.
    + intros [|i] [|j] a b Hij Ha Hb; simpl in *; try lia.
      * simplify_eq. eapply IH1; [done|]. by eapply list_elem_of_lookup_2.
      * eapply (IH2 i j); [lia|done..].
Qed.

Section WithConfig.
Variable cfg : Config.

Lemma admission_FunnelInv (fuel : nat) (w : World) :
  FunnelInv cfg w → FunnelInv cfg (admission cfg fuel w).
Proof.
  revert w. induction fuel as [|fuel IH]; intros w HI; simpl.
  { by destruct (admissionQueue (funnel w)). }
  destruct (admissionQueue (funnel w)) as [|o rest] eqn:Hq; [done|].
  destruct (gates_open cfg (funnel w)) eqn:Hm; [|done].
  apply IH. destruct HI as [Hcount Hlimit Hstart Hdone].
  split; simpl.
  - rewrite length_app. simpl. lia.
  - intros c Hc. rewrite length_app. simpl.
    unfold gates_open in Hm. rewrite Hc in Hm.
    apply andb_true_iff in Hm as [Hm _]. apply bool_decide_eq_true in Hm. lia.
  - intros e [He| ->%list_elem_of_singleton]%elem_of_app; simpl; [|lia].
    specialize (Hstart _ He). lia.
  - intros t Ht. specialize (Hdone _ Ht). lia.
Qed.

Lemma admission_Serial (fuel : nat) (w : World) :
  concurrency cfg = Some 1 →
  FunnelInv cfg w → Serial w → Serial (admission cfg fuel w).
Proof.
  intros Hone. revert w. induction fuel as [|fuel IH]; intros w HI HS; simpl.
  { by destruct (admissionQueue (funnel w)). }
  destruct (admissionQueue (funnel w)) as [|o rest] eqn:Hq; [done|].
  destruct (gates_open cfg (funnel w)) eqn:Hm; [|done].
  assert (Hnil : executing w = []).
  { unfold gates_open in Hm. rewrite Hone in Hm.
    apply andb_true_iff in Hm as [Hm _]. apply bool_decide_eq_true in Hm.
    rewrite (inv_count cfg w HI) in Hm.
    destruct (executing w); [done|simpl in Hm; lia]. }
  pose proof (admission_FunnelInv 1 w HI) as HI1. simpl in HI1. rewrite Hq, Hm in HI1.
  apply IH; [exact HI1|].
  destruct HS as [Hch Hex]. split; simpl; [done|].
  rewrite Hnil. intros e t ->%list_elem_of_singleton Ht. simpl.
  by apply (inv_completed cfg w HI).
Qed.

Lemma step_FunnelInv (a : Action) (w w' : World) :
  step cfg a w = Some w' → FunnelInv cfg w → FunnelInv cfg w'.
Proof.
  destruct a as [|o|]; simpl; intros H HI.
  - simplify_eq. apply admission_FunnelInv.
    destruct HI as [Hcount Hlimit Hstart Hdone]. by split.
  - unfold complete in H.
    destruct (list_find _ (executing w)) as [[i [o' t0]]|] eqn:Hf; simplify_eq.
    apply list_find_Some in Hf as (Hi & _ & _).
    apply admission_FunnelInv.
    destruct HI as [Hcount Hlimit Hstart Hdone].
    assert (Hlt : i < length (executing w)) by by eapply lookup_lt_Some.
    assert (Hlen : length (delete i (executing w)) = pred (length (executing w))).
    { rewrite length_delete by by eexists. lia. }
    split; simpl.
    + by rewrite Hlen, Hcount.
    + intros c Hc. specialize (Hlimit c Hc). lia.
    + intros e He%list_elem_of_delete_inv. specialize (Hstart _ He). lia.
    + intros t [Ht| ->%list_elem_of_singleton]%elem_of_app; simpl.
      * specialize (Hdone _ Ht). lia.
      * assert ((o', t0) ∈ executing w) as He by by eapply list_elem_of_lookup_2.
        specialize (Hstart _ He). simpl in Hstart. lia.
  - simplify_eq. apply admission_FunnelInv.
    destruct HI as [Hcount Hlimit Hstart Hdone]. by split.
Qed.

Lemma step_Serial (a : Action) (w w' : World) :
  concurrency cfg = Some 1 →
  step cfg a w = Some w' → FunnelInv cfg w → Serial w → Serial w'.
Proof.
  intros Hone. destruct a as [|o|]; simpl; intros H HI HS.
  - simplify_eq. apply admission_Serial; [done| |done].
    destruct HI as [Hcount Hlimit Hstart Hdone]. by split.
  - pose proof (step_FunnelInv (Complete o) w w' H HI) as HI'.
    unfold complete in H.
    destruct (list_find _ (executing w)) as [[i [o' t0]]|] eqn:Hf; simplify_eq.
    apply list_find_Some in Hf as (Hi & _ & _).
    assert (Hin : (o', t0) ∈ executing w) by by eapply list_elem_of_lookup_2.
    assert (Hone' : executing w = [(o', t0)]).
    { pose proof (inv_limit cfg w HI 1 Hone) as Hle.
      destruct (executing w) as [|e [|e' l]]; simpl in Hle; [|  |lia].
      - by apply elem_of_nil in Hin.
      - by apply list_elem_of_singleton in Hin as ->. }
    assert (Hi0 : i = 0).
    { rewrite Hone' in Hi. apply lookup_lt_Some in Hi. simpl in Hi. lia. }
    subst i. destruct HS as [Hch Hex].
    set (w1 := Funnel.mkWorld _ _ _ _ _).
    assert (HI1 : FunnelInv cfg w1).
    { destruct HI as [Hcount Hlimit Hstart Hdone]. subst w1. split; simpl.
      - by rewrite Hone', Hcount, Hone'.
      - intros c Hc. rewrite Hone'. simpl. lia.
      - rewrite Hone'. simpl. by intros e ?%elem_of_nil.
      - intros t [Ht| ->%list_elem_of_singleton]%elem_of_app; simpl.
        + specialize (Hdone _ Ht). lia.
        + specialize (Hstart _ Hin). simpl in Hstart. lia. }
    apply admission_Serial; [done|exact HI1|].
    subst w1. split; simpl.
    + apply chained_snoc; [done| |done].
      intros a Ha. simpl. by apply (Hex (o', t0)).
    + rewrite Hone'. simpl. by intros e t ?%elem_of_nil.
  - simplify_eq. apply admission_Serial; [done| |done].
    destruct HI as [Hcount Hlimit Hstart Hdone]. by split.
Qed.

Lemma initial_FunnelInv : FunnelInv cfg (initial cfg).
Proof.
  split; simpl; [done|intros; lia| |]; by intros ? ?%elem_of_nil.
Qed.

Lemma initial_Serial : Serial (initial cfg).
Proof. split; simpl; [done|]. by intros ? ? ?%elem_of_nil. Qed.

Lemma run_FunnelInv (tr : list Action) (w w' : World) :
  run cfg tr w = Some w' → FunnelInv cfg w → FunnelInv cfg w'.
Proof.
  revert w. induction tr as [|a tr IH]; intros w; simpl; [by intros [= ->]|].
  destruct (step cfg a w) as [w1|] eqn:Hs; [|done].
  intros H HI. eapply IH; [done|]. by eapply step_FunnelInv.
Qed.

Lemma run_Serial (tr : list Action) (w w' : World) :
  concurrency cfg = Some 1 →
  run cfg tr w = Some w' → FunnelInv cfg w → Serial w → Serial w'.
Proof.
  intros Hone. revert w.
  induction tr as [|a tr IH]; intros w; simpl; [by intros [= ->]|].
  destruct (step cfg a w) as [w1|] eqn:Hs; [|done].
  intros H HI HS. eapply IH; [done|by eapply step_FunnelInv|by eapply step_Serial].
Qed.

End WithConfig.

(** C9. For the Funnel as the specification describes it: at every moment
    the number of executing operations equals the slot counter and does not
    exceed [concurrency]; and with [concurrency = 1], in the order of
    completion (which is also the order of the start times) every execution
    starts strictly after the previous one ended, so no two recorded
    intervals overlap. *)
Theorem funnel_with_one_slot_never_overlaps
  (cfg : Config) (tr : list Action) (w : World) :
  run cfg tr (initial cfg) = Some w →
  concurrencyInUse (funnel w) = length (executing w)
  ∧ (∀ c, concurrency cfg = Some c → length (executing w) ≤ c)
  ∧ (concurrency cfg = Some 1 →
     chained None (completed w)
     ∧ (∀ i j a b, i < j → completed w !! i = Some a → completed w !! j = Some b →
                   finish a < start b ∧ start a < start b)
     ∧ (∀ i j a b, i ≠ j → completed w !! i = Some a → completed w !! j = Some b →
                   disjoint a b)).
Proof.
  intros Hrun.
  pose proof (run_FunnelInv cfg tr _ _ Hrun (initial_FunnelInv cfg)) as HI.
  split; [apply HI|]. split; [apply HI|].
  intros Hone.
  destruct (run_Serial cfg tr _ _ Hone Hrun (initial_FunnelInv cfg) (initial_Serial cfg))
    as [Hch _].
  assert (Hle : ∀ t, t ∈ completed w → start t ≤ finish t).
  { intros t Ht. by apply (inv_completed cfg w HI). }
  destruct (chained_lookup None (completed w) Hch Hle) as [_ Hlt].
  split; [done|]. split.
  - intros i j a b Hij Ha Hb. pose proof (Hlt i j a b Hij Ha Hb).
    split; [done|].
    assert (start a ≤ finish a) by (apply Hle; by eapply list_elem_of_lookup_2). lia.
  - intros i j a b Hij Ha Hb. unfold disjoint.
    destruct (decide (i < j)) as [Hlt'|Hge].
    + left. by eapply Hlt.
    + right. eapply (Hlt j i); [lia|done..].
Qed.

Lemma funnel_with_one_slot_never_overlaps_witness :
  let cfg := mkConfig (Some 1) None in
  let w := default (initial cfg) (run cfg ten_at_once (initial cfg)) in
  length (completed w) = 10
  ∧ chained None (completed w)
  ∧ (∀ i j a b, i ≠ j → completed w !! i = Some a → completed w !! j = Some b →
                disjoint a b).
Proof.
  intros cfg w.
  assert (Hrun : run cfg ten_at_once (initial cfg) = Some w) by (vm_compute; reflexivity).
  destruct (funnel_with_one_slot_never_overlaps cfg ten_at_once w Hrun)
    as (_ & _ & H3).
  destruct (H3 eq_refl) as (Hch & _ & Hdis).
  split; [vm_compute; reflexivity|]. split; [exact Hch | exact Hdis].
Defined.

End FunnelFacts.

(* ===================================================================== *)
(** * More invariants of the queue engine *)
(* ===================================================================== *)

Module EngineViewFacts.
Import Engine EngineExamples EngineFacts EngineViews EngineViewExamples.

Section WithJson.
Context {json : Json}.

(** *** A settled deferred *)

Lemma resolve_settled_stable (d0 : nat) (arg : QueuedResponse) (w : World)
      (d : nat) (p : PromiseState) :
  deferreds w !! d = Some p → settled p = true →
  deferreds (resolve d0 arg w) !! d = Some p.
Proof.
  intros Hd Hp. unfold resolve. simpl.
  destruct (deferreds w !! d0) as [[]|] eqn:Hd0; simpl; try done.
  destruct (decide (d = d0)) as [Heq|Hne].
  - rewrite Heq in Hd. rewrite Hd in Hd0. by simplify_eq.
  - by rewrite list_lookup_insert_ne.
Qed.

Lemma handle_message_settled_stable (raw : list Message) (m : Message) (w : World)
      (d : nat) (p : PromiseState) :
  deferreds w !! d = Some p → settled p = true →
  deferreds (handle_message raw m w).1 !! d = Some p.
Proof.
  intros Hd Hp.
  destruct (nonempty (Body m)) as [text|] eqn:Hb.
  2:{ by rewrite handle_message_skipped. }
  destruct (JSON_parse text) as [ret|] eqn:Hj.
  2:{ by erewrite handle_message_malformed. }
  destruct (callResultPromises (state w) !! CallId ret) as [d0|] eqn:Ht.
  2:{ destruct (inherited (CallId ret)) eqn:Hin;
        [by erewrite handle_message_inherited | by erewrite handle_message_unmatched]. }
  erewrite handle_message_matched by done. simpl.
  by apply (resolve_settled_stable d0 _ (with_table _ w)).
Qed.

Lemma for_messages_settled_stable (raw ms : list Message) (w : World)
      (d : nat) (p : PromiseState) :
  deferreds w !! d = Some p → settled p = true →
  deferreds (for_messages raw ms w).1 !! d = Some p.
Proof.
  revert w. induction ms as [|m ms IH]; intros w Hd Hp; simpl; [done|].
  pose proof (handle_message_settled_stable raw m w d p Hd Hp) as H1.
  destruct (handle_message raw m w) as [w1 [err|]]; simpl in *; [done|].
  by apply IH.
Qed.

Lemma cleanup_cancel_deferreds (w : World) (d : nat) (p : PromiseState) :
  deferreds w !! d = Some p → settled p = true →
  deferreds (cleanup_cancel w).1 !! d = Some p.
Proof.
  intros Hd Hp. unfold cleanup_cancel.
  destruct (cancelWithoutCleanup_frame w)
    as (_ & _ & _ & _ & _ & _ & _ & _ & _ & _ & _ & _ & Hds).
  specialize (Hds d). rewrite Hd in Hds.
  destruct (cancelWithoutCleanup w) as [w1 c]. simpl in *.
  destruct (cleanup_function_quiet c w1) as (_ & Hd' & _).
  destruct (cleanup_function c w1) as [w2 pc]. simpl in *.
  rewrite Hd', Hds. by destruct p.
Qed.

Lemma step_settled_stable (a : Action) (w w' : World) (d : nat) (p : PromiseState) :
  step a w = Some w' →
  deferreds w !! d = Some p → settled p = true →
  deferreds w' !! d = Some p.
Proof.
  destruct a as [uuid|i|i failure|i r|k r|k| | |j| |j|j names]; cbn [step]; intros H Hd Hp.
  - case_bool_decide as Hfresh; simplify_eq.
    unfold responsifedFunc, enqueueCallRequest. simpl.
    destruct (useQueue (state w)); simpl; [|done].
    set (w2 := with_table _ _).
    destruct (startResultCollectorIfNeeded_frame w2) as (_ & _ & _ & -> & _).
    simpl. rewrite lookup_app_l; [done|]. by eapply lookup_lt_Some.
  - unfold queue_response_settled in H. by repeat case_match; simplify_eq.
  - unfold publish_done in H. by repeat case_match; simplify_eq.
  - unfold invoke_done in H.
    destruct (callers w !! i) as [[id' []]|]; try done. by destruct r; simplify_eq.
  - unfold receive_done in H.
    destruct (collectors w !! k) as [[]|] eqn:Hk; try done.
    destruct r as [err|Messages]; simplify_eq; [done|].
    pose proof (for_messages_settled_stable Messages Messages w d p Hd Hp) as Ht.
    destruct (for_messages Messages Messages w) as [w1 [err|]];
      simpl in *; by simplify_eq.
  - unfold deletes_done, loop_head in H.
    destruct (collectors w !! k) as [[]|] eqn:Hk; try done.
    by destruct (isEmpty _); simplify_eq.
  - unfold timer_fires in H. destruct (timers w); simplify_eq.
    destruct (startResultCollectorIfNeeded_frame (with_timers n w))
      as (_ & _ & _ & -> & _). done.
  - simplify_eq.
    destruct (cancelWithoutCleanup_frame w)
      as (_ & _ & _ & _ & _ & _ & _ & _ & _ & _ & _ & _ & Hds).
    rewrite Hds, Hd. by destruct p.
  - unfold collector_awaited in H. by repeat case_match; simplify_eq.
  - simplify_eq. unfold cleanup.
    destruct (truthy (SNSLambdaSubscriptionArn (resources (state w)))); [done|].
    pose proof (cleanup_cancel_deferreds w d p Hd Hp) as H1.
    by destruct (cleanup_cancel w) as [w1 pc].
  - unfold cleanup_resumes in H.
    destruct (cleanups w !! j) as [[ |c|c|c|c|c|c|c| | |]|] eqn:Hj; simplify_eq; simpl;
      try done.
    + pose proof (cleanup_cancel_deferreds w d p Hd Hp) as H1.
      by destruct (cleanup_cancel w) as [w1 pc].
    + by destruct (cleanup_logGroup_quiet c w) as (_ & -> & _).
    + by destruct (cleanup_role_quiet c w) as (_ & -> & _).
    + destruct (cancels w !! c) as [[]|]; simplify_eq; simpl; [|done].
      by destruct (truthy (ResponseQueueUrl (resources (state w)))),
                  (truthy (RequestTopicArn (resources (state w)))).
  - by destruct (deleteRole_resumes_frame _ _ _ _ H) as (c & pc & pc' & es & _ & _ & Hes & ->).
Qed.

Lemma run_settled_stable (tr : list Action) (w w' : World) (d : nat) (p : PromiseState) :
  run tr w = Some w' →
  deferreds w !! d = Some p → settled p = true →
  deferreds w' !! d = Some p.
Proof.
  revert w. induction tr as [|a tr IH]; intros w; simpl; [by intros [= ->]|].
  destruct (step a w) as [w1|] eqn:Hs; [|done].
  intros H Hd Hp. eapply IH; [done| |done]. by eapply step_settled_stable.
Qed.

(** *** Pending calls stay in the table *)

Lemma Registered_ext (w w' : World) :
  callResultPromises (state w') = callResultPromises (state w) →
  deferreds w' = deferreds w →
  Registered w → Registered w'.
Proof. intros Ht Hd H. unfold Registered. by rewrite Ht, Hd. Qed.

Lemma handle_message_Registered (raw : list Message) (m : Message) (w : World) :
  TableInv w → Registered w → Registered (handle_message raw m w).1.
Proof.
  intros HT HR.
  destruct (nonempty (Body m)) as [text|] eqn:Hb.
  2:{ rewrite handle_message_skipped by done. by eapply Registered_ext; [..|exact HR]. }
  destruct (JSON_parse text) as [ret|] eqn:Hj.
  2:{ by erewrite handle_message_malformed. }
  destruct (callResultPromises (state w) !! CallId ret) as [d0|] eqn:Ht.
  2:{ destruct (inherited (CallId ret)) eqn:Hin;
        [by erewrite handle_message_inherited|].
      erewrite handle_message_unmatched by done.
      by eapply Registered_ext; [..|exact HR]. }
  erewrite handle_message_matched by done.
  pose proof (inv_pending w HT _ _ Ht) as Hd0.
  intros d. unfold resolve. simpl. rewrite Hd0. simpl. intros Hd.
  destruct (decide (d = d0)) as [Heq|Hne].
  { rewrite Heq in Hd. rewrite list_lookup_insert_eq in Hd; [done|].
    by eapply lookup_lt_Some. }
  rewrite list_lookup_insert_ne in Hd by done.
  destruct (HR d Hd) as [id Hid]. exists id.
  rewrite lookup_delete_ne; [done|]. intros Heq. rewrite Heq in Ht.
  rewrite Hid in Ht. by simplify_eq.
Qed.

Lemma for_messages_Registered (raw ms : list Message) (w : World) :
  TableInv w → Registered w → Registered (for_messages raw ms w).1.
Proof.
  revert w. induction ms as [|m ms IH]; intros w HT HR; simpl; [done|].
  pose proof (handle_message_TableInv raw m w HT) as HT1.
  pose proof (handle_message_Registered raw m w HT HR) as HR1.
  destruct (handle_message raw m w) as [w1 [err|]]; simpl in *; [done|].
  by apply IH.
Qed.

Lemma cancelWithoutCleanup_Registered (w : World) :
  Registered w → Registered (cancelWithoutCleanup w).1.
Proof.
  intros HR d.
  destruct (cancelWithoutCleanup_frame w)
    as (_ & _ & _ & _ & _ & _ & _ & _ & _ & _ & _ & _ & Hds).
  rewrite Hds. destruct (deferreds w !! d) as [[]|] eqn:Hd; try done.
  destruct (decide (d ∈ _)) as [Hin|Hout]; [done|]. intros _.
  destruct (HR d Hd) as [id Hid]. destruct Hout.
  apply elem_of_table_values. by exists id.
Qed.

Lemma cleanup_cancel_Registered (w : World) :
  Registered w → Registered (cleanup_cancel w).1.
Proof.
  intros HR. unfold cleanup_cancel.
  pose proof (cancelWithoutCleanup_Registered w HR) as H1.
  destruct (cancelWithoutCleanup w) as [w1 c]. simpl in *.
  destruct (cleanup_function_quiet c w1) as (Hs & Hd' & _).
  destruct (cleanup_function c w1) as [w2 pc]. simpl in *.
  eapply Registered_ext; [..|exact H1]; [by rewrite Hs|done].
Qed.

Lemma step_Registered (a : Action) (w w' : World) :
  step a w = Some w' → Inv w → Registered w → Registered w'.
Proof.
  destruct a as [uuid|i|i failure|i r|k r|k| | |j| |j|j names]; cbn [step];
    intros H [HT HL] HR.
  - case_bool_decide as Hfresh; simplify_eq.
    unfold responsifedFunc, enqueueCallRequest. simpl.
    destruct (useQueue (state w)); simpl; [|by eapply Registered_ext; [..|exact HR]].
    set (w2 := with_table _ _).
    destruct (startResultCollectorIfNeeded_frame w2) as (Ht & _ & _ & Hd & _).
    intros d. simpl. rewrite Ht, Hd. simpl. intros Hpend.
    apply lookup_app_Some in Hpend as [Hl|[Hge Hl]].
    + destruct (HR d Hl) as [id Hid]. exists id.
      rewrite lookup_insert_ne; [done|]. intros Heq. rewrite <- Heq in Hid.
      destruct Hfresh. by eapply inv_uuid.
    + exists uuid. rewrite lookup_insert_eq. f_equal.
      apply lookup_lt_Some in Hl. simpl in Hl. lia.
  - unfold queue_response_settled in H.
    repeat case_match; simplify_eq; by eapply Registered_ext; [..|exact HR].
  - unfold publish_done in H.
    repeat case_match; simplify_eq; by eapply Registered_ext; [..|exact HR].
  - unfold invoke_done in H.
    destruct (callers w !! i) as [[id' []]|]; try done.
    destruct r; simplify_eq; by eapply Registered_ext; [..|exact HR].
  - unfold receive_done in H.
    destruct (collectors w !! k) as [[]|] eqn:Hk; try done.
    destruct r as [err|Messages]; simplify_eq;
      [by eapply Registered_ext; [..|exact HR]|].
    pose proof (for_messages_Registered Messages Messages w HT HR) as H1.
    destruct (for_messages Messages Messages w) as [w1 [err|]];
      simpl in *; simplify_eq; by eapply Registered_ext; [..|exact H1].
  - unfold deletes_done, loop_head in H.
    destruct (collectors w !! k) as [[]|] eqn:Hk; try done.
    destruct (isEmpty _); simplify_eq; by eapply Registered_ext; [..|exact HR].
  - unfold timer_fires in H. destruct (timers w); simplify_eq.
    destruct (startResultCollectorIfNeeded_frame (with_timers n w))
      as (Ht & _ & _ & Hd & _).
    by eapply Registered_ext; [..|exact HR].
  - simplify_eq. by apply cancelWithoutCleanup_Registered.
  - unfold collector_awaited in H.
    repeat case_match; simplify_eq; by eapply Registered_ext; [..|exact HR].
  - simplify_eq. unfold cleanup.
    destruct (truthy (SNSLambdaSubscriptionArn (resources (state w))));
      [by eapply Registered_ext; [..|exact HR]|].
    pose proof (cleanup_cancel_Registered w HR) as H1.
    destruct (cleanup_cancel w) as [w1 pc].
    by eapply Registered_ext; [..|exact H1].
  - unfold cleanup_resumes in H.
    destruct (cleanups w !! j) as [[ |c|c|c|c|c|c|c| | |]|] eqn:Hj; simplify_eq; simpl.
    + pose proof (cleanup_cancel_Registered w HR) as H1.
      destruct (cleanup_cancel w) as [w1 pc].
      by eapply Registered_ext; [..|exact H1].
    + destruct (cleanup_logGroup_quiet c w) as (Hs & Hd & _).
      eapply Registered_ext; [..|exact HR]; simpl; [by rewrite Hs|done].
    + destruct (cleanup_role_quiet c w) as (Hs & Hd & _).
      eapply Registered_ext; [..|exact HR]; simpl; [by rewrite Hs|done].
    + by eapply Registered_ext; [..|exact HR].
    + destruct (cancels w !! c) as [[]|]; simplify_eq; simpl.
      * destruct (truthy (ResponseQueueUrl (resources (state w)))),
                 (truthy (RequestTopicArn (resources (state w))));
          by eapply Registered_ext; [..|exact HR].
      * by eapply Registered_ext; [..|exact HR].
    + by eapply Registered_ext; [..|exact HR].
  - destruct (deleteRole_resumes_frame _ _ _ _ H) as (c & pc & pc' & es & _ & _ & Hes & ->).
    by eapply Registered_ext; [..|exact HR].
Qed.

Lemma run_Registered (tr : list Action) (w w' : World) :
  run tr w = Some w' → Inv w → Registered w → Registered w'.
Proof.
  revert w. induction tr as [|a tr IH]; intros w; simpl; [by intros [= ->]|].
  destruct (step a w) as [w1|] eqn:Hs; [|done].
  intros H HI HR. eapply IH; [done|by eapply step_Inv|by eapply step_Registered].
Qed.

(** *** The collector promise names a live run *)

Lemma PromiseInv_ext (w w' : World) :
  collectors w' = collectors w →
  resultCollectorPromise (state w') = resultCollectorPromise (state w) →
  PromiseInv w → PromiseInv w'.
Proof. intros Hk Hp H. unfold PromiseInv. by rewrite Hk, Hp. Qed.

Lemma startResultCollectorIfNeeded_PromiseInv (w : World) :
  PromiseInv w → PromiseInv (startResultCollectorIfNeeded w).
Proof.
  intros HP. rewrite startResultCollectorIfNeeded_eq.
  destruct (_ || _); [done|].
  intros k. simpl. intros [= <-]. exists Polling.
  split; [|done]. by rewrite list_lookup_middle.
Qed.

Lemma PromiseInv_set_collector (w : World) (k : nat) (pc : CollectorPc) :
  PromiseInv w → pc ≠ Exited → PromiseInv (set_collector k pc w).
Proof.
  intros HP Hpc k0 Hk0. simpl in *. destruct (HP k0 Hk0) as (pc0 & Hl & Hne).
  destruct (decide (k0 = k)) as [Heq|Hneq].
  - exists pc. split; [|done]. rewrite Heq in *.
    rewrite list_lookup_insert_eq; [done|]. by eapply lookup_lt_Some.
  - exists pc0. by rewrite list_lookup_insert_ne.
Qed.

Lemma cleanup_cancel_PromiseInv (w : World) :
  PromiseInv w → PromiseInv (cleanup_cancel w).1.
Proof.
  intros HP. destruct (cleanup_cancel_frame w) as (Hp & Hco & _).
  by eapply PromiseInv_ext; [..|exact HP].
Qed.

Lemma step_PromiseInv (a : Action) (w w' : World) :
  step a w = Some w' → PromiseInv w → PromiseInv w'.
Proof.
  destruct a as [uuid|i|i failure|i r|k r|k| | |j| |j|j names]; cbn [step]; intros H HP.
  - case_bool_decide as Hfresh; simplify_eq.
    unfold responsifedFunc, enqueueCallRequest. simpl.
    destruct (useQueue (state w)); simpl; [|by eapply PromiseInv_ext; [..|exact HP]].
    set (w2 := with_table _ _).
    assert (H2 : PromiseInv w2) by (by eapply PromiseInv_ext; [..|exact HP]).
    apply startResultCollectorIfNeeded_PromiseInv in H2.
    by eapply PromiseInv_ext; [..|exact H2].
  - unfold queue_response_settled in H.
    repeat case_match; simplify_eq; by eapply PromiseInv_ext; [..|exact HP].
  - unfold publish_done in H.
    repeat case_match; simplify_eq; by eapply PromiseInv_ext; [..|exact HP].
  - unfold invoke_done in H.
    destruct (callers w !! i) as [[id' []]|]; try done.
    destruct r; simplify_eq; by eapply PromiseInv_ext; [..|exact HP].
  - unfold receive_done in H.
    destruct (collectors w !! k) as [[]|] eqn:Hk; try done.
    destruct r as [err|Messages]; simplify_eq;
      [by apply PromiseInv_set_collector|].
    destruct (for_messages_frame Messages Messages w)
      as (Hp & _ & _ & _ & Hco & _).
    destruct (for_messages Messages Messages w) as [w1 [err|]];
      simpl in *; simplify_eq; (apply PromiseInv_set_collector; [|done]);
      by eapply PromiseInv_ext; [..|exact HP].
  - unfold deletes_done, loop_head in H.
    destruct (collectors w !! k) as [[]|] eqn:Hk; try done.
    destruct (isEmpty _); simplify_eq.
    + by intros k0.
    + apply PromiseInv_set_collector; [|done].
      by eapply PromiseInv_ext; [..|exact HP].
  - unfold timer_fires in H. destruct (timers w); simplify_eq.
    apply startResultCollectorIfNeeded_PromiseInv.
    by eapply PromiseInv_ext; [..|exact HP].
  - simplify_eq.
    destruct (cancelWithoutCleanup_frame w) as (_ & Hp & _ & _ & _ & Hco & _).
    by eapply PromiseInv_ext; [..|exact HP].
  - unfold collector_awaited in H.
    repeat case_match; simplify_eq; by eapply PromiseInv_ext; [..|exact HP].
  - simplify_eq. unfold cleanup.
    destruct (truthy (SNSLambdaSubscriptionArn (resources (state w))));
      [by eapply PromiseInv_ext; [..|exact HP]|].
    pose proof (cleanup_cancel_PromiseInv w HP) as H1.
    destruct (cleanup_cancel w) as [w1 pc].
    by eapply PromiseInv_ext; [..|exact H1].
  - unfold cleanup_resumes in H.
    destruct (cleanups w !! j) as [[ |c|c|c|c|c|c|c| | |]|] eqn:Hj; simplify_eq; simpl.
    + pose proof (cleanup_cancel_PromiseInv w HP) as H1.
      destruct (cleanup_cancel w) as [w1 pc].
      by eapply PromiseInv_ext; [..|exact H1].
    + destruct (cleanup_logGroup_quiet c w) as (Hs & _ & _ & Hco & _).
      eapply PromiseInv_ext; [..|exact HP]; simpl; [done|by rewrite Hs].
    + destruct (cleanup_role_quiet c w) as (Hs & _ & _ & Hco & _).
      eapply PromiseInv_ext; [..|exact HP]; simpl; [done|by rewrite Hs].
    + by eapply PromiseInv_ext; [..|exact HP].
    + destruct (cancels w !! c) as [[]|]; simplify_eq; simpl.
      * destruct (truthy (ResponseQueueUrl (resources (state w)))),
                 (truthy (RequestTopicArn (resources (state w))));
          by eapply PromiseInv_ext; [..|exact HP].
      * by eapply PromiseInv_ext; [..|exact HP].
    + by eapply PromiseInv_ext; [..|exact HP].
  - destruct (deleteRole_resumes_frame _ _ _ _ H) as (c & pc & pc' & es & _ & _ & Hes & ->).
    by eapply PromiseInv_ext; [..|exact HP].
Qed.

Lemma run_PromiseInv (tr : list Action) (w w' : World) :
  run tr w = Some w' → PromiseInv w → PromiseInv w'.
Proof.
  revert w. induction tr as [|a tr IH]; intros w; simpl; [by intros [= ->]|].
  destruct (step a w) as [w1|] eqn:Hs; [|done].
  intros H HP. eapply IH; [done|by eapply step_PromiseInv].
Qed.

(** *** No call waits without a collector *)

Lemma Awake_ext (w w' : World) :
  callResultPromises (state w') = callResultPromises (state w) →
  resultCollectorPromise (state w') = resultCollectorPromise (state w) →
  Awake w → Awake w'.
Proof. intros Ht Hp H. unfold Awake. by rewrite Ht, Hp. Qed.

Lemma Awake_empty (w : World) : callResultPromises (state w) = ∅ → Awake w.
Proof. intros Ht Hne. done. Qed.

Lemma startResultCollectorIfNeeded_Awake (w : World) :
  Awake (startResultCollectorIfNeeded w).
Proof.
  rewrite startResultCollectorIfNeeded_eq.
  destruct (isEmpty (callResultPromises (state w))) eqn:He; simpl.
  { apply Awake_empty. by apply isEmpty_true. }
  case_bool_decide as Hp; [by intros _|]. intros _. simpl. by eexists.
Qed.

Lemma for_messages_table_empty (raw ms : list Message) (w : World) :
  callResultPromises (state w) = ∅ →
  callResultPromises (state (for_messages raw ms w).1) = ∅.
Proof.
  intros Ht. apply map_eq. intros id. rewrite lookup_empty.
  apply for_messages_table_None. by rewrite Ht, lookup_empty.
Qed.

Lemma cleanup_cancel_table (w : World) :
  callResultPromises (state (cleanup_cancel w).1) = ∅.
Proof.
  unfold cleanup_cancel.
  destruct (cancelWithoutCleanup_frame w) as (Ht & _).
  destruct (cancelWithoutCleanup w) as [w1 c]. simpl in *.
  destruct (cleanup_function_quiet c w1) as (Hs & _).
  destruct (cleanup_function c w1) as [w2 pc]. simpl in *.
  by rewrite Hs.
Qed.

Lemma step_Awake (a : Action) (w w' : World) :
  step a w = Some w' → Awake w → Awake w'.
Proof.
  destruct a as [uuid|i|i failure|i r|k r|k| | |j| |j|j names]; cbn [step]; intros H HA.
  - case_bool_decide as Hfresh; simplify_eq.
    unfold responsifedFunc, enqueueCallRequest. simpl.
    destruct (useQueue (state w)); simpl; [|by eapply Awake_ext; [..|exact HA]].
    set (w2 := with_table _ _).
    pose proof (startResultCollectorIfNeeded_Awake w2) as H2.
    by eapply Awake_ext; [..|exact H2].
  - unfold queue_response_settled in H.
    repeat case_match; simplify_eq; by eapply Awake_ext; [..|exact HA].
  - unfold publish_done in H.
    repeat case_match; simplify_eq; by eapply Awake_ext; [..|exact HA].
  - unfold invoke_done in H.
    destruct (callers w !! i) as [[id' []]|]; try done.
    destruct r; simplify_eq; by eapply Awake_ext; [..|exact HA].
  - unfold receive_done in H.
    destruct (collectors w !! k) as [[]|] eqn:Hk; try done.
    destruct r as [err|Messages]; simplify_eq;
      [by eapply Awake_ext; [..|exact HA]|].
    assert (HA1 : Awake (for_messages Messages Messages w).1).
    { destruct (for_messages_frame Messages Messages w) as (Hp & _).
      intros Hne. rewrite Hp. apply HA. intros Ht. destruct Hne.
      by apply for_messages_table_empty. }
    destruct (for_messages Messages Messages w) as [w1 [err|]];
      simpl in *; simplify_eq; by eapply Awake_ext; [..|exact HA1].
  - unfold deletes_done, loop_head in H.
    destruct (collectors w !! k) as [[]|] eqn:Hk; try done.
    destruct (isEmpty _) eqn:He; simplify_eq.
    + apply Awake_empty. simpl. by apply isEmpty_true.
    + by eapply Awake_ext; [..|exact HA].
  - unfold timer_fires in H. destruct (timers w); simplify_eq.
    apply startResultCollectorIfNeeded_Awake.
  - simplify_eq. apply Awake_empty.
    by destruct (cancelWithoutCleanup_frame w) as (Ht & _).
  - unfold collector_awaited in H.
    repeat case_match; simplify_eq; by eapply Awake_ext; [..|exact HA].
  - simplify_eq. unfold cleanup.
    destruct (truthy (SNSLambdaSubscriptionArn (resources (state w))));
      [by eapply Awake_ext; [..|exact HA]|].
    pose proof (cleanup_cancel_table w) as H1.
    destruct (cleanup_cancel w) as [w1 pc]. by apply Awake_empty.
  - unfold cleanup_resumes in H.
    destruct (cleanups w !! j) as [[ |c|c|c|c|c|c|c| | |]|] eqn:Hj; simplify_eq; simpl.
    + pose proof (cleanup_cancel_table w) as H1.
      destruct (cleanup_cancel w) as [w1 pc]. by apply Awake_empty.
    + destruct (cleanup_logGroup_quiet c w) as (Hs & _).
      eapply Awake_ext; [..|exact HA]; simpl; by rewrite Hs.
    + destruct (cleanup_role_quiet c w) as (Hs & _).
      eapply Awake_ext; [..|exact HA]; simpl; by rewrite Hs.
    + by eapply Awake_ext; [..|exact HA].
    + destruct (cancels w !! c) as [[]|]; simplify_eq; simpl.
      * destruct (truthy (ResponseQueueUrl (resources (state w)))),
                 (truthy (RequestTopicArn (resources (state w))));
          by eapply Awake_ext; [..|exact HA].
      * by eapply Awake_ext; [..|exact HA].
    + by eapply Awake_ext; [..|exact HA].
  - destruct (deleteRole_resumes_frame _ _ _ _ H) as (c & pc & pc' & es & _ & _ & Hes & ->).
    by eapply Awake_ext; [..|exact HA].
Qed.

Lemma run_Awake (tr : list Action) (w w' : World) :
  run tr w = Some w' → Awake w → Awake w'.
Proof.
  revert w. induction tr as [|a tr IH]; intros w; simpl; [by intros [= ->]|].
  destruct (step a w) as [w1|] eqn:Hs; [|done].
  intros H HA. eapply IH; [done|by eapply step_Awake].
Qed.

(** *** What the collector does *)

Lemma collector_effects_app (es1 es2 : list Effect) :
  collector_effects (es1 ++ es2) = collector_effects es1 ++ collector_effects es2.
Proof. apply omap_app. Qed.

Lemma collector_effects_rejects (ds : list nat) :
  collector_effects (DeferredReject <$> ds) = [].
Proof. induction ds as [|d ds IH]; [done|]. simpl. exact IH. Qed.

Lemma collector_effects_emit (e : Effect) (w : World) :
  collector_traffic e = false →
  collector_effects (effects (emit e w)) = collector_effects (effects w).
Proof.
  intros He. simpl. rewrite collector_effects_app. simpl. rewrite He.
  apply app_nil_r.
Qed.

Lemma collector_effects_iam (es : list Effect) :
  Forall (fun e => match e with
                   | IamListAttachedRolePolicies | IamDetachRolePolicy _
                   | IamListRolePolicies | IamDeleteRolePolicy _
                   | IamDeleteRole => True
                   | _ => False
                   end) es →
  collector_effects es = [].
Proof.
  induction 1 as [|e es He _ IH]; [done|].
  unfold collector_effects in *. destruct e; try done; simpl; by rewrite IH.
Qed.



Lemma cleanup_role_collector_effects (c : nat) (w : World) :
  collector_effects (effects (cleanup_role c w).1) = collector_effects (effects w).
Proof.
  unfold cleanup_role.
  destruct (nonempty (RoleName (resources (state w)))) as [?|],
           (rolePolicy (resources (state w))) as [[]|]; try done.
  by apply collector_effects_emit.
Qed.

Lemma cleanup_logGroup_collector_effects (c : nat) (w : World) :
  collector_effects (effects (cleanup_logGroup c w).1) = collector_effects (effects w).
Proof.
  unfold cleanup_logGroup. destruct (truthy _).
  - by apply collector_effects_emit.
  - apply cleanup_role_collector_effects.
Qed.

Lemma cleanup_function_collector_effects (c : nat) (w : World) :
  collector_effects (effects (cleanup_function c w).1) = collector_effects (effects w).
Proof.
  unfold cleanup_function. destruct (truthy _).
  - by apply collector_effects_emit.
  - apply cleanup_logGroup_collector_effects.
Qed.

Lemma cancelWithoutCleanup_collector_effects (w : World) :
  collector_effects (effects (cancelWithoutCleanup w).1)
  = collector_effects (effects w).
Proof.
  destruct (cancelWithoutCleanup_frame w)
    as (_ & _ & _ & _ & _ & _ & _ & _ & _ & -> & _).
  rewrite collector_effects_app, collector_effects_rejects. apply app_nil_r.
Qed.

Lemma cleanup_cancel_collector_effects (w : World) :
  collector_effects (effects (cleanup_cancel w).1) = collector_effects (effects w).
Proof.
  unfold cleanup_cancel.
  pose proof (cancelWithoutCleanup_collector_effects w) as H1.
  destruct (cancelWithoutCleanup w) as [w1 c]. simpl in *.
  by rewrite cleanup_function_collector_effects.
Qed.

Lemma cleanup_queues_collector_effects (w : World) :
  collector_effects (effects (cleanup_queues w).1) = collector_effects (effects w).
Proof.
  unfold cleanup_queues.
  destruct (truthy (RequestTopicArn _)), (truthy (ResponseQueueUrl _)); simpl;
    rewrite ?collector_effects_app; simpl; by rewrite ?app_nil_r.
Qed.

(** Once a collector run has thrown, a turn of the event loop changes
    neither the collector runs nor the collector promise, and the collector
    does nothing. *)
Lemma step_after_crash (a : Action) (w w' : World) (k : nat) (e : JsError) :
  step a w = Some w' → LoopInv w → collectors w !! k = Some (Crashed e) →
  collectors w' = collectors w
  ∧ resultCollectorPromise (state w') = resultCollectorPromise (state w)
  ∧ collector_effects (effects w') = collector_effects (effects w).
Proof.
  intros H HL Hk.
  assert (Hp : resultCollectorPromise (state w) = Some k) by (by eapply HL).
  assert (Hstart : ∀ w0, resultCollectorPromise (state w0) = Some k →
                         startResultCollectorIfNeeded w0 = w0).
  { intros w0 Hw0. rewrite startResultCollectorIfNeeded_eq, Hw0.
    rewrite bool_decide_true by done. by rewrite orb_true_r. }
  assert (Hidle : ∀ k' pc, collectors w !! k' = Some pc → running pc = false).
  { intros k' pc Hk'.
    assert (Hsame : pc ≠ Exited → k' = k).
    { intros Hne. pose proof (HL k' pc Hk' Hne) as Hp'.
      rewrite Hp in Hp'. by simplify_eq. }
    destruct pc; try done.
    - rewrite Hsame in Hk' by done. by simplify_eq.
    - rewrite Hsame in Hk' by done. by simplify_eq. }
  destruct a as [uuid|i|i failure|i r|k' r|k'| | |j| |j|j names]; cbn [step] in H.
  - case_bool_decide as Hfresh; simplify_eq.
    unfold responsifedFunc, enqueueCallRequest. simpl.
    destruct (useQueue (state w)); simpl.
    + by rewrite Hstart.
    + rewrite collector_effects_app. simpl. by rewrite app_nil_r.
  - unfold queue_response_settled in H.
    repeat case_match; simplify_eq; simpl; [|done].
    rewrite collector_effects_app. simpl. by rewrite app_nil_r.
  - unfold publish_done in H. by repeat case_match; simplify_eq.
  - unfold invoke_done in H.
    destruct (callers w !! i) as [[id' []]|]; try done. by destruct r; simplify_eq.
  - unfold receive_done in H.
    destruct (collectors w !! k') as [pc|] eqn:Hk'; [|done].
    apply Hidle in Hk' as Hrun. by destruct pc.
  - unfold deletes_done in H.
    destruct (collectors w !! k') as [pc|] eqn:Hk'; [|done].
    apply Hidle in Hk' as Hrun. by destruct pc.
  - unfold timer_fires in H. destruct (timers w); simplify_eq.
    by rewrite Hstart.
  - simplify_eq.
    destruct (cancelWithoutCleanup_frame w) as (_ & -> & _ & _ & _ & -> & _).
    by rewrite cancelWithoutCleanup_collector_effects.
  - unfold collector_awaited in H. by repeat case_match; simplify_eq.
  - simplify_eq. unfold cleanup.
    destruct (truthy (SNSLambdaSubscriptionArn (resources (state w)))); simpl.
    + rewrite collector_effects_app. simpl. by rewrite app_nil_r.
    + destruct (cleanup_cancel_frame w) as (Hp' & Hco & _).
      pose proof (cleanup_cancel_collector_effects w) as He.
      by destruct (cleanup_cancel w) as [w1 pc].
  - unfold cleanup_resumes in H.
    destruct (cleanups w !! j) as [[ |c|c|c|c|c|c|c| | |]|] eqn:Hj; simplify_eq;
      cbn [collectors state effects with_cleanups fst snd]; try done.
    + destruct (cleanup_cancel_frame w) as (Hp' & Hco & _).
      by rewrite cleanup_cancel_collector_effects.
    + destruct (cleanup_logGroup_quiet c w) as (Hs & _ & _ & Hco & _).
      by rewrite Hs, Hco, cleanup_logGroup_collector_effects.
    + destruct (cleanup_role_quiet c w) as (Hs & _ & _ & Hco & _).
      by rewrite Hs, Hco, cleanup_role_collector_effects.
    + destruct (cancels w !! c) as [[]|]; simplify_eq;
        cbn [collectors state effects with_cleanups fst snd]; [|done].
      destruct (cleanup_queues_quiet w) as (Hs & _ & _ & Hco & _).
      by rewrite Hs, Hco, cleanup_queues_collector_effects.
  - destruct (deleteRole_resumes_frame _ _ _ _ H) as (c & pc & pc' & es & _ & _ & Hes & ->).
    simpl. rewrite collector_effects_app, (collector_effects_iam es Hes).
    by rewrite app_nil_r.
Qed.

Lemma run_after_crash (tr : list Action) (w w' : World) (k : nat) (e : JsError) :
  run tr w = Some w' → Inv w → collectors w !! k = Some (Crashed e) →
  collectors w' = collectors w
  ∧ resultCollectorPromise (state w') = resultCollectorPromise (state w)
  ∧ collector_effects (effects w') = collector_effects (effects w).
Proof.
  revert w. induction tr as [|a tr IH]; intros w; simpl; [by intros [= ->]|].
  destruct (step a w) as [w1|] eqn:Hs; [|done].
  intros H HI Hk.
  destruct (step_after_crash a w w1 k e Hs (proj2 HI) Hk) as (Hco & Hp & He).
  destruct (IH w1 H) as (Hco' & Hp' & He').
  - by eapply step_Inv.
  - by rewrite Hco.
  - by rewrite Hco', Hp', He'.
Qed.

(** How a step changes the list of collector runs: not at all, by a new run
    that starts polling, or by moving the one run named by the action. *)
Lemma step_collectors (a : Action) (w w' : World) :
  step a w = Some w' →
  collectors w' = collectors w
  ∨ collectors w' = collectors w ++ [Polling]
  ∨ (∃ k r pc', a = ReceiveDone k r ∧ collectors w !! k = Some Polling
                ∧ collectors w' = <[k := pc']> (collectors w) ∧ pc' ≠ Exited)
  ∨ (∃ k, a = DeletesDone k ∧ collectors w !! k = Some Deleting
          ∧ collectors w' =
              <[k := if isEmpty (callResultPromises (state w)) then Exited else Polling]>
                (collectors w)).
Proof.
  destruct a as [uuid|i|i failure|i r|k r|k| | |j| |j|j names]; cbn [step]; intros H.
  - case_bool_decide; simplify_eq.
    unfold responsifedFunc, enqueueCallRequest. simpl.
    destruct (useQueue (state w)); simpl; [|auto].
    rewrite startResultCollectorIfNeeded_eq. destruct (_ || _); simpl; auto.
  - unfold queue_response_settled in H. repeat case_match; simplify_eq; auto.
  - unfold publish_done in H. repeat case_match; simplify_eq; auto.
  - unfold invoke_done in H.
    destruct (callers w !! i) as [[id []]|]; try done. destruct r; simplify_eq; auto.
  - unfold receive_done in H.
    destruct (collectors w !! k) as [[]|] eqn:Hk; try done.
    right. right. left.
    destruct r as [err|Messages]; simplify_eq.
    + exists k, (inl err), (Crashed err). by repeat split.
    + destruct (for_messages_frame Messages Messages w)
        as (_ & _ & _ & _ & Hco & _).
      destruct (for_messages Messages Messages w) as [w1 [err|]];
        simpl in *; simplify_eq; simpl; rewrite Hco.
      * exists k, (inr Messages), (Crashed err). by repeat split.
      * exists k, (inr Messages), Deleting. by repeat split.
  - unfold deletes_done, loop_head in H.
    destruct (collectors w !! k) as [[]|] eqn:Hk; try done.
    right. right. right. exists k.
    destruct (isEmpty _); simplify_eq; simpl; by repeat split.
  - unfold timer_fires in H. destruct (timers w); simplify_eq.
    rewrite startResultCollectorIfNeeded_eq. destruct (_ || _); simpl; auto.
  - simplify_eq. left.
    by destruct (cancelWithoutCleanup_frame w) as (_ & _ & _ & _ & _ & -> & _).
  - unfold collector_awaited in H. repeat case_match; simplify_eq; auto.
  - simplify_eq. left. unfold cleanup.
    destruct (truthy (SNSLambdaSubscriptionArn (resources (state w)))); simpl; [done|].
    destruct (cleanup_cancel_frame w) as (_ & Hco & _).
    by destruct (cleanup_cancel w) as [w1 pc].
  - unfold cleanup_resumes in H. left.
    destruct (cleanups w !! j) as [[ |c|c|c|c|c|c|c| | |]|] eqn:Hj; simplify_eq;
      cbn [collectors with_cleanups fst snd]; try done.
    + by destruct (cleanup_cancel_frame w) as (_ & -> & _).
    + by destruct (cleanup_logGroup_quiet c w) as (_ & _ & _ & -> & _).
    + by destruct (cleanup_role_quiet c w) as (_ & _ & _ & -> & _).
    + destruct (cancels w !! c) as [[]|]; simplify_eq;
        cbn [collectors with_cleanups fst snd]; [|done].
      by destruct (cleanup_queues_quiet w) as (_ & _ & _ & -> & _).
  - left. by destruct (deleteRole_resumes_frame _ _ _ _ H) as (c & pc & pc' & es & _ & _ & Hes & ->).
Qed.

(** A collector run returns only at its loop test, and only when it finds
    the table empty. *)
Lemma step_exits (a : Action) (w w' : World) (k : nat) (pc : CollectorPc) :
  step a w = Some w' → collectors w !! k = Some pc → pc ≠ Exited →
  collectors w' !! k = Some Exited →
  a = DeletesDone k ∧ pc = Deleting
  ∧ isEmpty (callResultPromises (state w)) = true.
Proof.
  intros H Hk Hne Hex.
  assert (Hlt : k < length (collectors w)) by by eapply lookup_lt_Some.
  destruct (step_collectors a w w' H)
    as [Hco | [Hco | [(k0 & r & pc' & -> & Hk0 & Hco & Hpc') | (k0 & -> & Hk0 & Hco)]]];
    rewrite Hco in Hex.
  - congruence.
  - rewrite lookup_app_l in Hex by done. congruence.
  - destruct (decide (k = k0)) as [-> | Hkk].
    + rewrite list_lookup_insert_eq in Hex by done. congruence.
    + rewrite list_lookup_insert_ne in Hex by done. congruence.
  - destruct (decide (k = k0)) as [-> | Hkk].
    + rewrite list_lookup_insert_eq in Hex by done.
      destruct (isEmpty (callResultPromises (state w))); [|done].
      split; [done|]. split; [congruence | done].
    + rewrite list_lookup_insert_ne in Hex by done. congruence.
Qed.

(** *** Batches of messages *)

Lemma resolve_effects (d : nat) (arg : QueuedResponse) (w : World) :
  effects (resolve d arg w) = effects w ++ [DeferredResolve d].
Proof. unfold resolve. simpl. by destruct (deferreds w !! d) as [[]|]. Qed.

Lemma resolve_table (d : nat) (arg : QueuedResponse) (w : World) :
  callResultPromises (state (resolve d arg w)) = callResultPromises (state w).
Proof. unfold resolve. simpl. by destruct (deferreds w !! d) as [[]|]. Qed.

Lemma handle_message_well_formed (raw : list Message) (m : Message) (w : World) :
  well_formed m = true →
  (handle_message raw m w).2 = None
  ∧ acknowledged (effects (handle_message raw m w).1)
    = acknowledged (effects w) ++ [ReceiptHandle m]
  ∧ ∀ ret, parsed m = Some ret →
      callResultPromises (state (handle_message raw m w).1) !! CallId ret = None.
Proof.
  unfold well_formed, parsed. intros Hwf.
  destruct (nonempty (Body m)) as [text|] eqn:Hb.
  2:{ rewrite handle_message_skipped by done. simpl.
      rewrite acknowledged_app. done. }
  destruct (JSON_parse text) as [ret|] eqn:Hj; [|done].
  apply negb_true_iff in Hwf.
  destruct (callResultPromises (state w) !! CallId ret) as [d|] eqn:Ht.
  - erewrite handle_message_matched by done. cbn [fst snd].
    change (effects (emit ?e ?w0)) with (effects w0 ++ [e]).
    change (state (emit ?e ?w0)) with (state w0).
    rewrite resolve_effects, resolve_table, !acknowledged_app. simpl.
    rewrite app_nil_r. split; [done|split; [done|]].
    intros ret' Hret'. injection Hret' as <-.
    apply lookup_delete_eq.
  - erewrite handle_message_unmatched by done. simpl.
    rewrite !acknowledged_app. simpl. rewrite app_nil_r.
    split; [done|split; [done|]].
    intros ret' Hret'. by injection Hret' as <-.
Qed.

Lemma handle_message_throws (raw : list Message) (m : Message) (w : World) (err : JsError) :
  throws (callResultPromises (state w)) m = Some err →
  handle_message raw m w = (w, Some err).
Proof.
  unfold throws.
  destruct (nonempty (Body m)) as [text|] eqn:Hb; [|done].
  destruct (JSON_parse text) as [ret|] eqn:Hj.
  - destruct (inherited (CallId ret)) eqn:Hin; [|done].
    case_bool_decide as Ht; [|done]. intros [= <-].
    by erewrite handle_message_inherited.
  - intros [= <-]. by erewrite handle_message_malformed.
Qed.

(** Handling other messages does not make a message harmless: the
    collector only removes entries. *)
Lemma throws_later (raw : list Message) (m0 m : Message) (w : World) (err : JsError) :
  throws (callResultPromises (state w)) m = Some err →
  throws (callResultPromises (state (handle_message raw m0 w).1)) m = Some err.
Proof.
  unfold throws.
  destruct (nonempty (Body m)) as [text|] eqn:Hb; [|done].
  destruct (JSON_parse text) as [ret|] eqn:Hj; [|done].
  destruct (inherited (CallId ret)) eqn:Hin; [|done].
  case_bool_decide as Ht; [|done]. intros [= <-].
  rewrite bool_decide_true; [done|]. by apply handle_message_table_None.
Qed.

Lemma for_messages_well_formed (raw ms : list Message) (w : World) :
  Forall (fun m => well_formed m = true) ms →
  (for_messages raw ms w).2 = None
  ∧ acknowledged (effects (for_messages raw ms w).1)
    = acknowledged (effects w) ++ (ReceiptHandle <$> ms)
  ∧ ∀ m ret, m ∈ ms → parsed m = Some ret →
      callResultPromises (state (for_messages raw ms w).1) !! CallId ret = None.
Proof.
  revert w. induction ms as [|m ms IH]; intros w Hwf; simpl.
  { rewrite app_nil_r. split; [done|split; [done|]]. by intros m ret ?%elem_of_nil. }
  apply Forall_cons in Hwf as [Hm Hms].
  destruct (handle_message_well_formed raw m w Hm) as (Hnone & Hack & Hgone).
  destruct (handle_message raw m w) as [w1 o]. simpl in *. subst o.
  destruct (IH w1 Hms) as (Hnone' & Hack' & Hgone').
  split; [done|]. split.
  - rewrite Hack', Hack, <- app_assoc. done.
  - intros m' ret [->|Hin]%elem_of_cons Hret; [|by eapply Hgone'].
    apply for_messages_table_None. by apply Hgone.
Qed.

Lemma for_messages_throws (raw ms1 ms2 : list Message) (m : Message) (w : World)
      (err : JsError) :
  Forall (fun m => well_formed m = true) ms1 →
  throws (callResultPromises (state w)) m = Some err →
  for_messages raw (ms1 ++ m :: ms2) w
  = ((for_messages raw ms1 w).1, Some err).
Proof.
  intros Hwf. revert w. induction ms1 as [|m1 ms1 IH]; intros w Hm; simpl.
  { by erewrite handle_message_throws. }
  apply Forall_cons in Hwf as [Hm1 Hms1].
  destruct (handle_message_well_formed raw m1 w Hm1) as (Hnone & _).
  pose proof (throws_later raw m1 m w err Hm) as Hm'.
  destruct (handle_message raw m1 w) as [w1 o]. simpl in *. subst o.
  by apply IH.
Qed.

(** *** The direct path *)
















(** *** Reachable states *)

Lemma reachable_PromiseInv (res : AWSResources) (queue : bool) (w : World) :
  reachable res queue w → PromiseInv w.
Proof. intros [tr Htr]. eapply run_PromiseInv; [exact Htr|]. by intros k. Qed.

Lemma reachable_Awake (res : AWSResources) (queue : bool) (w : World) :
  reachable res queue w → Awake w.
Proof. intros [tr Htr]. eapply run_Awake; [exact Htr|]. by apply Awake_empty. Qed.

Lemma reachable_Registered (res : AWSResources) (queue : bool) (w : World) :
  reachable res queue w → Registered w.
Proof.
  intros [tr Htr]. eapply run_Registered; [exact Htr|apply initial_Inv|].
  by intros d.
Qed.

Lemma exited_or_not (pc : CollectorPc) : pc = Exited ∨ pc ≠ Exited.
Proof. destruct pc; auto. Qed.

Lemma run_app (tr1 tr2 : list Action) (w : World) :
  run (tr1 ++ tr2) w = run tr1 w ≫= run tr2.
Proof.
  revert w. induction tr1 as [|a tr1 IH]; intros w; simpl; [done|].
  destruct (step a w) as [w1|]; [apply IH|done].
Qed.

End WithJson.

Lemma after_crash_reachable :
  reachable (json := example_json) example_resources true after_crash.
Proof.
  exists [Call "abc"%string; ReceiveDone 0 (inr [m_bad; m_abc])].
  vm_compute. reflexivity.
Qed.

End EngineViewFacts.

(* ===================================================================== *)
(** * The lifetime of the collector loop *)
(* ===================================================================== *)

Module CollectorClaims.
Import Engine EngineExamples EngineFacts ExampleFacts.
Import EngineViews EngineViewExamples EngineViewFacts.

(** C5, amended. The loop of a collector run goes on exactly while the
    table is not empty: at its loop test, between two batches, the run polls
    again when the table is not empty and returns when it is empty (it then
    clears [state.resultCollectorPromise] and leaves a zero-delay timer); a
    run returns at no other point, a run that is started starts by polling,
    and there is no stop message.  At most
    one run has not returned, the one [state.resultCollectorPromise] names,
    and while the table is not empty there is such a run; unless a run has
    thrown, it is polling or deleting.  A call that arrives while no
    collector promise is set starts a new run, and a call that arrives while
    one is set starts none; the timer a returning run leaves never starts
    one, since it always finds the table empty or the promise set.  Once a
    run has thrown, its promise stays set and no run is started or resumed
    any more, nothing is received, acknowledged or resolved: calls made
    afterwards are registered but never served. *)
Theorem collector_runs_exactly_while_table_is_not_empty
  {json : Json} (res : AWSResources) (queue : bool) (w : World) :
  reachable res queue w →
  (∀ k, collectors w !! k = Some Deleting →
     ∃ w', step (DeletesDone k) w = Some w'
           ∧ if isEmpty (callResultPromises (state w))
             then collectors w' !! k = Some Exited
                  ∧ resultCollectorPromise (state w') = None
                  ∧ timers w' = S (timers w)
                  ∧ effects w' = effects w ++ [SetTimeout]
             else collectors w' !! k = Some Polling
                  ∧ resultCollectorPromise (state w') = Some k
                  ∧ effects w' = effects w ++ [SqsReceiveMessage])
  ∧ (∀ a w' k pc,
       step a w = Some w' → collectors w !! k = Some pc → pc ≠ Exited →
       collectors w' !! k = Some Exited →
       a = DeletesDone k ∧ pc = Deleting
       ∧ isEmpty (callResultPromises (state w)) = true)
  ∧ (∀ a w' k pc,
       step a w = Some w' → collectors w !! k = None →
       collectors w' !! k = Some pc → pc = Polling)
  ∧ (∀ k pc, collectors w !! k = Some pc → pc ≠ Exited →
             resultCollectorPromise (state w) = Some k)
  ∧ (callResultPromises (state w) ≠ ∅ →
     ∃ k pc, resultCollectorPromise (state w) = Some k
             ∧ collectors w !! k = Some pc ∧ pc ≠ Exited
             ∧ ((∀ k' e, collectors w !! k' ≠ Some (Crashed e)) → running pc = true))
  ∧ (∀ uuid, uuid ∉ uuids w → useQueue (state w) = true →
       ∃ w1, step (Call uuid) w = Some w1
             ∧ callResultPromises (state w1) !! uuid = Some (length (deferreds w))
             ∧ match resultCollectorPromise (state w) with
               | None =>
                   collectors w1 = collectors w ++ [Polling]
                   ∧ resultCollectorPromise (state w1) = Some (length (collectors w))
                   ∧ effects w1 = effects w ++ [SqsReceiveMessage]
               | Some k =>
                   collectors w1 = collectors w
                   ∧ resultCollectorPromise (state w1) = Some k
                   ∧ effects w1 = effects w
               end)
  ∧ (∀ n, timers w = S n → step TimerFires w = Some (with_timers n w))
  ∧ (∀ k e tr w',
       collectors w !! k = Some (Crashed e) → run tr w = Some w' →
       collectors w' = collectors w
       ∧ resultCollectorPromise (state w') = Some k
       ∧ collector_effects (effects w') = collector_effects (effects w)).
Proof.
  intros Hr. pose proof (reachable_Inv _ _ _ Hr) as [HT HL].
  pose proof (reachable_PromiseInv _ _ _ Hr) as HP.
  pose proof (reachable_Awake _ _ _ Hr) as HA.
  split; [|split; [|split; [|split; [|split; [|split; [|split]]]]]].
  - intros k Hk. cbn [step]. unfold deletes_done, loop_head. rewrite Hk.
    assert (Hlt : k < length (collectors w)) by by eapply lookup_lt_Some.
    assert (Hp : resultCollectorPromise (state w) = Some k) by by eapply HL.
    destruct (isEmpty (callResultPromises (state w))); eexists; (split; [done|]);
      simpl; rewrite list_lookup_insert_eq by done; by rewrite ?Hp.
  - intros a w' k pc. apply step_exits.
  - intros a w' k pc Hst Hnone Hk.
    apply lookup_ge_None in Hnone.
    destruct (step_collectors a w w' Hst)
      as [Hco | [Hco | [(k0 & r & pc' & _ & _ & Hco & _) | (k0 & _ & _ & Hco)]]];
      rewrite Hco in Hk.
    + apply lookup_lt_Some in Hk. lia.
    + apply lookup_app_Some in Hk as [Hk | [_ Hk]].
      * apply lookup_lt_Some in Hk. lia.
      * destruct (k - length (collectors w)) as [|n]; simpl in Hk; [congruence|].
        by destruct n.
    + apply lookup_lt_Some in Hk. rewrite length_insert in Hk. lia.
    + apply lookup_lt_Some in Hk. rewrite length_insert in Hk. lia.
  - exact HL.
  - intros Hne. destruct (HA Hne) as [k Hk].
    destruct (HP k Hk) as (pc & Hpc & Hnx).
    exists k, pc. split; [done|]. split; [done|]. split; [done|].
    intros Hnone. destruct pc; try done. by destruct (Hnone k err).
  - intros uuid Hfresh Hq. cbn [step]. rewrite bool_decide_false by done.
    eexists. split; [done|].
    unfold responsifedFunc, enqueueCallRequest. simpl. rewrite Hq.
    rewrite startResultCollectorIfNeeded_eq. simpl.
    assert (He : isEmpty (<[uuid:=length (deferreds w)]> (callResultPromises (state w)))
                 = false).
    { apply isEmpty_false. apply insert_non_empty. }
    rewrite He. simpl.
    destruct (resultCollectorPromise (state w)) as [k|] eqn:Hp.
    + rewrite bool_decide_true by done. simpl. by rewrite lookup_insert_eq, Hp.
    + rewrite bool_decide_false by (by intros [? ?]). simpl.
      by rewrite lookup_insert_eq.
  - intros n Hn. cbn [step]. unfold timer_fires. rewrite Hn.
    rewrite startResultCollectorIfNeeded_eq. simpl.
    destruct (isEmpty (callResultPromises (state w))) eqn:He; [done|].
    apply isEmpty_false in He. destruct (HA He) as [k Hk].
    rewrite Hk. by rewrite bool_decide_true by done.
  - intros k e tr w' Hk Hrun.
    destruct (run_after_crash tr w w' k e Hrun (conj HT HL) Hk) as (Hco & Hp & He).
    split; [done|]. split; [|done]. rewrite Hp. by eapply HL.
Qed.

(** The engine after a call whose first poll came back empty: the
    collector is at its loop test and the call is still pending. *)
Lemma after_empty_poll_reachable :
  reachable (json := example_json) example_resources true
    (default start
       (run (json := example_json) [Call "abc"%string; ReceiveDone 0 (inr [])] start)).
Proof. exists [Call "abc"%string; ReceiveDone 0 (inr [])]. vm_compute. reflexivity. Qed.

Lemma collector_runs_exactly_while_table_is_not_empty_witness :
  (∃ w', step (json := example_json) (DeletesDone 0) after_response = Some w'
         ∧ collectors w' !! 0 = Some Exited
         ∧ resultCollectorPromise (state w') = None
         ∧ timers w' = 1
         ∧ effects w' = effects after_response ++ [SetTimeout])
  ∧ (let w := default start
                (run (json := example_json)
                   [Call "abc"%string; ReceiveDone 0 (inr [])] start) in
     ∃ w', step (json := example_json) (DeletesDone 0) w = Some w'
           ∧ collectors w' !! 0 = Some Polling
           ∧ resultCollectorPromise (state w') = Some 0
           ∧ effects w' = effects w ++ [SqsReceiveMessage])
  ∧ (collectors after_crash_call = collectors after_crash
     ∧ resultCollectorPromise (state after_crash_call) = Some 0
     ∧ collector_effects (effects after_crash_call)
       = collector_effects (effects after_crash)).
Proof.
  split; [|split].
  - destruct (collector_runs_exactly_while_table_is_not_empty (json := example_json)
                example_resources true after_response after_response_reachable)
      as (H1 & _).
    destruct (H1 0 eq_refl) as (w' & Hs & Hw). exists w'. split; [exact Hs | exact Hw].
  - destruct (collector_runs_exactly_while_table_is_not_empty (json := example_json)
                example_resources true _ after_empty_poll_reachable)
      as (H1 & _).
    destruct (H1 0 eq_refl) as (w' & Hs & Hw). exists w'. split; [exact Hs | exact Hw].
  - destruct (collector_runs_exactly_while_table_is_not_empty (json := example_json)
                example_resources true after_crash after_crash_reachable)
      as (_ & _ & _ & _ & _ & _ & _ & H7).
    apply (H7 0 syntaxError [Call "def"%string]); vm_compute; reflexivity.
Defined.

End CollectorClaims.

(* ===================================================================== *)
(** * Further properties of the code *)
(* ===================================================================== *)

Module EngineProperties.
Import Engine EngineExamples EngineFacts ExampleFacts.
Import EngineViews EngineViewExamples EngineViewFacts.

Section WithJson.
Context {json : Json}.


(** X2. A settled deferred is final: whatever the engine does afterwards
    (further batches, a redelivered response, a drain, a cleanup), the
    promise keeps the state it was settled with, and a caller still waiting
    on a resolved one resumes with that very response. *)
Theorem settled_deferred_is_final
        (tr : list Action) (w w' : World) (d : nat) (p : PromiseState) :
  run tr w = Some w' →
  deferreds w !! d = Some p → settled p = true →
  deferreds w' !! d = Some p
  ∧ ∀ i id q, p = Resolved q →
      callers w' !! i = Some (mkCaller id (AwaitQueueResponse d)) →
      queue_response_settled i w'
      = Some (set_caller i id (AwaitPublish q) (emit (SnsPublish id) w')).
Proof.
  intros Hrun Hd Hp.
  pose proof (run_settled_stable tr w w' d p Hrun Hd Hp) as Hd'.
  split; [done|]. intros i id q -> Hi.
  unfold queue_response_settled. by rewrite Hi, Hd'.
Qed.

(** X3. The table holds exactly the calls whose response is outstanding: in
    every reachable state a deferred is pending if and only if it is
    registered in [callResultPromises], and then under one CallId only,
    which [uuidv4()] has handed out. *)
Theorem table_holds_exactly_the_pending_calls
        (res : AWSResources) (queue : bool) (w : World) (d : nat) :
  reachable res queue w →
  (deferreds w !! d = Some Pending
   ↔ ∃ id, callResultPromises (state w) !! id = Some d)
  ∧ ∀ id1 id2,
      callResultPromises (state w) !! id1 = Some d →
      callResultPromises (state w) !! id2 = Some d →
      id1 = id2 ∧ id1 ∈ uuids w.
Proof.
  intros Hr. pose proof (reachable_Registered _ _ _ Hr) as HR.
  destruct (reachable_Inv _ _ _ Hr) as [HT _].
  split; [split|].
  - apply HR.
  - intros [id Hid]. by eapply inv_pending.
  - intros id1 id2 H1 H2. split; [by eapply inv_inj|by eapply inv_uuid].
Qed.

(** X4. No pending call is left without a collector.  In every reachable
    state in which a call's promise is pending, [state.resultCollectorPromise]
    is set and belongs to a collector run that has not returned: it is
    waiting for messages, deleting handled ones, or it threw.  A call that
    arrives just as the collector finds the table empty is not lost. *)
Theorem pending_call_has_a_collector
        (res : AWSResources) (queue : bool) (w : World) (d : nat) :
  reachable res queue w →
  deferreds w !! d = Some Pending →
  ∃ k pc, resultCollectorPromise (state w) = Some k
          ∧ collectors w !! k = Some pc ∧ pc ≠ Exited.
Proof.
  intros Hr Hd.
  destruct (reachable_Registered _ _ _ Hr d Hd) as [id Hid].
  assert (HA : Awake w).
  { destruct Hr as [tr Htr]. eapply run_Awake; [exact Htr|]. by apply Awake_empty. }
  destruct HA as [k Hk].
  { intros Ht. by rewrite Ht, lookup_empty in Hid. }
  destruct (reachable_PromiseInv _ _ _ Hr k Hk) as (pc & Hpc & Hne).
  by exists k, pc.
Qed.

(** X5. A batch in which every message has no body, or a body that parses
    and whose [CallId] is not the name of a member of [Object.prototype], is
    handled to its end: the collector does not throw, acknowledges every
    message of the batch once and in order, and no CallId carried by the
    batch is left in the table. *)
Theorem well_formed_batch_is_acknowledged_in_order
        (w : World) (k : nat) (ms : list Message) :
  collectors w !! k = Some Polling →
  Forall (fun m => well_formed m = true) ms →
  ∃ w', receive_done k (inr ms) w = Some w'
    ∧ collectors w' !! k = Some Deleting
    ∧ acknowledged (effects w') = acknowledged (effects w) ++ (ReceiptHandle <$> ms)
    ∧ ∀ m ret, m ∈ ms → parsed m = Some ret →
        callResultPromises (state w') !! CallId ret = None.
Proof.
  intros Hk Hwf. unfold receive_done. rewrite Hk.
  destruct (for_messages_well_formed ms ms w Hwf) as (Hnone & Hack & Hgone).
  destruct (for_messages_frame ms ms w) as (_ & _ & _ & _ & Hco & _).
  destruct (for_messages ms ms w) as [w1 o]. simpl in *. subst o.
  eexists. split; [done|]. simpl. split; [|done].
  rewrite Hco, list_lookup_insert_eq; [done|]. by eapply lookup_lt_Some.
Qed.

Lemma handle_message_table_keep (raw : list Message) (m : Message) (w : World)
      (id : string) :
  (∀ ret, parsed m = Some ret → CallId ret ≠ id) →
  callResultPromises (state (handle_message raw m w).1) !! id
  = callResultPromises (state w) !! id.
Proof.
  unfold parsed. intros Hother.
  destruct (nonempty (Body m)) as [text|] eqn:Hb.
  2:{ by rewrite handle_message_skipped. }
  destruct (JSON_parse text) as [ret|] eqn:Hj.
  2:{ by erewrite handle_message_malformed. }
  destruct (callResultPromises (state w) !! CallId ret) as [d|] eqn:Ht.
  2:{ destruct (inherited (CallId ret)) eqn:Hin;
        [by erewrite handle_message_inherited | by erewrite handle_message_unmatched]. }
  erewrite handle_message_matched by done. cbn [fst].
  change (state (emit ?e ?w0)) with (state w0). rewrite resolve_table. simpl.
  apply lookup_delete_ne. by apply Hother.
Qed.

Lemma for_messages_table_keep (raw ms : list Message) (w : World) (id : string) :
  (∀ m ret, m ∈ ms → parsed m = Some ret → CallId ret ≠ id) →
  callResultPromises (state (for_messages raw ms w).1) !! id
  = callResultPromises (state w) !! id.
Proof.
  revert w. induction ms as [|m ms IH]; intros w Hother; simpl; [done|].
  assert (H1 : callResultPromises (state (handle_message raw m w).1) !! id
               = callResultPromises (state w) !! id).
  { apply handle_message_table_keep. intros ret. apply Hother. apply elem_of_cons. by left. }
  destruct (handle_message raw m w) as [w1 [err|]]; simpl in *; [done|].
  rewrite IH; [done|]. intros m' ret Hin. apply Hother. apply elem_of_cons. by right.
Qed.

(** X6. A message at which the collector throws stops the batch where it
    stands.  Such a message is one whose body does not parse (the collector
    throws the parser's error) or one whose [CallId] names a member of
    [Object.prototype] and has no entry of its own in the table (a
    [TypeError]).  Only the messages ahead of it are handled and
    acknowledged, and a call whose response sits behind it in the batch
    stays pending in the table. *)
Theorem malformed_body_stops_the_batch
        (res : AWSResources) (queue : bool) (w : World) (k : nat)
        (ms1 ms2 : list Message) (m : Message) (err : JsError) :
  reachable res queue w →
  collectors w !! k = Some Polling →
  Forall (fun m => well_formed m = true) ms1 →
  throws (callResultPromises (state w)) m = Some err →
  let raw := ms1 ++ m :: ms2 in
  let w1 := (for_messages raw ms1 w).1 in
  receive_done k (inr raw) w = Some (set_collector k (Crashed err) w1)
  ∧ acknowledged (effects w1) = acknowledged (effects w) ++ (ReceiptHandle <$> ms1)
  ∧ (err = syntaxError ∨ err = typeError)
  ∧ ∀ id d,
      callResultPromises (state w) !! id = Some d →
      (∀ m1 ret, m1 ∈ ms1 → parsed m1 = Some ret → CallId ret ≠ id) →
      callResultPromises (state w1) !! id = Some d
      ∧ deferreds w1 !! d = Some Pending.
Proof.
  intros Hr Hk Hwf Hm raw w1.
  destruct (reachable_Inv _ _ _ Hr) as [HT _].
  split; [|split; [|split]].
  - unfold receive_done. rewrite Hk.
    unfold raw. by rewrite (for_messages_throws _ ms1 ms2 m w err Hwf Hm).
  - by apply for_messages_well_formed.
  - unfold throws in Hm. repeat case_match; simplify_eq; auto.
  - intros id d Hid Hother.
    assert (Hid' : callResultPromises (state w1) !! id = Some d).
    { unfold w1. by rewrite for_messages_table_keep. }
    split; [done|].
    eapply inv_pending; [|exact Hid']. by apply for_messages_TableInv.
Qed.

(** X7. A collector run that has thrown (a rejected [receiveMessage], a
    malformed body) is never replaced: from then on no collector run is
    started or resumed, [state.resultCollectorPromise] stays the promise of
    the run that threw, nothing is received, acknowledged or resolved any
    more, [startResultCollectorIfNeeded] does nothing, and every drain
    started afterwards throws that run's error. *)
Theorem thrown_collector_is_never_replaced
        (res : AWSResources) (queue : bool) (w w' : World) (k : nat) (e : JsError)
        (tr : list Action) :
  reachable res queue w →
  collectors w !! k = Some (Crashed e) →
  run tr w = Some w' →
  collectors w' = collectors w
  ∧ resultCollectorPromise (state w') = Some k
  ∧ collector_effects (effects w') = collector_effects (effects w)
  ∧ startResultCollectorIfNeeded w' = w'
  ∧ let w1 := (cancelWithoutCleanup w').1 in
    let j := (cancelWithoutCleanup w').2 in
    cancels w1 !! j = Some (AwaitCollector k)
    ∧ collector_awaited j w1
      = Some (with_cancels (<[j := CancelThrew e]> (cancels w1)) w1).
Proof.
  intros Hr Hk Hrun. pose proof (reachable_Inv _ _ _ Hr) as HI.
  destruct (run_after_crash tr w w' k e Hrun HI Hk) as (Hco & Hp & He).
  assert (Hpk : resultCollectorPromise (state w) = Some k)
    by (by eapply (proj2 HI)).
  rewrite Hpk in Hp.
  split; [done|]. split; [done|]. split; [done|]. split.
  { rewrite startResultCollectorIfNeeded_eq, Hp.
    rewrite bool_decide_true by done. by rewrite orb_true_r. }
  intros w1 j.
  destruct (cancelWithoutCleanup_frame w')
    as (_ & _ & _ & _ & _ & Hco1 & _ & _ & _ & _ & Hcn & Hj & _).
  fold w1 in Hco1, Hcn. fold j in Hj. rewrite Hp in Hcn.
  assert (Hlook : cancels w1 !! j = Some (AwaitCollector k)).
  { rewrite Hcn, Hj. by rewrite list_lookup_middle. }
  split; [done|].
  unfold collector_awaited. by rewrite Hlook, Hco1, Hco, Hk.
Qed.

(** X8. A drain can always finish.  From any reachable state, once
    [cancelWithoutCleanup] has been called, at most three turns of the event
    loop complete it: the pending poll of the collector comes back (here
    empty), its deletions end and the collector, finding the table empty,
    returns; the drain then returns, with no collector promise set and every
    collector run returned.  Only if the collector had thrown does the drain
    throw, with the collector's error. *)
Theorem drain_can_always_finish (res : AWSResources) (queue : bool) (w : World) :
  reachable res queue w →
  let w1 := (cancelWithoutCleanup w).1 in
  let j := (cancelWithoutCleanup w).2 in
  ∃ tr w2,
    length tr ≤ 3 ∧ run tr w1 = Some w2
    ∧ ((cancels w2 !! j = Some CancelReturned
        ∧ resultCollectorPromise (state w2) = None
        ∧ ∀ k pc, collectors w2 !! k = Some pc → pc = Exited)
       ∨ ∃ k e, collectors w !! k = Some (Crashed e)
                ∧ cancels w2 !! j = Some (CancelThrew e)).
Proof.
  intros Hr w1 j.
  destruct (reachable_Inv _ _ _ Hr) as [HT HL].
  pose proof (reachable_PromiseInv _ _ _ Hr) as HP.
  destruct (cancelWithoutCleanup_frame w)
    as (Ht & Hp & _ & _ & _ & Hco & _ & _ & _ & _ & Hcn & Hj & _).
  fold w1 in Ht, Hp, Hco, Hcn. fold j in Hj. clearbody w1 j. subst j.
  assert (Hothers : ∀ k0 k pc, resultCollectorPromise (state w) = Some k0 →
            collectors w !! k = Some pc → k ≠ k0 → pc = Exited).
  { intros k0 k pc Hk0 Hk Hne. destruct (exited_or_not pc) as [|Hpc]; [done|].
    pose proof (HL k pc Hk Hpc) as Hk'. rewrite Hk0 in Hk'. by simplify_eq. }
  destruct (resultCollectorPromise (state w)) as [k|] eqn:Hprom.
  2:{ exists [], w1. split; [simpl; lia|]. split; [done|]. left.
      split; [by rewrite Hcn, list_lookup_middle|]. split; [done|].
      intros k pc Hk. rewrite Hco in Hk.
      destruct (exited_or_not pc) as [|Hpc]; [done|].
      pose proof (HL k pc Hk Hpc). congruence. }
  destruct (HP k Hprom) as (pc & Hk & Hpc).
  assert (Hlt : k < length (collectors w)) by (by eapply lookup_lt_Some).
  assert (Hwait : cancels w1 !! length (cancels w) = Some (AwaitCollector k))
    by (by rewrite Hcn, list_lookup_middle).
  assert (Hexit : ∀ (ks : list CollectorPc) k' pc',
            <[k := Exited]> ks !! k' = Some pc' →
            (k' ≠ k → ks !! k' = collectors w !! k') → pc' = Exited).
  { intros ks k' pc' Hl Hsame. destruct (decide (k' = k)) as [Heq|Hne].
    - rewrite Heq in Hl. apply list_lookup_insert_Some in Hl.
      by destruct Hl as [(_ & <- & _)|[? _]].
    - rewrite list_lookup_insert_ne in Hl by done.
      rewrite Hsame in Hl by done. by eapply (Hothers k). }
  destruct pc as [| | |e]; [| |done|].
  - exists [ReceiveDone k (inr []); DeletesDone k; CollectorAwaited (length (cancels w))].
    eexists. split; [simpl; lia|].
    split.
    { cbn [run step]. unfold receive_done. rewrite Hco, Hk. cbn [for_messages].
      unfold deletes_done, set_collector. simpl.
      rewrite list_lookup_insert_eq by (by rewrite Hco).
      unfold loop_head. simpl. rewrite Ht.
      unfold isEmpty. rewrite bool_decide_true by done. simpl.
      unfold collector_awaited. simpl. rewrite Hwait.
      rewrite list_lookup_insert_eq; [done|].
      by rewrite length_insert, Hco. }
    left. simpl. split; [|split; [done|]].
    + rewrite list_lookup_insert_eq; [done|]. by eapply lookup_lt_Some.
    + intros k' pc' Hl. eapply Hexit; [exact Hl|].
      intros Hne. by rewrite list_lookup_insert_ne, Hco.
  - exists [DeletesDone k; CollectorAwaited (length (cancels w))].
    eexists. split; [simpl; lia|].
    split.
    { cbn [run step]. unfold deletes_done. rewrite Hco, Hk.
      unfold loop_head. rewrite Ht.
      unfold isEmpty. rewrite bool_decide_true by done. simpl.
      unfold collector_awaited. simpl. rewrite Hwait.
      rewrite list_lookup_insert_eq; [done|]. by rewrite Hco. }
    left. simpl. split; [|split; [done|]].
    + rewrite list_lookup_insert_eq; [done|]. by eapply lookup_lt_Some.
    + intros k' pc' Hl. eapply Hexit; [exact Hl|].
      intros Hne. by rewrite Hco.
  - exists [CollectorAwaited (length (cancels w))].
    eexists. split; [simpl; lia|].
    split.
    { cbn [run step]. unfold collector_awaited. by rewrite Hwait, Hco, Hk. }
    right. exists k, e. split; [done|]. simpl.
    rewrite list_lookup_insert_eq; [done|]. by eapply lookup_lt_Some.
Qed.

Lemma CleanupBlocked_stage (k j c : nat) (pc : CleanupPc) (w : World) :
  cleanups w !! j = Some pc →
  before_await c pc →
  cancels w !! c = Some (AwaitCollector k)
  ∨ (∃ e, cancels w !! c = Some (CancelThrew e)
          ∧ collectors w !! k = Some (Crashed e)) →
  CleanupBlocked k j w.
Proof.
  intros Hj Hpc Hc. unfold CleanupBlocked. rewrite Hj.
  by destruct Hpc as [-> | [-> | [-> | [-> | [-> | [-> | ->]]]]]].
Qed.

Lemma cleanup_cancel_blocked (k j : nat) (w : World) :
  resultCollectorPromise (state w) = Some k →
  j < length (cleanups w) →
  CleanupBlocked k j
    (with_cleanups (<[j := (cleanup_cancel w).2]> (cleanups (cleanup_cancel w).1))
                   (cleanup_cancel w).1).
Proof.
  intros Hp Hj.
  destruct (cleanup_cancel_frame w) as (_ & _ & Hcl & Hcn & Hpc).
  rewrite Hp in Hcn.
  eapply (CleanupBlocked_stage k j (length (cancels w))); simpl.
  - rewrite list_lookup_insert_eq; [done|]. by rewrite Hcl.
  - exact (before_await_start _ _ Hpc).
  - left. by rewrite Hcn, list_lookup_middle.
Qed.

(** While collector run [k] stays as it threw, a blocked [cleanup] stays
    blocked. *)
Lemma step_CleanupBlocked (a : Action) (w w' : World) (k j : nat) (e : JsError) :
  step a w = Some w' → LoopInv w → collectors w !! k = Some (Crashed e) →
  CleanupBlocked k j w → CleanupBlocked k j w'.
Proof.
  intros Hs HL Hk HB.
  assert (Hp : resultCollectorPromise (state w) = Some k) by (by eapply HL).
  destruct (step_after_crash a w w' k e Hs HL Hk) as (Hco & _ & _).
  destruct (step_frame a w w' Hs) as (_ & Hcn & Hcl).
  unfold CleanupBlocked in HB.
  destruct (cleanups w !! j) as [pc|] eqn:Hj; [|done].
  assert (Hlt : j < length (cleanups w)) by (by eapply lookup_lt_Some).
  destruct (Hcl j pc Hj) as [Hj' | [-> | [names ->]]].
  - (* run [j] of [cleanup] did not move *)
    assert (Hstage : ∀ c,
      before_await c pc →
      cancels w !! c = Some (AwaitCollector k)
      ∨ (∃ e, cancels w !! c = Some (CancelThrew e)
              ∧ collectors w !! k = Some (Crashed e)) →
      CleanupBlocked k j w').
    { intros c Hpc Hc. eapply CleanupBlocked_stage; [exact Hj'|exact Hpc|].
      rewrite Hco.
      destruct Hc as [Hc|(e' & Hc & Hk')].
      - destruct (Hcn c _ Hc) as [Hc' | ->]; [by left|].
        right. exists e. split; [|done].
        cbn [step] in Hs. unfold collector_awaited in Hs.
        rewrite Hc, Hk in Hs. simplify_eq. simpl.
        rewrite list_lookup_insert_eq; [done|]. by eapply lookup_lt_Some.
      - destruct (Hcn c _ Hc) as [Hc' | ->].
        + right. by exists e'.
        + cbn [step] in Hs. unfold collector_awaited in Hs.
          by rewrite Hc in Hs. }
    destruct pc as [ |c|c|c|c|c|c|c| | |e']; try done;
      try (apply (Hstage c); [unfold before_await; auto 10|done]).
    + unfold CleanupBlocked. by rewrite Hj'.
    + unfold CleanupBlocked. by rewrite Hj', Hco.
  - (* run [j] of [cleanup] resumes *)
    cbn [step] in Hs. unfold cleanup_resumes in Hs. rewrite Hj in Hs.
    destruct pc as [ |c|c|c|c|c|c|c| | |e']; try done; simplify_eq.
    + by apply cleanup_cancel_blocked.
    + destruct (cleanup_logGroup_quiet c w) as (_ & _ & _ & Hco' & Hcn' & Hcl' & _).
      eapply (CleanupBlocked_stage k j c); cbn [cleanups cancels collectors with_cleanups].
      * rewrite list_lookup_insert_eq; [done|]. by rewrite Hcl'.
      * unfold before_await.
        destruct (cleanup_logGroup_pc c w) as [-> | [-> | ->]]; auto 10.
      * by rewrite Hcn', Hco'.
    + destruct (cleanup_role_quiet c w) as (_ & _ & _ & Hco' & Hcn' & Hcl' & _).
      eapply (CleanupBlocked_stage k j c); cbn [cleanups cancels collectors with_cleanups].
      * rewrite list_lookup_insert_eq; [done|]. by rewrite Hcl'.
      * unfold before_await.
        destruct (cleanup_role_pc c w) as [-> | ->]; auto 10.
      * by rewrite Hcn', Hco'.
    + eapply (CleanupBlocked_stage k j c); simpl.
      * by rewrite list_lookup_insert_eq.
      * unfold before_await. auto 10.
      * done.
    + destruct HB as [Hc|(e' & Hc & Hk')]; rewrite Hc in Hs; [done|].
      simplify_eq. unfold CleanupBlocked. simpl.
      by rewrite list_lookup_insert_eq.
  - (* run [j] of [cleanup] resumes inside [deleteRole] *)
    cbn [step] in Hs.
    destruct (deleteRole_resumes_frame _ _ _ _ Hs)
      as (c & pc0 & pc' & es & Hj' & Hpc & _ & ->).
    rewrite Hj in Hj'. injection Hj' as <-.
    eapply (CleanupBlocked_stage k j c); simpl.
    + by rewrite list_lookup_insert_eq.
    + unfold before_await. destruct Hpc as [[_ ->] | [[_ ->] | [_ ->]]]; auto 10.
    + by destruct Hpc as [[-> _] | [[-> _] | [-> _]]].
Qed.

Lemma run_CleanupBlocked (tr : list Action) (w w' : World) (k j : nat) (e : JsError) :
  run tr w = Some w' → Inv w → collectors w !! k = Some (Crashed e) →
  CleanupBlocked k j w → CleanupBlocked k j w' ∧ collectors w' !! k = Some (Crashed e).
Proof.
  revert w. induction tr as [|a tr IH]; intros w; simpl; [by intros [= ->]|].
  destruct (step a w) as [w1|] eqn:Hs; [|done].
  intros H HI Hk HB.
  destruct (step_after_crash a w w1 k e Hs (proj2 HI) Hk) as (Hco & _ & _).
  apply (IH w1 H).
  - by eapply step_Inv.
  - by rewrite Hco.
  - by eapply step_CleanupBlocked; [exact Hs|apply HI|..].
Qed.

(** X9. After the collector has thrown, [cleanup] never deletes the request
    topic and the response queue: a run of [cleanup] started then never gets
    past [await cancelPromise], so it neither reaches the deletion of the
    topic and the queue nor returns; if it ends, it throws the collector's
    error. *)
Theorem cleanup_after_a_thrown_collector_leaves_the_queues
        (res : AWSResources) (queue : bool) (w w' : World) (k : nat) (e : JsError)
        (tr : list Action) :
  reachable res queue w →
  collectors w !! k = Some (Crashed e) →
  run tr (cleanup w) = Some w' →
  let j := length (cleanups w) in
  cleanups w' !! j ≠ Some DeletingQueues
  ∧ cleanups w' !! j ≠ Some CleanupReturned
  ∧ ∀ e', cleanups w' !! j = Some (CleanupThrew e') → e' = e.
Proof.
  intros Hr Hk Hrun j.
  pose proof (reachable_Inv _ _ _ Hr) as HI.
  assert (Hp : resultCollectorPromise (state w) = Some k) by (by eapply (proj2 HI)).
  assert (Hstart : step CallCleanup w = Some (cleanup w)) by done.
  destruct (step_after_crash _ _ _ k e Hstart (proj2 HI) Hk) as (Hco & _ & _).
  assert (HB : CleanupBlocked k j (cleanup w)).
  { unfold cleanup.
    destruct (truthy (SNSLambdaSubscriptionArn (resources (state w)))).
    - unfold CleanupBlocked. simpl. by rewrite list_lookup_middle.
    - destruct (cleanup_cancel_frame w) as (_ & _ & Hcl & Hcn & Hpc).
      rewrite Hp in Hcn.
      destruct (cleanup_cancel w) as [w1 pc]. simpl in *.
      eapply (CleanupBlocked_stage k j (length (cancels w))); simpl.
      + rewrite Hcl. by apply list_lookup_middle.
      + exact (before_await_start _ _ Hpc).
      + left. by rewrite Hcn, list_lookup_middle. }
  destruct (run_CleanupBlocked tr (cleanup w) w' k j e Hrun) as [HB' Hk'].
  - by eapply step_Inv.
  - by rewrite Hco.
  - exact HB.
  - unfold CleanupBlocked in HB'.
    destruct (cleanups w' !! j) as [[ |c|c|c|c|c|c|c| | |e']|]; try done.
    split; [done|]. split; [done|]. intros e'' [= <-]. congruence.
Qed.


End WithJson.


Lemma settled_deferred_is_final_witness :
  deferreds (cancelWithoutCleanup after_response).1 !! 0
  = Some (Resolved (mkQueued return_abc [m_abc])).
Proof.
  destruct (settled_deferred_is_final (json := example_json)
              [CallCancel] after_response (cancelWithoutCleanup after_response).1
              0 (Resolved (mkQueued return_abc [m_abc]))) as [H _].
  - reflexivity.
  - vm_compute. reflexivity.
  - reflexivity.
  - exact H.
Defined.

Lemma table_holds_exactly_the_pending_calls_witness :
  ∃ id, callResultPromises (state after_call) !! id = Some 0.
Proof.
  destruct (table_holds_exactly_the_pending_calls (json := example_json)
              example_resources true after_call 0 after_call_reachable) as [H _].
  apply H. vm_compute. reflexivity.
Defined.

Lemma pending_call_has_a_collector_witness :
  ∃ k pc, resultCollectorPromise (state after_call) = Some k
          ∧ collectors after_call !! k = Some pc ∧ pc ≠ Exited.
Proof.
  apply (pending_call_has_a_collector (json := example_json)
           example_resources true after_call 0 after_call_reachable).
  vm_compute. reflexivity.
Defined.

Lemma well_formed_batch_is_acknowledged_in_order_witness :
  ∃ w', receive_done (json := example_json) 0 (inr [m_abc; m_zzz]) after_call = Some w'
    ∧ collectors w' !! 0 = Some Deleting
    ∧ acknowledged (effects w')
      = acknowledged (effects after_call) ++ ["receipt-1"; "receipt-3"]%string.
Proof.
  destruct (well_formed_batch_is_acknowledged_in_order (json := example_json)
              after_call 0 [m_abc; m_zzz]) as (w' & H1 & H2 & H3 & _).
  - vm_compute. reflexivity.
  - repeat constructor.
  - exists w'. split; [exact H1|]. split; [exact H2|exact H3].
Defined.

Lemma malformed_body_stops_the_batch_witness :
  (receive_done (json := example_json) 0 (inr [m_bad; m_abc]) after_call
   = Some (set_collector 0 (Crashed syntaxError) after_call)
   ∧ callResultPromises (state after_call) !! "abc"%string = Some 0
   ∧ deferreds after_call !! 0 = Some Pending)
  ∧ (receive_done (json := example_json) 0 (inr [m_zzz; m_toString; m_abc]) after_call
     = Some (set_collector 0 (Crashed typeError)
               (for_messages (json := example_json)
                  [m_zzz; m_toString; m_abc] [m_zzz] after_call).1)
     ∧ acknowledged
         (effects (for_messages (json := example_json)
                     [m_zzz; m_toString; m_abc] [m_zzz] after_call).1)
       = acknowledged (effects after_call) ++ ["receipt-3"%string]).
Proof.
  split.
  - destruct (malformed_body_stops_the_batch (json := example_json)
                example_resources true after_call 0 [] [m_abc] m_bad syntaxError)
      as (H1 & _ & _ & H3).
    + exact after_call_reachable.
    + vm_compute. reflexivity.
    + constructor.
    + vm_compute. reflexivity.
    + split; [exact H1|]. apply (H3 "abc"%string 0).
      * vm_compute. reflexivity.
      * intros m1 ret Hin. by apply elem_of_nil in Hin.
  - destruct (malformed_body_stops_the_batch (json := example_json)
                example_resources true after_call 0 [m_zzz] [m_abc] m_toString typeError)
      as (H1 & H2 & _).
    + exact after_call_reachable.
    + vm_compute. reflexivity.
    + repeat constructor.
    + vm_compute. reflexivity.
    + split; [exact H1 | exact H2].
Defined.

Lemma thrown_collector_is_never_replaced_witness :
  collectors after_crash_call = collectors after_crash
  ∧ resultCollectorPromise (state after_crash_call) = Some 0
  ∧ collector_effects (effects after_crash_call)
    = collector_effects (effects after_crash).
Proof.
  destruct (thrown_collector_is_never_replaced (json := example_json)
              example_resources true after_crash after_crash_call 0 syntaxError
              [Call "def"%string])
    as (H1 & H2 & H3 & _).
  - exact after_crash_reachable.
  - vm_compute. reflexivity.
  - vm_compute. reflexivity.
  - split; [exact H1|]. split; [exact H2|exact H3].
Defined.

Lemma cleanup_after_a_thrown_collector_leaves_the_queues_witness :
  cleanups cleanup_after_crash !! 0 ≠ Some DeletingQueues
  ∧ cleanups cleanup_after_crash !! 0 ≠ Some CleanupReturned
  ∧ cleanups cleanup_after_crash !! 0 = Some (CleanupThrew syntaxError).
Proof.
  destruct (cleanup_after_a_thrown_collector_leaves_the_queues (json := example_json)
              example_resources true after_crash cleanup_after_crash 0 syntaxError
              cleanup_after_crash_trace)
    as (H1 & H2 & _).
  - exact after_crash_reachable.
  - vm_compute. reflexivity.
  - vm_compute. reflexivity.
  - split; [exact H1|]. split; [exact H2|]. vm_compute. reflexivity.
Defined.

Lemma drain_can_always_finish_witness :
  let w1 := (cancelWithoutCleanup after_call).1 in
  let j := (cancelWithoutCleanup after_call).2 in
  ∃ tr w2,
    length tr ≤ 3 ∧ run (json := example_json) tr w1 = Some w2
    ∧ ((cancels w2 !! j = Some CancelReturned
        ∧ resultCollectorPromise (state w2) = None
        ∧ ∀ k pc, collectors w2 !! k = Some pc → pc = Exited)
       ∨ ∃ k e, collectors after_call !! k = Some (Crashed e)
                ∧ cancels w2 !! j = Some (CancelThrew e)).
Proof.
  exact (drain_can_always_finish (json := example_json)
           example_resources true after_call after_call_reachable).
Defined.


End EngineProperties.

Module CleanupProgress.
Import Engine EngineExamples EngineFacts ExampleFacts.
Import EngineViews EngineViewExamples EngineViewFacts.

Section WithJson.
Context {json : Json}.

Lemma reaches_await_mono (n m j c : nat) (w : World) :
  n ≤ m → reaches_await n j c w → reaches_await m j c w.
Proof.
  intros Hnm (tr & w1 & Hlen & Hrest). exists tr, w1. split; [lia|done].
Qed.

Lemma reaches_await_step (n j c : nat) (a : Action) (w w1 : World) :
  step a w = Some w1 →
  state w1 = state w → collectors w1 = collectors w → cancels w1 = cancels w →
  reaches_await n j c w1 → reaches_await (S n) j c w.
Proof.
  intros Hst Hs Hco Hcn (tr & w2 & Hlen & Hrun & Hs2 & Hco2 & Hcn2 & Hcl2).
  exists (a :: tr), w2. split; [simpl; lia|].
  split; [cbn [run]; by rewrite Hst|]. by rewrite Hs2, Hco2, Hcn2.
Qed.

Lemma reaches_await_now (j c : nat) (w : World) :
  cleanups w !! j = Some (AwaitCancel c) → reaches_await 0 j c w.
Proof. intros Hj. by exists [], w. Qed.

(** The four [await]s of [deleteRole], from the last to the first. *)
Lemma deleting_role_reaches_await (j c : nat) (w : World) :
  cleanups w !! j = Some (DeletingRole c) → reaches_await 1 j c w.
Proof.
  intros Hj. assert (Hlt : j < length (cleanups w)) by (by eapply lookup_lt_Some).
  eapply (reaches_await_step 0 j c (CleanupResumes j)).
  - cbn [step]. unfold cleanup_resumes. by rewrite Hj.
  - done.
  - done.
  - done.
  - apply reaches_await_now. simpl. by rewrite list_lookup_insert_eq.
Qed.

Lemma listing_role_policies_reaches_await (j c : nat) (w : World) :
  cleanups w !! j = Some (ListingRolePolicies c) → reaches_await 2 j c w.
Proof.
  intros Hj. assert (Hlt : j < length (cleanups w)) by (by eapply lookup_lt_Some).
  eapply (reaches_await_step 1 j c (DeleteRoleResumes j [])).
  - cbn [step]. unfold deleteRole_resumes. by rewrite Hj.
  - done.
  - done.
  - done.
  - apply deleting_role_reaches_await. simpl. by rewrite list_lookup_insert_eq.
Qed.

Lemma detaching_policies_reaches_await (j c : nat) (w : World) :
  cleanups w !! j = Some (DetachingPolicies c) → reaches_await 3 j c w.
Proof.
  intros Hj. assert (Hlt : j < length (cleanups w)) by (by eapply lookup_lt_Some).
  eapply (reaches_await_step 2 j c (DeleteRoleResumes j [])).
  - cbn [step]. unfold deleteRole_resumes. by rewrite Hj.
  - done.
  - done.
  - done.
  - apply listing_role_policies_reaches_await. simpl.
    by rewrite list_lookup_insert_eq.
Qed.

Lemma listing_attached_policies_reaches_await (j c : nat) (w : World) :
  cleanups w !! j = Some (ListingAttachedPolicies c) → reaches_await 4 j c w.
Proof.
  intros Hj. assert (Hlt : j < length (cleanups w)) by (by eapply lookup_lt_Some).
  eapply (reaches_await_step 3 j c (DeleteRoleResumes j [])).
  - cbn [step]. unfold deleteRole_resumes. by rewrite Hj.
  - done.
  - done.
  - done.
  - apply detaching_policies_reaches_await. simpl.
    by rewrite list_lookup_insert_eq.
Qed.

Lemma deleting_logGroup_reaches_await (j c : nat) (w : World) :
  cleanups w !! j = Some (DeletingLogGroup c) → reaches_await 5 j c w.
Proof.
  intros Hj. assert (Hlt : j < length (cleanups w)) by (by eapply lookup_lt_Some).
  destruct (cleanup_role_quiet c w) as (Hs & _ & _ & Hco & Hcn & Hcl & _).
  eapply (reaches_await_step 4 j c (CleanupResumes j)).
  - cbn [step]. unfold cleanup_resumes. by rewrite Hj.
  - exact Hs.
  - exact Hco.
  - exact Hcn.
  - cbn [fst snd].
    destruct (cleanup_role_pc c w) as [Hpc | Hpc]; rewrite Hpc.
    + apply listing_attached_policies_reaches_await.
      cbn [cleanups with_cleanups]. rewrite list_lookup_insert_eq; [done|].
      by rewrite Hcl.
    + apply (reaches_await_mono 0); [lia|]. apply reaches_await_now.
      cbn [cleanups with_cleanups]. rewrite list_lookup_insert_eq; [done|].
      by rewrite Hcl.
Qed.

Lemma deleting_function_reaches_await (j c : nat) (w : World) :
  cleanups w !! j = Some (DeletingFunction c) → reaches_await 6 j c w.
Proof.
  intros Hj. assert (Hlt : j < length (cleanups w)) by (by eapply lookup_lt_Some).
  destruct (cleanup_logGroup_quiet c w) as (Hs & _ & _ & Hco & Hcn & Hcl & _).
  eapply (reaches_await_step 5 j c (CleanupResumes j)).
  - cbn [step]. unfold cleanup_resumes. by rewrite Hj.
  - exact Hs.
  - exact Hco.
  - exact Hcn.
  - cbn [fst snd].
    destruct (cleanup_logGroup_pc c w) as [Hpc | [Hpc | Hpc]]; rewrite Hpc.
    + apply deleting_logGroup_reaches_await.
      cbn [cleanups with_cleanups]. rewrite list_lookup_insert_eq; [done|].
      by rewrite Hcl.
    + apply (reaches_await_mono 4); [lia|].
      apply listing_attached_policies_reaches_await.
      cbn [cleanups with_cleanups]. rewrite list_lookup_insert_eq; [done|].
      by rewrite Hcl.
    + apply (reaches_await_mono 0); [lia|]. apply reaches_await_now.
      cbn [cleanups with_cleanups]. rewrite list_lookup_insert_eq; [done|].
      by rewrite Hcl.
Qed.

(** The deletions ahead of [await cancelPromise] end within six turns (one
    for the function, one for the log group, four for the role) and touch
    nothing of the engine. *)
Lemma cleanup_reaches_await (w : World) (j c : nat) (pc : CleanupPc) :
  cleanups w !! j = Some pc → before_await c pc →
  ∃ tr w1, length tr ≤ 6 ∧ run tr w = Some w1
    ∧ state w1 = state w ∧ collectors w1 = collectors w ∧ cancels w1 = cancels w
    ∧ cleanups w1 !! j = Some (AwaitCancel c).
Proof.
  intros Hj Hpc. change (reaches_await 6 j c w).
  destruct Hpc as [-> | [-> | [-> | [-> | [-> | [-> | ->]]]]]].
  - by apply deleting_function_reaches_await.
  - apply (reaches_await_mono 5); [lia|]. by apply deleting_logGroup_reaches_await.
  - apply (reaches_await_mono 4); [lia|].
    by apply listing_attached_policies_reaches_await.
  - apply (reaches_await_mono 3); [lia|]. by apply detaching_policies_reaches_await.
  - apply (reaches_await_mono 2); [lia|].
    by apply listing_role_policies_reaches_await.
  - apply (reaches_await_mono 1); [lia|]. by apply deleting_role_reaches_await.
  - apply (reaches_await_mono 0); [lia|]. by apply reaches_await_now.
Qed.

(** With an empty table, the collector run behind the promise ends within
    two turns, unless it threw. *)
Lemma collector_can_finish (w : World) (k : nat) (pc : CollectorPc) :
  callResultPromises (state w) = ∅ →
  collectors w !! k = Some pc → pc ≠ Exited →
  ∃ tr w1, length tr ≤ 2 ∧ run tr w = Some w1
    ∧ cancels w1 = cancels w ∧ cleanups w1 = cleanups w
    ∧ (∀ k', k' ≠ k → collectors w1 !! k' = collectors w !! k')
    ∧ (collectors w1 !! k = Some Exited
       ∨ ∃ e, pc = Crashed e ∧ collectors w1 !! k = Some (Crashed e)).
Proof.
  intros Ht Hk Hpc.
  assert (Hlt : k < length (collectors w)) by (by eapply lookup_lt_Some).
  destruct pc as [| | |e]; [| |done|].
  - exists [ReceiveDone k (inr []); DeletesDone k]. eexists. split; [simpl; lia|].
    split.
    { cbn [run step]. unfold receive_done. rewrite Hk. cbn [for_messages].
      unfold deletes_done, set_collector. simpl.
      rewrite list_lookup_insert_eq by done.
      unfold loop_head. simpl. rewrite Ht.
      unfold isEmpty. rewrite bool_decide_true by done. done. }
    simpl. split; [done|]. split; [done|]. split.
    { intros k' Hne. by rewrite !list_lookup_insert_ne. }
    left. rewrite list_lookup_insert_eq; [done|]. by rewrite length_insert.
  - exists [DeletesDone k]. eexists. split; [simpl; lia|].
    split.
    { cbn [run step]. unfold deletes_done. rewrite Hk.
      unfold loop_head. rewrite Ht.
      unfold isEmpty. rewrite bool_decide_true by done. done. }
    simpl. split; [done|]. split; [done|]. split.
    { intros k' Hne. by rewrite list_lookup_insert_ne. }
    left. by rewrite list_lookup_insert_eq.
  - exists [], w. split; [simpl; lia|]. split; [done|]. split; [done|].
    split; [done|]. split; [done|]. right. by exists e.
Qed.

(** From [await cancelPromise], with the drain returned or thrown. *)
Lemma cleanup_ends (w : World) (j c : nat) :
  cleanups w !! j = Some (AwaitCancel c) →
  (cancels w !! c = Some CancelReturned →
   ∃ w1, run [CleanupResumes j; CleanupResumes j] w = Some w1
         ∧ cleanups w1 !! j = Some CleanupReturned
         ∧ collectors w1 = collectors w)
  ∧ (∀ e, cancels w !! c = Some (CancelThrew e) →
     ∃ w1, run [CleanupResumes j] w = Some w1
           ∧ cleanups w1 !! j = Some (CleanupThrew e)
           ∧ collectors w1 = collectors w).
Proof.
  intros Hj.
  assert (Hlt : j < length (cleanups w)) by (by eapply lookup_lt_Some).
  split.
  - intros Hc. eexists. split.
    { cbn [run step]. unfold cleanup_resumes at 1. rewrite Hj, Hc.
      destruct (cleanup_queues_quiet w) as (_ & _ & _ & _ & _ & Hcl & _).
      unfold cleanup_resumes. cbn [cleanups with_cleanups fst snd].
      rewrite list_lookup_insert_eq by (by rewrite Hcl).
      cbn [fst snd]. done. }
    destruct (cleanup_queues_quiet w) as (_ & _ & _ & Hco & _ & Hcl & _).
    cbn [cleanups collectors with_cleanups fst snd].
    split; [|done].
    rewrite list_lookup_insert_eq; [done|]. by rewrite length_insert, Hcl.
  - intros e Hc. eexists. split.
    { cbn [run step]. unfold cleanup_resumes. rewrite Hj, Hc. done. }
    simpl. split; [|done]. by rewrite list_lookup_insert_eq.
Qed.

(** [cleanup], up to the start of its drain. *)
Lemma cleanup_starts_drain (w : World) :
  ∃ tr wA pc, length tr ≤ 1 ∧ run tr (cleanup w) = Some wA
    ∧ callResultPromises (state wA) = ∅
    ∧ collectors wA = collectors w
    ∧ cancels wA = cancels w ++
        [match resultCollectorPromise (state w) with
         | Some k => AwaitCollector k
         | None => CancelReturned
         end]
    ∧ cleanups wA !! length (cleanups w) = Some pc
    ∧ before_await (length (cancels w)) pc.
Proof.
  unfold cleanup.
  destruct (truthy (SNSLambdaSubscriptionArn (resources (state w)))).
  - set (w' := emit SnsUnsubscribe w).
    exists [CleanupResumes (length (cleanups w))]. do 2 eexists.
    split; [simpl; lia|]. split.
    { cbn [run step]. unfold cleanup_resumes.
      cbn [cleanups with_cleanups]. rewrite list_lookup_middle by done. done. }
    destruct (cleanup_cancel_frame (with_cleanups (cleanups w' ++ [Unsubscribing]) w'))
      as (_ & Hco & Hcl & Hcn & Hpc).
    pose proof (cleanup_cancel_table (with_cleanups (cleanups w' ++ [Unsubscribing]) w'))
      as Ht.
    cbn [cleanups collectors cancels state with_cleanups fst snd].
    split; [exact Ht|]. split; [exact Hco|]. split; [exact Hcn|].
    split; [|exact (before_await_start _ _ Hpc)].
    rewrite Hcl. simpl. rewrite list_lookup_insert_eq; [|rewrite length_app; simpl; lia].
    done.
  - destruct (cleanup_cancel_frame w) as (_ & Hco & Hcl & Hcn & Hpc).
    pose proof (cleanup_cancel_table w) as Ht.
    destruct (cleanup_cancel w) as [w1 pc].
    cbn [cleanups collectors cancels state with_cleanups fst snd] in *.
    exists [], (with_cleanups (cleanups w1 ++ [pc]) w1), pc.
    split; [simpl; lia|]. split; [done|].
    cbn [cleanups collectors cancels state with_cleanups fst snd].
    split; [exact Ht|]. split; [exact Hco|]. split; [exact Hcn|].
    split; [|exact (before_await_start _ _ Hpc)]. rewrite Hcl. by apply list_lookup_middle.
Qed.

(** X11. [cleanup] can always finish.  From any reachable state, a call of
    [cleanup] can be followed to its end in at most twelve turns of the
    event loop: one for the subscription, one for the function, one for the
    log group, four for the [await]s of [deleteRole], two for the
    collector's pending poll and its return, one for the drain's return, and
    two for the deletion of the topic and the queue.  It then has returned,
    and every collector run has returned; only if the collector had thrown
    does [cleanup] throw, with the collector's error. *)
Theorem cleanup_can_always_finish (res : AWSResources) (queue : bool) (w : World) :
  reachable res queue w →
  let j := length (cleanups w) in
  ∃ tr w2,
    length tr ≤ 12 ∧ run tr (cleanup w) = Some w2
    ∧ ((cleanups w2 !! j = Some CleanupReturned
        ∧ ∀ k pc, collectors w2 !! k = Some pc → pc = Exited)
       ∨ ∃ k e, collectors w !! k = Some (Crashed e)
                ∧ cleanups w2 !! j = Some (CleanupThrew e)).
Proof.
  intros Hr j.
  destruct (reachable_Inv _ _ _ Hr) as [_ HL].
  pose proof (reachable_PromiseInv _ _ _ Hr) as HP.
  destruct (cleanup_starts_drain w)
    as (tr0 & wA & pcA & Hlen0 & Hrun0 & HtA & HcoA & HcnA & HclA & HpcA).
  fold j in HclA. set (c := length (cancels w)) in *.
  destruct (cleanup_reaches_await wA j c pcA HclA HpcA)
    as (tr1 & wB & Hlen1 & Hrun1 & HsB & HcoB & HcnB & HclB).
  assert (HtB : callResultPromises (state wB) = ∅) by (by rewrite HsB).
  assert (HcB : cancels wB !! c
                = Some match resultCollectorPromise (state w) with
                       | Some k => AwaitCollector k
                       | None => CancelReturned
                       end).
  { rewrite HcnB, HcnA. by apply list_lookup_middle. }
  destruct (resultCollectorPromise (state w)) as [k|] eqn:Hprom.
  2:{ destruct (cleanup_ends wB j c HclB) as [Hend _].
      destruct (Hend HcB) as (w2 & Hrun2 & Hcl2 & Hco2).
      exists (tr0 ++ tr1 ++ [CleanupResumes j; CleanupResumes j]), w2.
      split; [rewrite !length_app; simpl; lia|].
      split.
      { rewrite run_app, Hrun0. cbn [mbind option_bind].
        by rewrite run_app, Hrun1. }
      left. split; [done|]. intros k pc. rewrite Hco2, HcoB, HcoA. intros Hk.
      destruct (exited_or_not pc) as [|Hne]; [done|].
      pose proof (HL k pc Hk Hne). congruence. }
  destruct (HP k Hprom) as (pc0 & Hk & Hpc0).
  destruct (collector_can_finish wB k pc0 HtB) as
    (tr2 & wC & Hlen2 & Hrun2 & HcnC & HclC & HothersC & HkC); [by rewrite HcoB, HcoA|done|].
  assert (Hawait : cancels wC !! c = Some (AwaitCollector k)) by (by rewrite HcnC).
  assert (Hclc : c < length (cancels wC)) by (by eapply lookup_lt_Some).
  destruct HkC as [HkC|(e & -> & HkC)].
  - set (wD := with_cancels (<[c := CancelReturned]> (cancels wC)) wC).
    assert (HstepD : step (CollectorAwaited c) wC = Some wD).
    { cbn [step]. unfold collector_awaited. by rewrite Hawait, HkC. }
    assert (HclD : cleanups wD !! j = Some (AwaitCancel c)) by (simpl; by rewrite HclC).
    destruct (cleanup_ends wD j c HclD) as [Hend _].
    destruct Hend as (w2 & Hrun3 & Hcl2 & Hco2).
    { simpl. by rewrite list_lookup_insert_eq. }
    exists (tr0 ++ tr1 ++ tr2 ++ [CollectorAwaited c] ++ [CleanupResumes j; CleanupResumes j]), w2.
    split; [rewrite !length_app; simpl; lia|].
    split.
    { rewrite run_app, Hrun0. cbn [mbind option_bind].
      rewrite run_app, Hrun1. cbn [mbind option_bind].
      rewrite run_app, Hrun2. cbn [mbind option_bind].
      rewrite run_app. cbn [run]. rewrite HstepD. cbn [mbind option_bind].
      exact Hrun3. }
    left. split; [done|]. intros k' pc. rewrite Hco2. simpl.
    destruct (decide (k' = k)) as [Heq|Hne]; [rewrite Heq, HkC; by intros [= <-]|].
    rewrite HothersC, HcoB, HcoA by done. intros Hk'.
    destruct (exited_or_not pc) as [|Hpc]; [done|].
    pose proof (HL k' pc Hk' Hpc). congruence.
  - set (wD := with_cancels (<[c := CancelThrew e]> (cancels wC)) wC).
    assert (HstepD : step (CollectorAwaited c) wC = Some wD).
    { cbn [step]. unfold collector_awaited. by rewrite Hawait, HkC. }
    assert (HclD : cleanups wD !! j = Some (AwaitCancel c)) by (simpl; by rewrite HclC).
    destruct (cleanup_ends wD j c HclD) as [_ Hend].
    destruct (Hend e) as (w2 & Hrun3 & Hcl2 & Hco2).
    { simpl. by rewrite list_lookup_insert_eq. }
    exists (tr0 ++ tr1 ++ tr2 ++ [CollectorAwaited c] ++ [CleanupResumes j]), w2.
    split; [rewrite !length_app; simpl; lia|].
    split.
    { rewrite run_app, Hrun0. cbn [mbind option_bind].
      rewrite run_app, Hrun1. cbn [mbind option_bind].
      rewrite run_app, Hrun2. cbn [mbind option_bind].
      rewrite run_app. cbn [run]. rewrite HstepD. cbn [mbind option_bind].
      exact Hrun3. }
    right. by exists k, e.
Qed.

End WithJson.

(** The whole [cleanup] of an engine with a temporary role: twelve turns,
    and the calls made in them. *)
Example cleanup_of_a_temporary_role :
  length cleanup_temporary_trace = 12
  ∧ run (json := example_json) cleanup_temporary_trace (cleanup temporary_after_call)
    = Some cleanup_temporary
  ∧ cleanups cleanup_temporary !! 0 = Some CleanupReturned
  ∧ collectors cleanup_temporary = [Exited]
  ∧ drop (length (effects temporary_after_call)) (effects cleanup_temporary)
    = [SnsUnsubscribe; DeferredReject 0; LambdaDeleteFunction;
       CloudwatchDeleteLogGroup; IamListAttachedRolePolicies;
       IamDetachRolePolicy "arn:aws:iam::aws:policy/AdministratorAccess";
       IamListRolePolicies; IamDeleteRolePolicy "inline-policy"; IamDeleteRole;
       SetTimeout; SnsDeleteTopic; SqsDeleteQueue].
Proof. vm_compute. repeat split; reflexivity. Qed.

Lemma temporary_after_call_reachable :
  reachable (json := example_json) temporary_resources true temporary_after_call.
Proof. exists [Call "abc"%string]. vm_compute. reflexivity. Qed.

Lemma cleanup_can_always_finish_witness :
  (∃ tr w2,
     length tr ≤ 12
     ∧ run (json := example_json) tr (cleanup after_call) = Some w2
     ∧ ((cleanups w2 !! 0 = Some CleanupReturned
         ∧ ∀ k pc, collectors w2 !! k = Some pc → pc = Exited)
        ∨ ∃ k e, collectors after_call !! k = Some (Crashed e)
                 ∧ cleanups w2 !! 0 = Some (CleanupThrew e)))
  ∧ (∃ tr w2,
       length tr ≤ 12
       ∧ run (json := example_json) tr (cleanup temporary_after_call) = Some w2
       ∧ ((cleanups w2 !! 0 = Some CleanupReturned
           ∧ ∀ k pc, collectors w2 !! k = Some pc → pc = Exited)
          ∨ ∃ k e, collectors temporary_after_call !! k = Some (Crashed e)
                   ∧ cleanups w2 !! 0 = Some (CleanupThrew e))).
Proof.
  split.
  - exact (cleanup_can_always_finish (json := example_json)
             example_resources true after_call after_call_reachable).
  - exact (cleanup_can_always_finish (json := example_json)
             temporary_resources true temporary_after_call
             temporary_after_call_reachable).
Defined.

End CleanupProgress.

Module PollRequestViewFacts.
Import PollRequest PollRequestFacts PollRequestViews.
Local Open Scope Z_scope.

Section WithRequest.
Context {T E : Type} (truthy : T → bool) (fn : nat → Outcome T E).

(** X12. [pollAWSRequest] returns the first truthy result.  When attempt
    [k], not the last one, is the first whose request is fulfilled with a
    truthy value, the function returns that value; before it, each failed
    attempt (a rejection, or a falsy result) was logged, made and followed by
    its sleep, and nothing is requested or slept after it. *)
Theorem pollAWSRequest_returns_first_truthy_result (n : Z) (k : nat) (v : T) :
  (k < Z.to_nat (n - 1))%nat →
  (∀ i, (i < k)%nat → fails truthy fn i = true) →
  fn k = Fulfilled v → truthy v = true →
  pollAWSRequest truthy fn n = (Returned v, retries 0 k ++ [EvInfo; EvRequest k])
  ∧ requests (pollAWSRequest truthy fn n).2 = seq 0 (S k)
  ∧ sleeps (pollAWSRequest truthy fn n).2 = backoff <$> seq 0 k.
Proof.
  intros Hk Hfail Hv Htrue. unfold pollAWSRequest.
  assert (Heq : poll_loop truthy fn (Z.to_nat (n - 1)) 1000 0 []
                = (Returned v, retries 0 k ++ [EvInfo; EvRequest k])).
  { replace (Z.to_nat (n - 1)) with (k + S (Z.to_nat (n - 1) - S k))%nat by lia.
    rewrite <- backoff_0.
    rewrite poll_loop_retries by (intros i Hi; apply Hfail; lia).
    simpl. rewrite Hv. simpl. by rewrite Htrue. }
  split; [exact Heq|].
  destruct (poll_loop_requests truthy fn (Z.to_nat (n - 1)) 1000 0 [])
    as (m & Hm & Hreq).
  destruct (poll_loop_sleeps truthy fn (Z.to_nat (n - 1)) 0 [])
    as (m' & Hm' & Hsl).
  rewrite backoff_0 in Hsl. rewrite Heq in *. simpl in *.
  assert (Hlen : ∀ j, length (retries (E := E) j k) = (3 * k)%nat).
  { clear. induction k as [|k IH]; intros j; [done|].
    rewrite retries_S, length_app, IH. simpl. lia. }
  assert (Hreqs : ∀ j, requests (retries (E := E) j k) = seq j k).
  { clear. induction k as [|k IH]; intros j; [done|].
    rewrite retries_S, requests_app, IH. done. }
  assert (Hsls : ∀ j, sleeps (retries (E := E) j k) = backoff <$> seq j k).
  { clear. induction k as [|k IH]; intros j; [done|].
    rewrite retries_S, sleeps_app, IH. done. }
  rewrite requests_app, sleeps_app, Hreqs, Hsls. simpl.
  rewrite app_nil_r. split; [|done].
  change (0%nat :: seq 1 k) with (seq 0 (S k)). by rewrite seq_S.
Qed.

(** X13. When every attempt inside the loop fails, the last attempt alone
    decides: its result is returned whatever its truthiness, its rejection
    is logged with [warn] and thrown.  It is not announced with the
    [Polling] log line and no sleep follows it.  With [n <= 1] the loop does
    not run: one request, no log line, no sleep. *)
Theorem pollAWSRequest_last_attempt_decides (n : Z) :
  let last := Z.to_nat (n - 1) in
  (∀ i, (i < last)%nat → fails truthy fn i = true) →
  pollAWSRequest truthy fn n
  = match fn last with
    | Fulfilled v => (Returned v, retries 0 last ++ [EvRequest last])
    | RejectedWith e => (Threw e, retries 0 last ++ [EvRequest last; EvWarn e])
    end.
Proof.
  intros last Hfail. unfold pollAWSRequest. fold last.
  replace last with (last + 0)%nat at 1 by lia.
  rewrite <- backoff_0.
  rewrite poll_loop_retries by (intros i Hi; apply Hfail; lia).
  simpl. unfold final_attempt. by destruct (fn last).
Qed.

End WithRequest.

Lemma pollAWSRequest_returns_first_truthy_result_witness :
  pollAWSRequest (T := string) (E := string) (fun _ => true)
    (fun i => if (i <? 2)%nat then RejectedWith "ResourceNotFoundException"%string
              else Fulfilled "ready"%string) 5
  = (Returned "ready"%string,
     [EvInfo; EvRequest 0%nat; EvSleep 1000;
      EvInfo; EvRequest 1%nat; EvSleep 2000;
      EvInfo; EvRequest 2%nat]).
Proof.
  destruct (pollAWSRequest_returns_first_truthy_result (T := string) (E := string)
              (fun _ => true)
              (fun i => if (i <? 2)%nat then RejectedWith "ResourceNotFoundException"%string
                        else Fulfilled "ready"%string) 5 2 "ready"%string)
    as [H _].
  - vm_compute. lia.
  - intros [|[|i]] Hi; [reflexivity|reflexivity|lia].
  - reflexivity.
  - reflexivity.
  - exact H.
Defined.

Lemma pollAWSRequest_last_attempt_decides_witness :
  pollAWSRequest (T := bool) (E := string) (fun b => b) (fun _ => Fulfilled false) 3
  = (Returned false,
     [EvInfo; EvRequest 0%nat; EvSleep 1000;
      EvInfo; EvRequest 1%nat; EvSleep 2000; EvRequest 2%nat]).
Proof.
  apply (pollAWSRequest_last_attempt_decides (T := bool) (E := string)
           (fun b => b) (fun _ => Fulfilled false) 3).
  intros i _. reflexivity.
Defined.

End PollRequestViewFacts.

Module RoleReadinessFacts.
Import PollRequest PollRequestViews RoleReadiness.
Local Open Scope Z_scope.

Lemma role_retries_S (i m : nat) :
  role_retries i (S m)
  = [RoleLogPolling; RoleCreateFunction i; RoleSleep 1000] ++ role_retries (S i) m.
Proof. reflexivity. Qed.

Lemma role_requests_app (tr1 tr2 : list RoleEvent) :
  role_requests (tr1 ++ tr2) = role_requests tr1 ++ role_requests tr2.
Proof. apply omap_app. Qed.

Lemma role_slept_app (tr1 tr2 : list RoleEvent) :
  role_slept (tr1 ++ tr2) = role_slept tr1 + role_slept tr2.
Proof.
  unfold role_slept. rewrite omap_app.
  induction (omap _ tr1) as [|x l IH]; simpl; [done|]. rewrite IH. lia.
Qed.

Lemma role_deletes_app (tr1 tr2 : list RoleEvent) :
  role_deletes (tr1 ++ tr2) = (role_deletes tr1 + role_deletes tr2)%nat.
Proof. unfold role_deletes. by rewrite omap_app, length_app. Qed.

Lemma role_retries_requests (i m : nat) : role_requests (role_retries i m) = seq i m.
Proof.
  revert i. induction m as [|m IH]; intros i; [done|].
  rewrite role_retries_S, role_requests_app, IH. done.
Qed.

Lemma role_retries_slept (i m : nat) : role_slept (role_retries i m) = 1000 * Z.of_nat m.
Proof.
  revert i. induction m as [|m IH]; intros i; [done|].
  rewrite role_retries_S, role_slept_app, IH. unfold role_slept. simpl. lia.
Qed.

Lemma role_retries_deletes (i m : nat) : role_deletes (role_retries i m) = 0%nat.
Proof.
  revert i. induction m as [|m IH]; intros i; [done|].
  rewrite role_retries_S, role_deletes_app, IH. done.
Qed.

Section WithRequests.
Context {T E : Type} (truthy : T → bool) (createFunction : nat → Outcome T E).
Context (deleteFunction : option E) (new_Error : string → E).

(** While the requests fail, the loop goes on. *)
Lemma role_loop_retries (m remaining i : nat) (tr : list RoleEvent) :
  (∀ j, (i ≤ j < i + m)%nat → fails truthy createFunction j = true) →
  role_loop truthy createFunction (m + remaining) i tr
  = role_loop truthy createFunction remaining (i + m) (tr ++ role_retries i m).
Proof.
  revert i tr. induction m as [|m IH]; intros i tr Hfail.
  { simpl. by rewrite Nat.add_0_r, app_nil_r. }
  assert (Hi : fails truthy createFunction i = true) by (apply Hfail; lia).
  assert (Hnext :
    role_loop truthy createFunction (m + remaining) (S i)
      ((tr ++ [RoleLogPolling; RoleCreateFunction i]) ++ [RoleSleep 1000])
    = role_loop truthy createFunction remaining (i + S m) (tr ++ role_retries i (S m))).
  { rewrite IH by (intros j Hj; apply Hfail; lia).
    replace (S i + m)%nat with (i + S m)%nat by lia.
    rewrite role_retries_S, <- !app_assoc. done. }
  unfold fails in Hi. cbn [Nat.add role_loop].
  destruct (createFunction i) as [v|e]; simpl; [|exact Hnext].
  destruct (truthy v); [done|exact Hnext].
Qed.

(** X14. [waitForRoleReadiness] gives up after 100 attempts: when none of
    the first 100 [createFunction] requests yields a function, it throws
    [Could not initialize lambda execution role] after exactly 100 requests
    and 102 seconds of sleep (2 s ahead of the loop, 1 s after each failed
    request, the last one included), and it does not call
    [deleteFunction]. *)
Theorem role_readiness_gives_up_after_100_attempts :
  (∀ i, (i < 100)%nat → fails truthy createFunction i = true) →
  let r := waitForRoleReadiness truthy None None createFunction deleteFunction new_Error in
  r.1 = Threw (new_Error "Could not initialize lambda execution role")
  ∧ role_requests r.2 = seq 0 100
  ∧ role_slept r.2 = 102000
  ∧ role_deletes r.2 = 0%nat.
Proof.
  intros Hfail r.
  assert (Hr : r = (Threw (new_Error "Could not initialize lambda execution role"),
                    [RoleLogCreating; RolePack; RoleZip; RoleSleep 2000]
                    ++ role_retries 0 100)).
  { subst r. unfold waitForRoleReadiness.
    change 100%nat with (100 + 0)%nat at 1.
    by rewrite role_loop_retries by (intros j Hj; apply Hfail; lia). }
  rewrite Hr. cbv beta iota delta [fst snd].
  rewrite role_requests_app, role_slept_app, role_deletes_app,
    role_retries_requests, role_retries_slept, role_retries_deletes.
  done.
Qed.

(** X15. When attempt [k] (of the 100) is the first whose request yields a
    function, [waitForRoleReadiness] stops polling there, has slept
    [2000 + 1000 * k] ms, and calls [deleteFunction] exactly once; it
    returns when that deletion succeeds and throws the deletion's own error
    when it fails. *)
Theorem role_readiness_deletes_the_test_function_once (k : nat) (v : T) :
  (k < 100)%nat →
  (∀ i, (i < k)%nat → fails truthy createFunction i = true) →
  createFunction k = Fulfilled v → truthy v = true →
  let r := waitForRoleReadiness truthy None None createFunction deleteFunction new_Error in
  r.1 = match deleteFunction with Some err => Threw err | None => Returned tt end
  ∧ r.2 = [RoleLogCreating; RolePack; RoleZip; RoleSleep 2000] ++ role_retries 0 k
          ++ [RoleLogPolling; RoleCreateFunction k; RoleLogReady; RoleDeleteFunction]
  ∧ role_requests r.2 = seq 0 (S k)
  ∧ role_slept r.2 = 2000 + 1000 * Z.of_nat k
  ∧ role_deletes r.2 = 1%nat.
Proof.
  intros Hk Hfail Hv Htrue r.
  assert (Hr : r = (match deleteFunction with Some err => Threw err | None => Returned tt end,
                    [RoleLogCreating; RolePack; RoleZip; RoleSleep 2000] ++ role_retries 0 k
                    ++ [RoleLogPolling; RoleCreateFunction k; RoleLogReady; RoleDeleteFunction])).
  { subst r. unfold waitForRoleReadiness.
    replace 100%nat with (k + S (99 - k))%nat at 1 by lia.
    rewrite role_loop_retries by (intros j Hj; apply Hfail; lia).
    simpl. rewrite Hv. simpl. rewrite Htrue.
    destruct deleteFunction; simpl; by rewrite <- !app_assoc. }
  rewrite Hr. cbn [fst snd]. split; [done|]. split; [done|].
  rewrite !role_requests_app, !role_slept_app, !role_deletes_app,
    role_retries_requests, role_retries_slept, role_retries_deletes.
  split; [|split; [unfold role_slept; simpl; lia|done]].
  simpl. change (0%nat :: seq 1 k) with (seq 0 (S k)). by rewrite seq_S.
Qed.

End WithRequests.

Lemma role_readiness_gives_up_after_100_attempts_witness :
  let r := waitForRoleReadiness (T := string) (E := string) (fun _ => true) None None
             (fun _ => RejectedWith "InvalidParameterValueException"%string)
             None (fun msg => msg) in
  r.1 = Threw "Could not initialize lambda execution role"%string
  ∧ role_requests r.2 = seq 0 100
  ∧ role_slept r.2 = 102000
  ∧ role_deletes r.2 = 0%nat.
Proof.
  apply (role_readiness_gives_up_after_100_attempts (T := string) (E := string)
           (fun _ => true)
           (fun _ => RejectedWith "InvalidParameterValueException"%string)
           None (fun msg => msg)).
  intros i _. reflexivity.
Defined.

Lemma role_readiness_deletes_the_test_function_once_witness :
  role_example.1 = Returned tt
  ∧ role_requests role_example.2 = [0; 1; 2]%nat
  ∧ role_slept role_example.2 = 4000
  ∧ role_deletes role_example.2 = 1%nat.
Proof.
  destruct (role_readiness_deletes_the_test_function_once (T := string) (E := string)
              (fun _ => true)
              (fun i => if (i <? 2)%nat
                        then RejectedWith "InvalidParameterValueException"%string
                        else Fulfilled "arn:aws:lambda:testfunction"%string)
              None (fun msg => msg) 2 "arn:aws:lambda:testfunction"%string)
    as (H1 & _ & H3 & H4 & H5).
  - lia.
  - intros [|[|i]] Hi; [reflexivity|reflexivity|lia].
  - reflexivity.
  - reflexivity.
  - split; [exact H1|]. split; [exact H3|]. split; [exact H4|exact H5].
Defined.

End RoleReadinessFacts.

Module LaterResourcesFacts.
Import Later LaterResources.

Lemma string_length_app (s1 s2 : string) :
  String.length (s1 +:+ s2) = String.length s1 + String.length s2.
Proof. induction s1 as [|a s1 IH]; simpl; [done|]. by rewrite IH. Qed.

Lemma string_app_inv_tail (s1 s2 t : string) : s1 +:+ t = s2 +:+ t → s1 = s2.
Proof.
  revert s2. induction s1 as [|a s1 IH]; intros [|b s2] H; simpl in *.
  - done.
  - apply (f_equal String.length) in H.
    rewrite !string_length_app in H. simpl in H. lia.
  - apply (f_equal String.length) in H.
    rewrite !string_length_app in H. simpl in H. lia.
  - injection H as -> H. f_equal. by apply IH.
Qed.

Lemma getSNSTopicArn_inj (region accountId f g : string) :
  getSNSTopicArn region accountId f = getSNSTopicArn region accountId g → f = g.
Proof.
  unfold getSNSTopicArn, getSNSTopicName. intros H.
  do 5 apply String.app_inj in H. by apply string_app_inv_tail in H.
Qed.

Lemma getResponseQueueUrl_inj (region accountId f g : string) :
  getResponseQueueUrl region accountId f = getResponseQueueUrl region accountId g → f = g.
Proof.
  unfold getResponseQueueUrl, getSQSName. intros H.
  do 5 apply String.app_inj in H. by apply string_app_inv_tail in H.
Qed.

Lemma issued_app (tr1 tr2 : list Event) : issued (tr1 ++ tr2) = issued tr1 ++ issued tr2.
Proof. apply omap_app. Qed.


Lemma attempt_issued (ok : Request → bool) (r : Request) (msg : string) (tr : list Event) :
  issued (attempt ok r msg tr) = issued tr ++ [r].
Proof. unfold attempt. destruct (ok r); by rewrite issued_app. Qed.


(** The requests [deleteResources] makes, read off the resources alone. *)
Lemma deleteResources_issued (ok : Request → bool) (res : AWSResources) :
  issued (deleteResources ok res)
  = match Engine.nonempty (SNSLambdaSubscriptionArn res) with
    | Some arn => [SnsUnsubscribe arn] | None => [] end
    ++ match Engine.nonempty (RequestTopicArn res) with
       | Some arn => [SnsDeleteTopic arn] | None => [] end
    ++ match Engine.nonempty (ResponseQueueUrl res) with
       | Some url => [SqsDeleteQueue url] | None => [] end
    ++ match Engine.nonempty (s3Bucket res), Engine.nonempty (s3Key res) with
       | Some bucket, Some key => [S3DeleteObject bucket key] | _, _ => [] end
    ++ match Engine.nonempty (Some (FunctionName res)) with
       | Some name => [LambdaDeleteFunction name] | None => [] end.
Proof.
  unfold deleteResources.
  destruct (Engine.nonempty (SNSLambdaSubscriptionArn res)),
           (Engine.nonempty (RequestTopicArn res)),
           (Engine.nonempty (ResponseQueueUrl res)),
           (Engine.nonempty (s3Bucket res)),
           (Engine.nonempty (s3Key res)),
           (Engine.nonempty (Some (FunctionName res)));
    rewrite ?attempt_issued; simpl; rewrite ?attempt_issued; done.
Qed.



(** X17. [cleanup] of the later revision deletes resources only after
    [stop] has returned.  It throws exactly when [cloudqueue.stop] rejects,
    or, that having gone well, the garbage collection awaited rejects; it
    then makes no deletion request at all, and after a rejection of
    [cloudqueue.stop] no retention policy is requested and the garbage
    collection is not awaited.  Otherwise its requests are those of
    [deleteResources]. *)
Theorem later_cleanup_deletes_only_after_stop
        (ok : Request → bool) (queueState gcPromise : bool) (res : AWSResources)
        (queue_failure gc_failure : option AWSError) :
  let r := cleanup ok queueState gcPromise res queue_failure gc_failure in
  (r.1.1, r.2) = stop (mkStopState queueState gcPromise (FunctionName res))
                      queue_failure gc_failure
  ∧ (∀ err, r.2 = StopThrew err ↔
       (queueState = true ∧ queue_failure = Some err)
       ∨ ((queueState = false ∨ queue_failure = None)
          ∧ gcPromise = true ∧ gc_failure = Some err))
  ∧ (∀ err, r.2 = StopThrew err → r.1.2 = [])
  ∧ (∀ err, queueState = true → queue_failure = Some err →
       r.1.1 = [CloudqueueStop])
  ∧ (r.2 = StopReturned → r.1.2 = deleteResources ok res).
Proof.
  intros r. subst r. unfold cleanup, stop. simpl.
  destruct queueState, gcPromise, queue_failure as [qe|], gc_failure as [ge|];
    simpl; (split; [done|]); (split; [|done]);
    intros err; split; intros H; simplify_eq; auto;
    destruct H as [[? ?]|([?|?] & ? & ?)]; simplify_eq; done.
Qed.

Section GarbageWorkers.
Context (getLogGroupName : string → string).

Lemma gc_worker_issued (ok : Request → bool) (region accountId bucket f : string) :
  f ≠ ""%string →
  issued (gc_worker ok getLogGroupName region accountId bucket f)
  = [SnsDeleteTopic (getSNSTopicArn region accountId f);
     SqsDeleteQueue (getResponseQueueUrl region accountId f)]
    ++ (if String.eqb bucket "" then [] else [S3DeleteObject bucket f])
    ++ [LambdaDeleteFunction f; CloudwatchDeleteLogGroup (getLogGroupName f)].
Proof.
  intros Hf. unfold gc_worker. rewrite attempt_issued, deleteResources_issued.
  assert (Hne : String.eqb f "" = false) by (by apply String.eqb_neq).
  unfold garbage_resources, getS3Key. simpl. rewrite Hne.
  by destruct (String.eqb bucket "").
Qed.

Lemma gc_worker_issued_elem (ok : Request → bool) (region accountId bucket f : string)
      (r : Request) :
  f ≠ ""%string →
  r ∈ issued (gc_worker ok getLogGroupName region accountId bucket f) →
  r = SnsDeleteTopic (getSNSTopicArn region accountId f)
  ∨ r = SqsDeleteQueue (getResponseQueueUrl region accountId f)
  ∨ r = S3DeleteObject bucket f
  ∨ r = LambdaDeleteFunction f
  ∨ r = CloudwatchDeleteLogGroup (getLogGroupName f).
Proof.
  intros Hf. rewrite gc_worker_issued by done.
  rewrite !elem_of_app, !elem_of_cons, elem_of_nil.
  destruct (String.eqb bucket "").
  - rewrite elem_of_nil. intros [[?|[?|?]]|[?|[?|[?|?]]]]; auto; done.
  - rewrite elem_of_cons, elem_of_nil.
    intros [[?|[?|?]]|[[?|?]|[?|[?|?]]]]; auto; done.
Qed.

(** X18. The workers [deleteGarbageFunctions] schedules touch their own
    function only: the worker of function [f] asks, in this order, for the
    deletion of the topic, the queue, the S3 object (when a bucket is
    given), the function and the log group named after [f], whatever the
    answers; and the workers of two different functions have no request in
    common. *)
Theorem gc_workers_delete_only_their_own_resources
        (ok ok' : Request → bool) (region accountId bucket f g : string) :
  (∀ x y, getLogGroupName x = getLogGroupName y → x = y) →
  f ≠ ""%string → g ≠ ""%string → f ≠ g →
  issued (gc_worker ok getLogGroupName region accountId bucket f)
  = [SnsDeleteTopic (getSNSTopicArn region accountId f);
     SqsDeleteQueue (getResponseQueueUrl region accountId f)]
    ++ (if String.eqb bucket "" then [] else [S3DeleteObject bucket f])
    ++ [LambdaDeleteFunction f; CloudwatchDeleteLogGroup (getLogGroupName f)]
  ∧ ∀ r, r ∈ issued (gc_worker ok getLogGroupName region accountId bucket f) →
         r ∉ issued (gc_worker ok' getLogGroupName region accountId bucket g).
Proof.
  intros Hinj Hf Hg Hfg. split; [by apply gc_worker_issued|].
  intros r Hr Hr'.
  apply gc_worker_issued_elem in Hr; [|done].
  apply gc_worker_issued_elem in Hr'; [|done].
  destruct Hfg.
  destruct Hr as [Hr|[Hr|[Hr|[Hr|Hr]]]]; rewrite Hr in Hr';
    destruct Hr' as [Hr'|[Hr'|[Hr'|[Hr'|Hr']]]]; try discriminate Hr'.
  - apply (getSNSTopicArn_inj region accountId).
    exact (f_equal (λ r, match r with SnsDeleteTopic a => a | _ => f end) Hr').
  - apply (getResponseQueueUrl_inj region accountId).
    exact (f_equal (λ r, match r with SqsDeleteQueue a => a | _ => f end) Hr').
  - exact (f_equal (λ r, match r with S3DeleteObject _ a => a | _ => f end) Hr').
  - exact (f_equal (λ r, match r with LambdaDeleteFunction a => a | _ => f end) Hr').
  - apply Hinj.
    exact (f_equal (λ r, match r with CloudwatchDeleteLogGroup a => a | _ => f end) Hr').
Qed.

End GarbageWorkers.

Lemma example_getLogGroupName_inj (x y : string) :
  example_getLogGroupName x = example_getLogGroupName y → x = y.
Proof. unfold example_getLogGroupName. apply String.app_inj. Qed.

Lemma gc_workers_delete_only_their_own_resources_witness :
  issued (gc_worker (fun _ => false) example_getLogGroupName
            "us-west-2" "123" "faast-cache-123-us-west-2" "faast-1")
  = [SnsDeleteTopic "arn:aws:sns:us-west-2:123:faast-1-Requests";
     SqsDeleteQueue "https://sqs.us-west-2.amazonaws.com/123/faast-1-Responses";
     S3DeleteObject "faast-cache-123-us-west-2" "faast-1";
     LambdaDeleteFunction "faast-1";
     CloudwatchDeleteLogGroup "/aws/lambda/faast-1"].
Proof.
  destruct (gc_workers_delete_only_their_own_resources example_getLogGroupName
              (fun _ => false) (fun _ => true)
              "us-west-2" "123" "faast-cache-123-us-west-2" "faast-1" "faast-2"
              example_getLogGroupName_inj) as [H _].
  - discriminate.
  - discriminate.
  - discriminate.
  - exact H.
Defined.

End LaterResourcesFacts.
